(** * krapht pipeline: flows, events and the event collector

    A shallow embedding of the Go packages [pkg/pipeline] (events,
    [SendEvent], [EventCollector]), [pkg/pipeline/flow] (Buffer, Passthrough,
    Filter, Map, FilterMap) and of the part of [pkg/pipeline/sink] that emits
    events, over a small model of Go channels.

    A stage's [Transform] allocates its output channel and starts one
    goroutine; the goroutine is embedded as a program counter together with a
    step function, the channels are explicit state, and the producer, the
    consumer and the event observer are moves of the environment that may be
    interleaved with the goroutine in any order. *)

From Stdlib Require Import String List Bool Arith ZArith Lia.
Import ListNotations.

Set Implicit Arguments.

(** ** Go runtime: results of operations and channels *)

Module runtime.

(** What an operation of the program does: it returns, it parks the calling
    goroutine, or it panics. *)
Inductive outcome (R : Type) : Type :=
| Returns (r : R)
| Blocks
| Panics.
Arguments Blocks {R}.
Arguments Panics {R}.

(** A channel created by [make(chan A, cap)].  [sendq] holds the values of
    parked senders, [recvq] counts parked receivers, and [taken] records the
    values that have left the channel towards its receivers, oldest first. *)
Record chan (A : Type) : Type := mkChan {
  cap : nat;
  buf : list A;
  sendq : list A;
  recvq : nat;
  closed : bool;
  taken : list A
}.

Definition make_chan {A : Type} (n : nat) : chan A :=
  mkChan n [] [] 0 false [].

(** [chan_send ch v block] on a non-nil channel.  A closed channel panics;
    a parked receiver gets the value directly; otherwise the value goes to
    the buffer when there is room; otherwise a blocking send parks and a
    non-blocking one (a [select] with a [default] branch) gives up. *)
Definition chan_send {A : Type} (ch : chan A) (v : A) (block : bool)
  : outcome (bool * chan A) :=
  if closed ch then Panics
  else if 0 <? recvq ch then
    Returns (true, mkChan (cap ch) (buf ch) (sendq ch) (recvq ch - 1)
                          false (taken ch ++ [v]))
  else if length (buf ch) <? cap ch then
    Returns (true, mkChan (cap ch) (buf ch ++ [v]) (sendq ch) (recvq ch)
                          false (taken ch))
  else if block then Blocks
  else Returns (false, ch).

(** The same on a handle that may be nil: a blocking send on a nil channel
    parks for ever, a non-blocking one gives up. *)
Definition chansend {A : Type} (c : option (chan A)) (v : A) (block : bool)
  : outcome (bool * option (chan A)) :=
  match c with
  | None => if block then Blocks else Returns (false, None)
  | Some ch =>
      match chan_send ch v block with
      | Returns (ok, ch') => Returns (ok, Some ch')
      | Blocks => Blocks
      | Panics => Panics
      end
  end.

Inductive recv_result (A : Type) : Type :=
| Received (v : A) (ch : chan A)
| RecvClosed
| RecvBlocks.
Arguments RecvClosed {A}.
Arguments RecvBlocks {A}.

(** [v, ok := <-ch]: the oldest buffered value (a parked sender then moves
    its value into the freed slot), else the value of a parked sender, else
    the closed signal, else the receiver has to wait. *)
Definition chanrecv {A : Type} (ch : chan A) : recv_result A :=
  match buf ch, sendq ch with
  | v :: b, w :: q =>
      Received v (mkChan (cap ch) (b ++ [w]) q (recvq ch) (closed ch)
                         (taken ch ++ [v]))
  | v :: b, [] =>
      Received v (mkChan (cap ch) b [] (recvq ch) (closed ch)
                         (taken ch ++ [v]))
  | [], w :: q =>
      Received w (mkChan (cap ch) [] q (recvq ch) (closed ch)
                         (taken ch ++ [w]))
  | [], [] => if closed ch then RecvClosed else RecvBlocks
  end.

(** [close(ch)].  Parked senders panic and parked receivers wake up with
    the closed signal; closing twice panics. *)
Definition close_chan {A : Type} (ch : chan A) : outcome (chan A) :=
  if closed ch then Panics
  else Returns (mkChan (cap ch) (buf ch) [] 0 true (taken ch)).

(** Moves of goroutines that are not modelled line by line (the producer
    of a stage's input, the consumer of its output, the readers of the
    event stream).  They park in the channel's queues when they cannot
    proceed, and a panic of theirs leaves the channel as it was. *)
Definition env_send {A : Type} (ch : chan A) (v : A) : chan A :=
  match chan_send ch v true with
  | Returns (_, ch') => ch'
  | Blocks => mkChan (cap ch) (buf ch) (sendq ch ++ [v]) (recvq ch)
                     (closed ch) (taken ch)
  | Panics => ch
  end.

Definition env_recv {A : Type} (ch : chan A) : chan A :=
  match chanrecv ch with
  | Received _ ch' => ch'
  | RecvClosed => ch
  | RecvBlocks => mkChan (cap ch) (buf ch) (sendq ch) (S (recvq ch))
                         (closed ch) (taken ch)
  end.

Definition env_close {A : Type} (ch : chan A) : chan A :=
  match close_chan ch with
  | Returns ch' => ch'
  | _ => ch
  end.

End runtime.
Import runtime.

(** ** Package pipeline: events *)

Module pipeline.

(** A Go [error] value; only its [Error()] text is observed here. *)
Inductive error : Type := errors_New (text : string).

Definition error_Error (e : error) : string :=
  match e with errors_New text => text end.

Definition uint8 (z : Z) : Z := (z mod 256)%Z.

(** [type EventType uint8], numbered by [iota]. *)
Definition EventType : Type := Z.
Definition EventLog : EventType := uint8 0.
Definition EventError : EventType := uint8 1.
Definition EventMetric : EventType := uint8 2.

(** [type LogLevel uint8].  The const block repeats [iota + 3] on each of
    its lines; its third line binds the blank identifier. *)
Definition LogLevel : Type := Z.
Definition LogLevel_line (iota : Z) : LogLevel := uint8 (iota + 3).
Definition LevelError : LogLevel := LogLevel_line 0.
Definition LevelWarn : LogLevel := LogLevel_line 1.
Definition LevelInfo : LogLevel := LogLevel_line 3.
Definition LevelDebug : LogLevel := LogLevel_line 4.

(** The ordinals the const block gives a name to. *)
Definition named_levels : list LogLevel :=
  [LevelError; LevelWarn; LevelInfo; LevelDebug].

Record ErrorEvent : Type := mkErrorEvent {
  msg : string;
  err : option error;
  temporary : bool
}.

Record LogEvent : Type := mkLogEvent {
  source : string;
  level : LogLevel;
  log_msg : string
}.

(** The values that implement the [Event] interface: the two event kinds
    the stages emit and the test double of package mock. *)
Inductive Event : Type :=
| Event_Error (e : ErrorEvent)
| Event_Log (l : LogEvent)
| Event_Mock (eventType : EventType) (message : string).

Definition NewErrorEvent (m : string) (e : option error) (t : bool) : Event :=
  Event_Error (mkErrorEvent m e t).

Definition NewLogEvent (s : string) (l : LogLevel) (m : string) : Event :=
  Event_Log (mkLogEvent s l m).

(** [e.msg + ": " + e.err.Error()]: the method call on a nil interface value
    is a nil dereference. *)
Definition ErrorEvent_String (e : ErrorEvent) : outcome string :=
  match err e with
  | Some cause => Returns (msg e ++ ": " ++ error_Error cause)%string
  | None => Panics
  end.

Definition ErrorEvent_Error (e : ErrorEvent) : outcome string :=
  ErrorEvent_String e.

Definition ErrorEvent_IsTemporary (e : ErrorEvent) : bool := temporary e.

Definition ErrorEvent_Unwrap (e : ErrorEvent) : option error := err e.

Definition LogEvent_String (l : LogEvent) : string :=
  (source l ++ ": " ++ log_msg l)%string.

Definition Event_Type (e : Event) : EventType :=
  match e with
  | Event_Error _ => EventError
  | Event_Log _ => EventLog
  | Event_Mock t _ => t
  end.

Definition Event_String (e : Event) : outcome string :=
  match e with
  | Event_Error ee => ErrorEvent_String ee
  | Event_Log l => Returns (LogEvent_String l)
  | Event_Mock _ m => Returns m
  end.

(** [SendEvent]: the nil check, then a [select] with one send case and a
    [default] branch.  The result carries the event stream after the call. *)
Definition SendEvent (eventC : option (chan Event)) (event : Event)
  : outcome (bool * option (chan Event)) :=
  match eventC with
  | None => Returns (false, None)
  | Some _ => chansend eventC event false
  end.

End pipeline.
Import pipeline.

(** ** Package flow: the goroutine every Transform starts *)

Module flow.

(** What one pass through the body of [for v := range in] does with the
    item it received, up to its first channel operation: forward a value to
    [out], send an event on [eventC] and [continue], drop the item, or
    panic (a call of a nil func value). *)
Inductive effect (O : Type) : Type :=
| Forward (val : O)
| Emit (e : Event)
| Skip
| Crash.
Arguments Emit {O}.
Arguments Skip {O}.
Arguments Crash {O}.

(** Where the goroutine stands. *)
Inductive pc (O : Type) : Type :=
| AtRange                     (* for v := range in *)
| AtSendOut (val : O)         (* out <- val *)
| AtSendEvent (e : Event)     (* eventC <- pipeline.NewErrorEvent(...) *)
| Exited                      (* the loop ended and close(out) ran *)
| Panicked.
Arguments AtRange {O}.
Arguments AtSendEvent {O}.
Arguments Exited {O}.
Arguments Panicked {O}.

(** A started stage: the goroutine with the closure it runs, the three
    channels it holds, and the history of what it has received from [in],
    sent on [out] and sent on [eventC].  The event stream may be nil; [in]
    is a channel (on a nil [in] the goroutine would wait for ever at its
    first receive). *)
Record config (I O : Type) : Type := mkConfig {
  loop : I -> effect O;
  g : pc O;
  cin : chan I;
  cout : chan O;
  eventC : option (chan Event);
  received : list I;
  sent : list O;
  emitted : list Event
}.

Section Goroutine.
Variables I O : Type.

(** [out := make(chan O, n); go func() { defer close(out); for ... }()] *)
Definition spawn (n : nat) (body : I -> effect O) (input : chan I)
           (ev : option (chan Event)) : config I O :=
  mkConfig body AtRange input (make_chan n) ev [] [] [].

(** The goroutine leaves its function: the deferred [close(out)] runs. *)
Definition leave (c : config I O) (p : pc O) : config I O :=
  match close_chan (cout c) with
  | Returns out' =>
      mkConfig (loop c) p (cin c) out' (eventC c)
               (received c) (sent c) (emitted c)
  | _ =>
      mkConfig (loop c) Panicked (cin c) (cout c) (eventC c)
               (received c) (sent c) (emitted c)
  end.

(** One step of the goroutine; [None] when it cannot move (it is parked
    on a channel, or it is gone). *)
Definition go_step (c : config I O) : option (config I O) :=
  match g c with
  | AtRange =>
      match chanrecv (cin c) with
      | Received v in' =>
          let c' := mkConfig (loop c) AtRange in' (cout c) (eventC c)
                             (received c ++ [v]) (sent c) (emitted c) in
          Some match loop c v with
               | Forward val =>
                   mkConfig (loop c) (AtSendOut val) in' (cout c)
                            (eventC c) (received c ++ [v]) (sent c)
                            (emitted c)
               | Emit e =>
                   mkConfig (loop c) (AtSendEvent e) in' (cout c)
                            (eventC c) (received c ++ [v]) (sent c)
                            (emitted c)
               | Skip => c'
               | Crash => leave c' Panicked
               end
      | RecvClosed => Some (leave c Exited)
      | RecvBlocks => None
      end
  | AtSendOut val =>
      match chan_send (cout c) val true with
      | Returns (_, out') =>
          Some (mkConfig (loop c) AtRange (cin c) out' (eventC c)
                         (received c) (sent c ++ [val]) (emitted c))
      | Blocks => None
      | Panics => Some (leave c Panicked)
      end
  | AtSendEvent e =>
      match chansend (eventC c) e true with
      | Returns (_, ev') =>
          Some (mkConfig (loop c) AtRange (cin c) (cout c) ev'
                         (received c) (sent c) (emitted c ++ [e]))
      | Blocks => None
      | Panics => Some (leave c Panicked)
      end
  | Exited => None
  | Panicked => None
  end.

Definition with_cin (c : config I O) (ch : chan I) : config I O :=
  mkConfig (loop c) (g c) ch (cout c) (eventC c)
           (received c) (sent c) (emitted c).

Definition with_cout (c : config I O) (ch : chan O) : config I O :=
  mkConfig (loop c) (g c) (cin c) ch (eventC c)
           (received c) (sent c) (emitted c).

Definition with_eventC (c : config I O) (ev : option (chan Event))
  : config I O :=
  mkConfig (loop c) (g c) (cin c) (cout c) ev
           (received c) (sent c) (emitted c).

(** The goroutine among the others.  The producer holds the sending end
    of [in], the consumer the receiving end of [out]; the event stream is
    shared: observers read it, other stages write to it and its owner
    may close it. *)
Inductive step : config I O -> config I O -> Prop :=
| step_go c c' :
    go_step c = Some c' -> step c c'
| step_producer_send c v :
    step c (with_cin c (env_send (cin c) v))
| step_producer_close c :
    step c (with_cin c (env_close (cin c)))
| step_consumer_recv c :
    step c (with_cout c (env_recv (cout c)))
| step_observer_recv c ch :
    eventC c = Some ch -> step c (with_eventC c (Some (env_recv ch)))
| step_other_send c ch e :
    eventC c = Some ch -> step c (with_eventC c (Some (env_send ch e)))
| step_owner_close c ch :
    eventC c = Some ch -> step c (with_eventC c (Some (env_close ch))).

Inductive reachable (c0 : config I O) : config I O -> Prop :=
| reach_start : reachable c0 c0
| reach_step c c' : reachable c0 c -> step c c' -> reachable c0 c'.

(** What a closure makes of a sequence of items: the values it forwards
    and the events it emits, in order. *)
Fixpoint forwards (body : I -> effect O) (xs : list I) : list O :=
  match xs with
  | [] => []
  | x :: rest =>
      match body x with
      | Forward val => val :: forwards body rest
      | _ => forwards body rest
      end
  end.

Fixpoint emits (body : I -> effect O) (xs : list I) : list Event :=
  match xs with
  | [] => []
  | x :: rest =>
      match body x with
      | Emit e => e :: emits body rest
      | _ => emits body rest
      end
  end.

Definition crashes (body : I -> effect O) (x : I) : bool :=
  match body x with Crash => true | _ => false end.

(** A cooperative environment: whenever the goroutine is parked on [out]
    or on the event stream a reader takes (or waits for) a value, and the
    consumer drains [out] once the goroutine is gone. *)
Definition coop_step (c : config I O) : config I O :=
  match go_step c with
  | Some c' => c'
  | None =>
      match g c with
      | AtSendOut _ => with_cout c (env_recv (cout c))
      | AtSendEvent _ =>
          match eventC c with
          | Some ch => with_eventC c (Some (env_recv ch))
          | None => c
          end
      | Exited =>
          match buf (cout c) with
          | [] => c
          | _ :: _ => with_cout c (env_recv (cout c))
          end
      | _ => c
      end
  end.

Fixpoint run (fuel : nat) (c : config I O) : config I O :=
  match fuel with
  | 0 => c
  | S n => run n (coop_step c)
  end.

(** An input stream holding [xs] that its producer has closed. *)
Definition loaded (xs : list I) : chan I :=
  mkChan (length xs) xs [] 0 true [].

(** The value, or the event, the goroutine holds while it waits to send. *)
Definition in_hand (p : pc O) : list O :=
  match p with AtSendOut val => [val] | _ => [] end.

Definition event_in_hand (p : pc O) : list Event :=
  match p with AtSendEvent e => [e] | _ => [] end.

(** Invariants of a started stage.  The histories are the closure run
    over what was received, less what is still in hand; [out] has no
    sender but the goroutine, keeps the order of what was sent, and is
    closed exactly when the goroutine is gone; the goroutine exits only
    on an input that is closed and empty. *)
Definition history_ok (c : config I O) : Prop :=
  g c <> Panicked ->
  forwards (loop c) (received c) = sent c ++ in_hand (g c) /\
  emits (loop c) (received c) = emitted c ++ event_in_hand (g c).

Definition gone (p : pc O) : bool :=
  match p with Exited | Panicked => true | _ => false end.

Definition out_ok (c : config I O) : Prop :=
  sendq (cout c) = [] /\
  (0 < recvq (cout c) -> buf (cout c) = []) /\
  taken (cout c) ++ buf (cout c) = sent c /\
  closed (cout c) = gone (g c) /\
  length (buf (cout c)) <= cap (cout c).

Definition exhausted (ch : chan I) : Prop :=
  closed ch = true /\ buf ch = [] /\ sendq ch = [].

Definition in_ok (c : config I O) : Prop :=
  g c = Exited -> exhausted (cin c).

(** A goroutine panics only on a crashing body or on a closed event
    stream. *)
Definition panic_ok (c : config I O) : Prop :=
  g c = Panicked ->
  (exists x, In x (received c) /\ crashes (loop c) x = true) \/
  (exists ch, eventC c = Some ch /\ closed ch = true).

Definition invariant (c : config I O) : Prop :=
  history_ok c /\ out_ok c /\ in_ok c.

(** An event stream that can take the goroutine's events: it is there,
    it is open, no other sender is parked on it. *)
Definition ev_ready (ev : option (chan Event)) : Prop :=
  exists ch, ev = Some ch /\ closed ch = false /\ sendq ch = [] /\
             length (buf ch) <= cap ch.

(** A closure that neither emits nor crashes. *)
Definition quiet (body : I -> effect O) : Prop :=
  forall x, match body x with Forward _ | Skip => True | _ => False end.

End Goroutine.

(** *** The five stages *)

Definition PredicateFunc (I : Type) : Type := I -> bool.
Definition MapFunc (I O : Type) : Type := I -> O * option error.

Record Buffer (I : Type) : Type := mkBuffer { Buffer_size : Z }.

Definition NewBuffer (I : Type) (size : Z) : Buffer I :=
  mkBuffer I (if (size <=? 0)%Z then 1%Z else size).

Definition Buffer_body (I : Type) (v : I) : effect I := Forward v.

(** [make] panics on a negative size, in the caller of [Transform]. *)
Definition Buffer_Transform (I : Type) (b : Buffer I) (input : chan I)
           (ev : option (chan Event)) : outcome (config I I) :=
  if (Buffer_size b <? 0)%Z then Panics
  else Returns (spawn (Z.to_nat (Buffer_size b)) (@Buffer_body I) input ev).

Record Passthrough (I : Type) : Type := mkPassthrough { }.

Definition NewPassthrough (I : Type) : Passthrough I := mkPassthrough I.

Definition Passthrough_body (I : Type) (v : I) : effect I := Forward v.

Definition Passthrough_Transform (I : Type) (pt : Passthrough I)
           (input : chan I) (ev : option (chan Event)) : config I I :=
  spawn 0 (@Passthrough_body I) input ev.

Record Filter (I : Type) : Type :=
  mkFilter { Filter_predicate : option (PredicateFunc I) }.

Definition NewFilter (I : Type) (predicate : option (PredicateFunc I))
  : Filter I * option error :=
  match predicate with
  | None => (mkFilter None, Some (errors_New "predicate func is nil"))
  | Some _ => (mkFilter predicate, None)
  end.

Definition Filter_body (I : Type) (f : Filter I) (v : I) : effect I :=
  match Filter_predicate f with
  | None => Crash
  | Some p => if p v then Forward v else Skip
  end.

Definition Filter_Transform (I : Type) (f : Filter I) (input : chan I)
           (ev : option (chan Event)) : config I I :=
  spawn 0 (Filter_body f) input ev.

Record Map (I O : Type) : Type :=
  mkMap { Map_transform : option (MapFunc I O) }.

(** [NewMap] returns a pointer, nil on failure. *)
Definition NewMap (I O : Type) (transform : option (MapFunc I O))
  : option (Map I O) * option error :=
  match transform with
  | None => (None, Some (errors_New "transform func is nil"))
  | Some _ => (Some (mkMap transform), None)
  end.

Definition Map_body (I O : Type) (m : Map I O) (v : I) : effect O :=
  match Map_transform m with
  | None => Crash
  | Some f =>
      match f v with
      | (_, Some e) => Emit (NewErrorEvent "map transform error" (Some e) true)
      | (val, None) => Forward val
      end
  end.

Definition Map_Transform (I O : Type) (m : Map I O) (input : chan I)
           (ev : option (chan Event)) : config I O :=
  spawn 0 (Map_body m) input ev.

Record FilterMap (I O : Type) : Type := mkFilterMap {
  FilterMap_predicate : option (PredicateFunc I);
  FilterMap_transform : option (MapFunc I O)
}.

Definition NewFilterMap (I O : Type) (predicate : option (PredicateFunc I))
           (transform : option (MapFunc I O))
  : FilterMap I O * option error :=
  match predicate with
  | None => (mkFilterMap None None, Some (errors_New "predicate func is nil"))
  | Some _ =>
      match transform with
      | None =>
          (mkFilterMap None None, Some (errors_New "transform func is nil"))
      | Some _ => (mkFilterMap predicate transform, None)
      end
  end.

Definition FilterMap_body (I O : Type) (f : FilterMap I O) (v : I)
  : effect O :=
  match FilterMap_predicate f with
  | None => Crash
  | Some p =>
      if p v then
        match FilterMap_transform f with
        | None => Crash
        | Some t =>
            match t v with
            | (_, Some e) =>
                Emit (NewErrorEvent "filtermap error transforming data"
                                    (Some e) true)
            | (val, None) => Forward val
            end
        end
      else Skip
  end.

Definition FilterMap_Transform (I O : Type) (f : FilterMap I O)
           (input : chan I) (ev : option (chan Event)) : config I O :=
  spawn 0 (FilterMap_body f) input ev.

(** *** Two stages in a row

    [second.Transform(first.Transform(in, eventC), eventC)]: the output
    channel of the first stage is the input channel of the second, and both
    goroutines write to the one event stream. *)

Section Pipe.
Variables I M O : Type.

(** The two goroutines; each config carries its goroutine's view of the
    channels, which agree on the middle channel and on the event stream. *)
Record pipe : Type := mkPipe {
  upstream : config I M;
  downstream : config M O
}.

Definition connected (p : pipe) : Prop :=
  cout (upstream p) = cin (downstream p) /\
  eventC (upstream p) = eventC (downstream p).

Definition pipe_of (first : chan I -> option (chan Event) -> config I M)
           (second : chan M -> option (chan Event) -> config M O)
           (input : chan I) (ev : option (chan Event)) : pipe :=
  mkPipe (first input ev) (second (cout (first input ev)) ev).

(** A step of one goroutine, seen by the other. *)
Definition up_moved (p : pipe) (u' : config I M) : pipe :=
  mkPipe u' (with_eventC (with_cin (downstream p) (cout u')) (eventC u')).

Definition down_moved (p : pipe) (d' : config M O) : pipe :=
  mkPipe (with_eventC (with_cout (upstream p) (cin d')) (eventC d')) d'.

(** The sender parks on the channel with its value. *)
Definition park (ch : chan M) (v : M) : chan M :=
  mkChan (cap ch) (buf ch) (sendq ch ++ [v]) (recvq ch) (closed ch)
         (taken ch).

(** The first goroutine is blocked sending [v] on the middle channel and the
    second arrives at its receive: the sender parks, the receiver takes a
    value and makes the sender runnable again. *)
Definition handoff (p : pipe) (v : M) : option pipe :=
  match go_step (with_cin (downstream p) (park (cout (upstream p)) v)) with
  | Some d' =>
      Some (mkPipe (mkConfig (loop (upstream p)) AtRange (cin (upstream p))
                             (cin d') (eventC d') (received (upstream p))
                             (sent (upstream p) ++ [v])
                             (emitted (upstream p)))
                   d')
  | None => None
  end.

Definition with_stream (p : pipe) (ev : option (chan Event)) : pipe :=
  mkPipe (with_eventC (upstream p) ev) (with_eventC (downstream p) ev).

Inductive pstep : pipe -> pipe -> Prop :=
| pstep_up p u' :
    go_step (upstream p) = Some u' -> pstep p (up_moved p u')
| pstep_down p d' :
    go_step (downstream p) = Some d' -> pstep p (down_moved p d')
| pstep_handoff p v p' :
    g (upstream p) = AtSendOut v -> g (downstream p) = AtRange ->
    chan_send (cout (upstream p)) v true = Blocks ->
    handoff p v = Some p' -> pstep p p'
| pstep_producer_send p v :
    pstep p (mkPipe (with_cin (upstream p) (env_send (cin (upstream p)) v))
                    (downstream p))
| pstep_producer_close p :
    pstep p (mkPipe (with_cin (upstream p) (env_close (cin (upstream p))))
                    (downstream p))
| pstep_consumer_recv p :
    pstep p (mkPipe (upstream p)
                    (with_cout (downstream p)
                               (env_recv (cout (downstream p)))))
| pstep_observer_recv p ch :
    eventC (downstream p) = Some ch ->
    pstep p (with_stream p (Some (env_recv ch)))
| pstep_other_send p ch e :
    eventC (downstream p) = Some ch ->
    pstep p (with_stream p (Some (env_send ch e)))
| pstep_owner_close p ch :
    eventC (downstream p) = Some ch ->
    pstep p (with_stream p (Some (env_close ch))).

Inductive preachable (p0 : pipe) : pipe -> Prop :=
| preach_start : preachable p0 p0
| preach_step p p' : preachable p0 p -> pstep p p' -> preachable p0 p'.

(** A cooperative schedule: the second goroutine runs while it can, readers
    serve it when it is parked on [out] or on the event stream, and the
    first goroutine runs while the second waits for it. *)
Definition pcoop_step (p : pipe) : pipe :=
  match go_step (downstream p) with
  | Some d' => down_moved p d'
  | None =>
      match g (downstream p) with
      | AtSendOut _ =>
          mkPipe (upstream p)
                 (with_cout (downstream p) (env_recv (cout (downstream p))))
      | AtSendEvent _ =>
          match eventC (downstream p) with
          | Some ch => with_stream p (Some (env_recv ch))
          | None => p
          end
      | Exited =>
          match buf (cout (downstream p)) with
          | [] => p
          | _ :: _ =>
              mkPipe (upstream p)
                     (with_cout (downstream p)
                                (env_recv (cout (downstream p))))
          end
      | Panicked => p
      | AtRange =>
          match go_step (upstream p) with
          | Some u' => up_moved p u'
          | None =>
              match g (upstream p) with
              | AtSendOut v =>
                  match handoff p v with Some p' => p' | None => p end
              | AtSendEvent _ =>
                  match eventC (downstream p) with
                  | Some ch => with_stream p (Some (env_recv ch))
                  | None => p
                  end
              | _ => p
              end
          end
      end
  end.

Fixpoint prun (fuel : nat) (p : pipe) : pipe :=
  match fuel with
  | 0 => p
  | S n => prun n (pcoop_step p)
  end.

(** What holds of the middle channel: no goroutine outside the pipe waits
    on it, and what has left it is what the second goroutine received. *)
Definition middle_ok (p : pipe) : Prop :=
  connected p /\
  recvq (cout (upstream p)) = 0 /\
  sendq (cout (upstream p)) = [] /\
  taken (cout (upstream p)) = received (downstream p).

(** Each goroutine, with the channels as it sees them, is in a state its
    stage can reach on its own from [u0], respectively [d0]; the middle
    channel is in order. *)
Definition pipe_inv (u0 : config I M) (d0 : config M O) (p : pipe) : Prop :=
  middle_ok p /\ reachable u0 (upstream p) /\ reachable d0 (downstream p).

End Pipe.

End flow.
Import flow.

(** ** Package sink: the Logger *)

Module sink.

(** What [Logger.Load] does with one item. *)
Inductive Logger_effect : Type :=
| Println (line : string)
| SendsEvent (e : Event).

Section Logger.
Variable I : Type.
(** [json.MarshalIndent(data, "", "\t")] and [fmt.Sprintf("%+v", data)]. *)
Variable MarshalIndent : I -> string * option error.
Variable Sprintf : I -> string.

(** The body of the loop of [Load].  The fallback rendering is
    overwritten by the assignment that follows it, as in the source. *)
Definition Logger_item (data : I) : Logger_effect :=
  let (formattedB, e) := MarshalIndent data in
  let formattedStr := match e with Some _ => Sprintf data | None => EmptyString end in
  let formattedStr := formattedB in
  if String.length formattedStr =? 0 then
    SendsEvent (NewErrorEvent "formatted data is empty" None true)
  else Println formattedStr.
End Logger.

End sink.
Import sink.

(** ** Package pipeline: the event collector *)

Module collector.

Section EventCollector.
(** The type of callback funcs; their bodies are not looked at. *)
Variable EventCallback : Type.

Record TypedEventCallback : Type := mkTyped {
  eventType : EventType;
  callback : EventCallback
}.

(** The collector's fields; [eventChan] is a reference to a channel of
    the heap (nil before the first [Collect]) and [wg] is the WaitGroup's
    counter. *)
Record EventCollector : Type := mkCollector {
  bufferSize : Z;
  workers : Z;
  callbacks : list EventCallback;
  typedCallbacks : list TypedEventCallback;
  wg : Z;
  eventChan : option nat;
  isOpen : bool
}.

Definition EventCollectorOption : Type := EventCollector -> EventCollector.

Definition WithWorkers (n : Z) : EventCollectorOption :=
  fun c =>
    if (0 <? n)%Z then
      mkCollector (bufferSize c) n (callbacks c) (typedCallbacks c)
                  (wg c) (eventChan c) (isOpen c)
    else c.

Definition WithBufferSize (size : Z) : EventCollectorOption :=
  fun c =>
    if (0 <? size)%Z then
      mkCollector size (workers c) (callbacks c) (typedCallbacks c)
                  (wg c) (eventChan c) (isOpen c)
    else c.

Definition WithCallback (cb : option EventCallback) : EventCollectorOption :=
  fun c =>
    match cb with
    | Some f =>
        mkCollector (bufferSize c) (workers c) (callbacks c ++ [f])
                    (typedCallbacks c) (wg c) (eventChan c) (isOpen c)
    | None => c
    end.

Definition WithTypedCallback (t : EventType) (cb : option EventCallback)
  : EventCollectorOption :=
  fun c =>
    match cb with
    | Some f =>
        mkCollector (bufferSize c) (workers c) (callbacks c)
                    (typedCallbacks c ++ [mkTyped t f])
                    (wg c) (eventChan c) (isOpen c)
    | None => c
    end.

(** The options the package provides. *)
Inductive provided : EventCollectorOption -> Prop :=
| provided_WithWorkers n : provided (WithWorkers n)
| provided_WithBufferSize size : provided (WithBufferSize size)
| provided_WithCallback cb : provided (WithCallback cb)
| provided_WithTypedCallback t cb : provided (WithTypedCallback t cb).

Definition NewEventCollector (opts : list EventCollectorOption)
  : EventCollector :=
  fold_left (fun c opt => opt c) opts
            (mkCollector 100 1 [] [] 0 None false).

(** The channels allocated so far, and the collector. *)
Record world : Type := mkWorld {
  heap : list (chan Event);
  this : EventCollector
}.

Fixpoint store (A : Type) (l : list A) (i : nat) (x : A) : list A :=
  match l, i with
  | [], _ => []
  | _ :: rest, 0 => x :: rest
  | y :: rest, S j => y :: store rest j x
  end.

(** [Collect]: the open collector hands out the channel it has; the
    other allocates one, marks itself open and starts the workers. *)
Definition Collect (w : world) : world * option nat :=
  let c := this w in
  if isOpen c then (w, eventChan c)
  else
    let ref := length (heap w) in
    (mkWorld (heap w ++ [make_chan (Z.to_nat (bufferSize c))])
             (mkCollector (bufferSize c) (workers c) (callbacks c)
                          (typedCallbacks c)
                          (wg c + Z.max 0 (workers c))
                          (Some ref) true),
     Some ref).

(** The workers range over the closed channel until it is empty. *)
Definition drained (ch : chan Event) : chan Event :=
  mkChan (cap ch) [] (sendq ch) (recvq ch) (closed ch)
         (taken ch ++ buf ch).

(** [Close]: nothing on a collector that is not open; otherwise the flag
    is cleared, the channel is closed and [wg.Wait()] returns once every
    worker has left its loop. *)
Definition Close (w : world) : outcome world :=
  let c := this w in
  if negb (isOpen c) then Returns w
  else
    match eventChan c with
    | None => Panics
    | Some ref =>
        match nth_error (heap w) ref with
        | None => Panics
        | Some ch =>
            match close_chan ch with
            | Returns ch' =>
                Returns
                  (mkWorld
                     (store (heap w) ref
                            (if (0 <? wg c)%Z then drained ch' else ch'))
                     (mkCollector (bufferSize c) (workers c) (callbacks c)
                                  (typedCallbacks c) 0 (eventChan c) false))
            | _ => Panics
            end
        end
    end.

(** A caller of the collector's two methods, the stages that write to a
    channel they were handed and the workers that read it. *)
Inductive wstep : world -> world -> Prop :=
| wstep_Collect w : wstep w (fst (Collect w))
| wstep_Close w w' : Close w = Returns w' -> wstep w w'
| wstep_send w ref ch e :
    nth_error (heap w) ref = Some ch ->
    wstep w (mkWorld (store (heap w) ref (env_send ch e)) (this w))
| wstep_worker w ref ch :
    nth_error (heap w) ref = Some ch ->
    wstep w (mkWorld (store (heap w) ref (env_recv ch)) (this w)).

Inductive wreachable (w0 : world) : world -> Prop :=
| wreach_start : wreachable w0 w0
| wreach_step w w' : wreachable w0 w -> wstep w w' -> wreachable w0 w'.

(** The event streams of the heap that are not closed. *)
Definition live (w : world) : list (chan Event) :=
  filter (fun ch => negb (closed ch)) (heap w).

(** The flag and the reference agree with the heap: an open collector
    refers to an open channel and every other channel is closed; every
    channel of a collector that is not open is closed. *)
Definition consistent (w : world) : Prop :=
  if isOpen (this w) then
    exists ref ch,
      eventChan (this w) = Some ref /\
      nth_error (heap w) ref = Some ch /\ closed ch = false /\
      forall i ch', nth_error (heap w) i = Some ch' ->
                    closed ch' = false -> i = ref
  else
    forall i ch', nth_error (heap w) i = Some ch' -> closed ch' = true.

End EventCollector.

End collector.
Import collector.

(** ** Statements about the non-blocking send *)

Module statements.

(** The stream has no free capacity and no receiver is waiting on it. *)
Definition no_room (ch : chan Event) : bool :=
  (recvq ch =? 0) && (cap ch <=? length (buf ch)).

(** The event went to a waiting receiver, or to the end of the buffer. *)
Definition delivered (ch : chan Event) (e : Event) (ch' : chan Event) : Prop :=
  (0 < recvq ch /\ taken ch' = taken ch ++ [e] /\
   recvq ch' = recvq ch - 1 /\ buf ch' = buf ch) \/
  (recvq ch = 0 /\ buf ch' = buf ch ++ [e] /\ taken ch' = taken ch).

(** [SendEvent] returns false on a nil handle, false on a stream without
    room, and true, the event delivered, in every other case. *)
Definition SendEvent_as_claimed (eventC : option (chan Event)) (e : Event)
  : Prop :=
  match eventC with
  | None => SendEvent eventC e = Returns (false, None)
  | Some ch =>
      if no_room ch then SendEvent eventC e = Returns (false, Some ch)
      else exists ch', SendEvent eventC e = Returns (true, Some ch') /\
                       delivered ch e ch'
  end.

(** ** Statements about Map and FilterMap *)

(** [f] returns a non-nil error on [x]. *)
Definition fails (I O : Type) (f : MapFunc I O) (x : I) : bool :=
  match snd (f x) with Some _ => true | None => false end.

(** The [f]-images of the items on which [f] does not fail, in order. *)
Definition images (I O : Type) (f : MapFunc I O) (xs : list I) : list O :=
  map (fun x => fst (f x)) (filter (fun x => negb (fails f x)) xs).

(** One temporary ErrorEvent with message [m] per item on which [f] fails,
    its cause the error [f] returned, in order. *)
Definition failures (I O : Type) (m : string) (f : MapFunc I O)
           (xs : list I) : list Event :=
  map (fun x => NewErrorEvent m (snd (f x)) true) (filter (fails f) xs).

(** ** Statements about event emission *)

(** Whenever the goroutine of the started stage [c0] has an event to
    report, it can take its next step, whatever the event stream. *)
Definition emission_never_blocks (I O : Type) (c0 : config I O) : Prop :=
  forall (c : config I O) (e : Event),
    reachable c0 c -> g c = AtSendEvent e -> go_step c <> None.

(** The event with its message replaced, when it is an ErrorEvent. *)
Definition reword (m : string) (e : Event) : Event :=
  match e with
  | Event_Error ee => Event_Error (mkErrorEvent m (err ee) (temporary ee))
  | _ => e
  end.

(** A transform of the tests' kind, that fails on one item. *)
Definition fail_on (bad : nat) : MapFunc nat nat :=
  fun n => if n =? bad then (0, Some (errors_New "bad item")) else (n, None).

End statements.
Import statements.

(** ** The goroutine without its environment *)

Module alone.

Section Alone.
Variables I O : Type.

(** The goroutine runs until it parks or is gone; nobody reads [out] or
    the event stream meanwhile. *)
Fixpoint go_run (fuel : nat) (c : config I O) : config I O :=
  match fuel with
  | 0 => c
  | S n =>
      match go_step c with
      | Some c' => go_run n c'
      | None => c
      end
  end.

End Alone.

End alone.
Import alone.

(** ** Package pipeline: what a worker of the collector does with an event *)

Module workers.

Section ProcessEvent.
Variable EventCallback : Type.

(** [processEvent]: the two loops, with the calls they make recorded in
    order; every call is a call on [event]. *)
Definition processEvent (c : EventCollector EventCallback) (event : Event)
  : list EventCallback :=
  let calls :=
    fold_left (fun calls callback => calls ++ [callback]) (callbacks c) [] in
  let eventType := Event_Type event in
  fold_left (fun calls typed =>
               if (collector.eventType typed =? eventType)%Z
               then calls ++ [callback typed]
               else calls)
            (typedCallbacks c) calls.

End ProcessEvent.

End workers.
Import workers.

(** ** Package sink: the loops of [Load] *)

Module loads.

(** Where the goroutine that runs a [Load] stands. *)
Inductive sink_pc : Type :=
| SinkAtRange                   (* for data := range in *)
| SinkAtSendEvent (e : Event)   (* eventC <- pipeline.NewErrorEvent(...) *)
| SinkReturned                  (* the loop ended *)
| SinkPanicked.

Section Load.
(** The items, and the calls a sink makes to the outside (a line printed,
    a message published). *)
Variables I A : Type.

(** A running sink.  [pass calls data] is what one pass through the body
    of the loop does with [data] after the calls [calls] have been made: the
    calls it makes, and the event it then sends, if any.  The history holds
    what was received from [in], the calls made and the events sent. *)
Record sink_config : Type := mkSink {
  pass : list A -> I -> list A * option Event;
  at_pc : sink_pc;
  sink_in : chan I;
  sink_eventC : option (chan Event);
  consumed : list I;
  calls : list A;
  reported : list Event
}.

Definition start (body : list A -> I -> list A * option Event)
           (input : chan I) (ev : option (chan Event)) : sink_config :=
  mkSink body SinkAtRange input ev [] [] [].

(** One step of the goroutine; [None] when it is parked or gone.  No
    [Load] closes a channel. *)
Definition sink_step (c : sink_config) : option sink_config :=
  match at_pc c with
  | SinkAtRange =>
      match chanrecv (sink_in c) with
      | Received data in' =>
          let (made, report) := pass c (calls c) data in
          Some (mkSink (pass c)
                       match report with
                       | Some e => SinkAtSendEvent e
                       | None => SinkAtRange
                       end
                       in' (sink_eventC c) (consumed c ++ [data])
                       (calls c ++ made) (reported c))
      | RecvClosed =>
          Some (mkSink (pass c) SinkReturned (sink_in c) (sink_eventC c)
                       (consumed c) (calls c) (reported c))
      | RecvBlocks => None
      end
  | SinkAtSendEvent e =>
      match chansend (sink_eventC c) e true with
      | Returns (_, ev') =>
          Some (mkSink (pass c) SinkAtRange (sink_in c) ev' (consumed c)
                       (calls c) (reported c ++ [e]))
      | Blocks => None
      | Panics =>
          Some (mkSink (pass c) SinkPanicked (sink_in c) (sink_eventC c)
                       (consumed c) (calls c) (reported c))
      end
  | SinkReturned => None
  | SinkPanicked => None
  end.

Definition sink_with_in (c : sink_config) (ch : chan I) : sink_config :=
  mkSink (pass c) (at_pc c) ch (sink_eventC c) (consumed c) (calls c)
         (reported c).

Definition sink_with_eventC (c : sink_config) (ev : option (chan Event))
  : sink_config :=
  mkSink (pass c) (at_pc c) (sink_in c) ev (consumed c) (calls c)
         (reported c).

(** The sink among the others: the producer of [in], and the readers,
    the other writers and the owner of the event stream. *)
Inductive sink_move : sink_config -> sink_config -> Prop :=
| sink_go c c' :
    sink_step c = Some c' -> sink_move c c'
| sink_producer_send c v :
    sink_move c (sink_with_in c (env_send (sink_in c) v))
| sink_producer_close c :
    sink_move c (sink_with_in c (env_close (sink_in c)))
| sink_observer_recv c ch :
    sink_eventC c = Some ch ->
    sink_move c (sink_with_eventC c (Some (env_recv ch)))
| sink_other_send c ch e :
    sink_eventC c = Some ch ->
    sink_move c (sink_with_eventC c (Some (env_send ch e)))
| sink_owner_close c ch :
    sink_eventC c = Some ch ->
    sink_move c (sink_with_eventC c (Some (env_close ch))).

Inductive sink_reachable (c0 : sink_config) : sink_config -> Prop :=
| sink_reach_start : sink_reachable c0 c0
| sink_reach_step c c' :
    sink_reachable c0 c -> sink_move c c' -> sink_reachable c0 c'.

(** A cooperative environment: a reader serves the event stream whenever
    the sink is parked on it. *)
Definition sink_coop_step (c : sink_config) : sink_config :=
  match sink_step c with
  | Some c' => c'
  | None =>
      match at_pc c, sink_eventC c with
      | SinkAtSendEvent _, Some ch => sink_with_eventC c (Some (env_recv ch))
      | _, _ => c
      end
  end.

Fixpoint sink_run (fuel : nat) (c : sink_config) : sink_config :=
  match fuel with
  | 0 => c
  | S n => sink_run n (sink_coop_step c)
  end.

(** The body run over a sequence of items, one pass after the other: the
    calls made and the events to send. *)
Fixpoint passes (body : list A -> I -> list A * option Event)
         (made : list A) (xs : list I) : list A * list Event :=
  match xs with
  | [] => (made, [])
  | x :: rest =>
      let (more, report) := body made x in
      let (all, events) := passes body (made ++ more) rest in
      (all, match report with Some e => e :: events | None => events end)
  end.

Definition sink_event_in_hand (p : sink_pc) : list Event :=
  match p with SinkAtSendEvent e => [e] | _ => [] end.

End Load.

(** *** Logger *)

Section LoggerLoad.
Variable I : Type.
Variable MarshalIndent : I -> string * option error.
Variable Sprintf : I -> string.

(** The body of [Logger.Load]; its one call to the outside is
    [l.logger.Println]. *)
Definition Logger_pass (made : list string) (data : I)
  : list string * option Event :=
  match Logger_item MarshalIndent Sprintf data with
  | Println line => ([line], None)
  | SendsEvent e => ([], Some e)
  end.

(** [Load] runs in the goroutine of its caller. *)
Definition Logger_Load (input : chan I) (ev : option (chan Event))
  : sink_config I string :=
  start Logger_pass input ev.

End LoggerLoad.

(** *** Noop *)

(** [for range in { }]: no call and no event; the event stream is not
    even named. *)
Definition Noop_pass (I : Type) (made : list unit) (data : I)
  : list unit * option Event :=
  ([], None).

Definition Noop_Load (I : Type) (input : chan I) (ev : option (chan Event))
  : sink_config I unit :=
  start (@Noop_pass I) input ev.

(** *** NatsStream *)

(** A message as the sink uses it: the result of [Data().Read()], and
    whether the value [Raw()] returns has an [Ack] method. *)
Record DataRawReadable : Type := mkDataRawReadable {
  Data_Read : string * option error;
  Raw_ackable : bool
}.

(** The calls the sink makes to the broker. *)
Inductive broker_call : Type :=
| Publish (subject payload : string)
| Ack (message : DataRawReadable).

Section NatsStreamSink.
(** The JetStream handles. *)
Variable JetStream : Type.
(** The broker's answers, [nil] or an error, to [js.Publish] and to [Ack],
    given the calls made before. *)
Variable js_Publish :
  JetStream -> list broker_call -> string -> string -> option error.
Variable Raw_Ack : list broker_call -> DataRawReadable -> option error.

Record NatsStream : Type := mkNatsStream {
  js : option JetStream;
  subject : string
}.

Definition NewNatsStream (j : option JetStream) (subj : string)
  : NatsStream * option error :=
  match j with
  | None =>
      (mkNatsStream None EmptyString,
       Some (errors_New "nats stream sink: sink error: nats connection is nil"))
  | Some _ =>
      if String.eqb subj EmptyString then
        (mkNatsStream None EmptyString,
         Some (errors_New "nats stream sink: sink error: subject is empty"))
      else (mkNatsStream j subj, None)
  end.

(** The body of the loop of [Load], for a sink whose handle is [j]. *)
Definition NatsStream_pass (j : JetStream) (subj : string)
           (made : list broker_call) (drr : DataRawReadable)
  : list broker_call * option Event :=
  match Data_Read drr with
  | (_, Some e) => ([], Some (NewErrorEvent "failed to read data" (Some e) true))
  | (p, None) =>
      match js_Publish j made subj p with
      | Some e =>
          ([Publish subj p],
           Some (NewErrorEvent "failed to publish message to nats" (Some e)
                               true))
      | None =>
          if Raw_ackable drr then
            match Raw_Ack (made ++ [Publish subj p]) drr with
            | Some e =>
                ([Publish subj p; Ack drr],
                 Some (NewErrorEvent "failed to ack message" (Some e) true))
            | None => ([Publish subj p; Ack drr], None)
            end
          else ([Publish subj p], None)
      end
  end.

(** [Load] starts the goroutine and returns.  The goroutine of a sink
    without a handle, the zero value a failed [NewNatsStream] returns, calls
    a method of a nil interface at its first message; that sink is given no
    run here. *)
Definition NatsStream_Load (b : NatsStream) (input : chan DataRawReadable)
           (ev : option (chan Event))
  : option (sink_config DataRawReadable broker_call) :=
  match js b with
  | Some j => Some (start (NatsStream_pass j (subject b)) input ev)
  | None => None
  end.

(** The call log is in order with respect to the messages [seen]: an
    [Ack] directly follows the [Publish] of the same message's data, which
    the broker accepted, and every [Publish] is on the subject [subj] and
    carries the data of a message that was read without error. *)
Definition in_order (j : JetStream) (subj : string)
           (seen : list DataRawReadable) (log : list broker_call) : Prop :=
  (forall i msg,
      nth_error log i = Some (Ack msg) ->
      exists p, 0 < i /\ nth_error log (i - 1) = Some (Publish subj p) /\
                Data_Read msg = (p, None) /\
                js_Publish j (firstn (i - 1) log) subj p = None /\
                In msg seen /\ Raw_ackable msg = true) /\
  (forall i s p,
      nth_error log i = Some (Publish s p) ->
      s = subj /\ exists msg, In msg seen /\ Data_Read msg = (p, None)).

End NatsStreamSink.

End loads.
Import loads.

(** ** Package mock: the source of the tests *)

Module mocksource.

(** [ReadableImpl]: a value with its bytes; [Read] never fails. *)
Record ReadableImpl : Type := NewReadableImpl { data : string }.

Definition ReadableImpl_Read (m : ReadableImpl) : string * option error :=
  (data m, None).

(** Where the goroutine of [SourceImpl.Extract] stands; [rest] holds the
    items of [s.data] the loop has not visited yet. *)
Inductive source_pc : Type :=
| SrcAtLoop (rest : list ReadableImpl)
    (* for _, d := range s.data *)
| SrcAtSelect (d : ReadableImpl) (source : string) (rest : list ReadableImpl)
    (* select { case <-ctx.Done(): ... case out <- d: ... } *)
| SrcAtEvent (e : Event) (rest : list ReadableImpl)
    (* pipeline.SendEvent(eventC, ...) *)
| SrcReturned
| SrcPanicked.

Record source_config : Type := mkSource {
  src_pc : source_pc;
  src_out : chan ReadableImpl;
  src_eventC : option (chan Event);
  ctx_done : bool;                 (* the context has been cancelled *)
  src_sent : list ReadableImpl;    (* sent on [out] *)
  src_reports : list (Event * bool)
    (* the calls of [SendEvent] and what each returned *)
}.

Record SourceImpl : Type := NewSourceImpl { src_data : list ReadableImpl }.

(** [out := make(chan ReadableImpl); go func() { ... }(); return out] *)
Definition SourceImpl_Extract (s : SourceImpl) (done : bool)
           (ev : option (chan Event)) : source_config :=
  mkSource (SrcAtLoop (src_data s)) (make_chan 0) ev done [] [].

(** The goroutine leaves its function: the deferred [close(out)] runs. *)
Definition src_leave (c : source_config) (p : source_pc) : source_config :=
  match close_chan (src_out c) with
  | Returns out' =>
      mkSource p out' (src_eventC c) (ctx_done c) (src_sent c)
               (src_reports c)
  | _ =>
      mkSource SrcPanicked (src_out c) (src_eventC c) (ctx_done c)
               (src_sent c) (src_reports c)
  end.

(** The steps the goroutine can take; a [select] with two ready cases can
    take either, and one with no ready case none. *)
Definition source_steps (c : source_config) : list source_config :=
  match src_pc c with
  | SrcAtLoop [] => [src_leave c SrcReturned]
  | SrcAtLoop (d :: rest) =>
      match ReadableImpl_Read d with
      | (_, Some e) =>
          [mkSource (SrcAtEvent (NewErrorEvent "mockSource error reading data"
                                               (Some e) true) rest)
                    (src_out c) (src_eventC c) (ctx_done c) (src_sent c)
                    (src_reports c)]
      | (source, None) =>
          [mkSource (SrcAtSelect d source rest)
                    (src_out c) (src_eventC c) (ctx_done c) (src_sent c)
                    (src_reports c)]
      end
  | SrcAtSelect d source rest =>
      (if ctx_done c then [src_leave c SrcReturned] else [])
      ++ match chan_send (src_out c) d true with
         | Returns (_, out') =>
             [mkSource (SrcAtEvent
                          (NewLogEvent "mockSource" LevelInfo
                                       ("Extracted item: " ++ source)) rest)
                       out' (src_eventC c) (ctx_done c) (src_sent c ++ [d])
                       (src_reports c)]
         | Blocks => []
         | Panics => [src_leave c SrcPanicked]
         end
  | SrcAtEvent e rest =>
      match SendEvent (src_eventC c) e with
      | Returns (ok, ev') =>
          [mkSource (SrcAtLoop rest) (src_out c) ev' (ctx_done c)
                    (src_sent c) (src_reports c ++ [(e, ok)])]
      | Blocks => []
      | Panics => [src_leave c SrcPanicked]
      end
  | SrcReturned => []
  | SrcPanicked => []
  end.

Definition src_with_out (c : source_config) (ch : chan ReadableImpl)
  : source_config :=
  mkSource (src_pc c) ch (src_eventC c) (ctx_done c) (src_sent c)
           (src_reports c).

Definition src_with_eventC (c : source_config) (ev : option (chan Event))
  : source_config :=
  mkSource (src_pc c) (src_out c) ev (ctx_done c) (src_sent c)
           (src_reports c).

(** The goroutine among the others: the consumer of [out], whoever
    cancels the context, and the users of the event stream. *)
Inductive source_move : source_config -> source_config -> Prop :=
| source_go c c' :
    In c' (source_steps c) -> source_move c c'
| source_consumer_recv c :
    source_move c (src_with_out c (env_recv (src_out c)))
| source_cancel c :
    source_move c (mkSource (src_pc c) (src_out c) (src_eventC c) true
                            (src_sent c) (src_reports c))
| source_observer_recv c ch :
    src_eventC c = Some ch ->
    source_move c (src_with_eventC c (Some (env_recv ch)))
| source_other_send c ch e :
    src_eventC c = Some ch ->
    source_move c (src_with_eventC c (Some (env_send ch e)))
| source_owner_close c ch :
    src_eventC c = Some ch ->
    source_move c (src_with_eventC c (Some (env_close ch))).

Inductive source_reachable (c0 : source_config) : source_config -> Prop :=
| source_reach_start : source_reachable c0 c0
| source_reach_step c c' :
    source_reachable c0 c -> source_move c c' -> source_reachable c0 c'.

(** A cooperative consumer and nobody who cancels: the goroutine takes its
    first enabled step, and the consumer receives when it is parked. *)
Definition source_coop_step (c : source_config) : source_config :=
  match source_steps c with
  | c' :: _ => c'
  | [] =>
      match src_pc c with
      | SrcAtSelect _ _ _ => src_with_out c (env_recv (src_out c))
      | _ => c
      end
  end.

Fixpoint source_run (fuel : nat) (c : source_config) : source_config :=
  match fuel with
  | 0 => c
  | S n => source_run n (source_coop_step c)
  end.

(** The items the goroutine still holds or has to visit. *)
Definition src_to_do (p : source_pc) : list ReadableImpl :=
  match p with
  | SrcAtLoop rest => rest
  | SrcAtSelect d _ rest => d :: rest
  | SrcAtEvent _ rest => rest
  | _ => []
  end.

Definition src_event_in_hand (p : source_pc) : list Event :=
  match p with SrcAtEvent e _ => [e] | _ => [] end.

Definition src_gone (p : source_pc) : bool :=
  match p with SrcReturned | SrcPanicked => true | _ => false end.

(** The event that reports the extraction of [d]. *)
Definition extracted (d : ReadableImpl) : Event :=
  NewLogEvent "mockSource" LevelInfo ("Extracted item: " ++ data d).

End mocksource.
Import mocksource.

(** ** Package source: the broker stream *)

Module brokersource.

Section BrokerStream.
(** The JetStream handles, the consumer configurations and the messages
    of the broker, with the bytes a message carries. *)
Variables JetStream ConsumerConfig Message : Type.
Variable Msg_Data : Message -> string.
(** The zero value of the configuration struct. *)
Variable zero_ConsumerConfig : ConsumerConfig.

(** The broker's answers: to [js.CreateOrUpdateConsumer], to the [n]-th
    call of [consumer.Messages] and to the [n]-th call of [msgs.Next]. *)
Variable js_CreateOrUpdateConsumer :
  JetStream -> string -> ConsumerConfig -> option error.
Variable consumer_Messages : nat -> option error.
Variable msgs_Next : nat -> option Message * option error.

Record BrokerStream : Type := mkBrokerStream {
  js : option JetStream;
  conf : ConsumerConfig;
  stream : string
}.

Definition NewBrokerStream (j : option JetStream) (name : string)
           (cf : ConsumerConfig) : BrokerStream * option error :=
  match j with
  | None =>
      (mkBrokerStream None zero_ConsumerConfig EmptyString,
       Some (errors_New
               "broker stream source: nats connection is nil source error"))
  | Some _ =>
      if String.eqb name EmptyString then
        (mkBrokerStream None zero_ConsumerConfig EmptyString,
         Some (errors_New
                 "broker stream source: stream name is empty source error"))
      else (mkBrokerStream j cf name, None)
  end.

(** [JSMsg] embeds the message interface, which may be nil. *)
Record JSMsg : Type := mkJSMsg { Msg : option Message }.

Definition NewJSMsg (jsMsg : option Message) : JSMsg * option error :=
  match jsMsg with
  | None => (mkJSMsg None, None)
  | Some _ => (mkJSMsg jsMsg, None)
  end.


(** Where the goroutine goes after a report: [return], the [continue] of
    the outer loop, the [continue] of the inner loop. *)
Inductive broker_next : Type := ThenReturn | ThenSelect | ThenNext.

Inductive broker_pc : Type :=
| BAtCreate                     (* b.js.CreateOrUpdateConsumer(...) *)
| BAtSelect                     (* select { case <-ctx.Done(): ... default: *)
| BAtNext                       (* msg, err := msgs.Next() *)
| BAtSendOut (v : JSMsg)        (* out <- jsMsg *)
| BAtSendEvent (e : Event) (k : broker_next)   (* eventC <- ... *)
| BReturned
| BPanicked.

Record broker_config : Type := mkBroker {
  self : BrokerStream;
  b_pc : broker_pc;
  b_out : chan JSMsg;
  b_eventC : option (chan Event);
  b_ctx_done : bool;
  n_Messages : nat;     (* calls of [consumer.Messages] so far *)
  n_Next : nat;         (* calls of [msgs.Next] so far *)
  b_sent : list JSMsg;
  b_emitted : list Event
}.

Definition BrokerStream_Extract (b : BrokerStream) (done : bool)
           (ev : option (chan Event)) : broker_config :=
  mkBroker b BAtCreate (make_chan 0) ev done 0 0 [] [].

Definition b_at (c : broker_config) (p : broker_pc) : broker_config :=
  mkBroker (self c) p (b_out c) (b_eventC c) (b_ctx_done c)
           (n_Messages c) (n_Next c) (b_sent c) (b_emitted c).

(** The goroutine leaves its function: the deferred [close(out)] runs. *)
Definition b_leave (c : broker_config) (p : broker_pc) : broker_config :=
  match close_chan (b_out c) with
  | Returns out' =>
      mkBroker (self c) p out' (b_eventC c) (b_ctx_done c)
               (n_Messages c) (n_Next c) (b_sent c) (b_emitted c)
  | _ => b_at c BPanicked
  end.

Definition broker_step (c : broker_config) : option broker_config :=
  match b_pc c with
  | BAtCreate =>
      match js (self c) with
      | Some j =>
          match js_CreateOrUpdateConsumer j (stream (self c))
                                          (conf (self c)) with
          | Some e =>
              Some (b_at c (BAtSendEvent
                              (NewErrorEvent
                                 "failed to create or update consumer"
                                 (Some e) false)
                              ThenReturn))
          | None => Some (b_at c BAtSelect)
          end
      | None => Some (b_leave c BPanicked)   (* a call on a nil interface *)
      end
  | BAtSelect =>
      if b_ctx_done c then Some (b_leave c BReturned)
      else
        let c' := mkBroker (self c) BAtNext (b_out c) (b_eventC c)
                           (b_ctx_done c) (S (n_Messages c)) (n_Next c)
                           (b_sent c) (b_emitted c) in
        match consumer_Messages (n_Messages c) with
        | Some e =>
            Some (b_at c' (BAtSendEvent
                             (NewErrorEvent "failed to get messages from nats"
                                            (Some e) true)
                             ThenSelect))
        | None => Some c'
        end
  | BAtNext =>
      let c' := mkBroker (self c) BAtNext (b_out c) (b_eventC c)
                         (b_ctx_done c) (n_Messages c) (S (n_Next c))
                         (b_sent c) (b_emitted c) in
      match msgs_Next (n_Next c) with
      | (_, Some e) =>
          Some (b_at c' (BAtSendEvent
                           (NewErrorEvent
                              "failed to get next message from nats"
                              (Some e) true)
                           ThenNext))
      | (msg, None) =>
          match NewJSMsg msg with
          | (_, Some e) =>
              Some (b_at c' (BAtSendEvent
                               (NewErrorEvent
                                  "failed to create JSMsg from message"
                                  (Some e) true)
                               ThenNext))
          | (jsMsg, None) => Some (b_at c' (BAtSendOut jsMsg))
          end
      end
  | BAtSendOut v =>
      match chan_send (b_out c) v true with
      | Returns (_, out') =>
          Some (mkBroker (self c) BAtNext out' (b_eventC c) (b_ctx_done c)
                         (n_Messages c) (n_Next c) (b_sent c ++ [v])
                         (b_emitted c))
      | Blocks => None
      | Panics => Some (b_leave c BPanicked)
      end
  | BAtSendEvent e k =>
      match chansend (b_eventC c) e true with
      | Returns (_, ev') =>
          let c' := mkBroker (self c) BAtNext (b_out c) ev' (b_ctx_done c)
                             (n_Messages c) (n_Next c) (b_sent c)
                             (b_emitted c ++ [e]) in
          Some match k with
               | ThenReturn => b_leave c' BReturned
               | ThenSelect => b_at c' BAtSelect
               | ThenNext => c'
               end
      | Blocks => None
      | Panics => Some (b_leave c BPanicked)
      end
  | BReturned => None
  | BPanicked => None
  end.

Definition b_with_out (c : broker_config) (ch : chan JSMsg)
  : broker_config :=
  mkBroker (self c) (b_pc c) ch (b_eventC c) (b_ctx_done c)
           (n_Messages c) (n_Next c) (b_sent c) (b_emitted c).

Definition b_with_eventC (c : broker_config) (ev : option (chan Event))
  : broker_config :=
  mkBroker (self c) (b_pc c) (b_out c) ev (b_ctx_done c)
           (n_Messages c) (n_Next c) (b_sent c) (b_emitted c).

(** The goroutine among the others: the consumer of [out], whoever
    cancels the context, and the users of the event stream. *)
Inductive broker_move : broker_config -> broker_config -> Prop :=
| broker_go c c' :
    broker_step c = Some c' -> broker_move c c'
| broker_consumer_recv c :
    broker_move c (b_with_out c (env_recv (b_out c)))
| broker_cancel c :
    broker_move c (mkBroker (self c) (b_pc c) (b_out c) (b_eventC c) true
                            (n_Messages c) (n_Next c) (b_sent c)
                            (b_emitted c))
| broker_observer_recv c ch :
    b_eventC c = Some ch ->
    broker_move c (b_with_eventC c (Some (env_recv ch)))
| broker_other_send c ch e :
    b_eventC c = Some ch ->
    broker_move c (b_with_eventC c (Some (env_send ch e)))
| broker_owner_close c ch :
    b_eventC c = Some ch ->
    broker_move c (b_with_eventC c (Some (env_close ch))).

Inductive broker_reachable (c0 : broker_config) : broker_config -> Prop :=
| broker_reach_start : broker_reachable c0 c0
| broker_reach_step c c' :
    broker_reachable c0 c -> broker_move c c' -> broker_reachable c0 c'.

(** The goroutine is in the loop over [msgs.Next()]. *)
Definition in_message_loop (p : broker_pc) : bool :=
  match p with
  | BAtNext | BAtSendOut _ | BAtSendEvent _ ThenNext => true
  | _ => false
  end.

Definition b_gone (p : broker_pc) : bool :=
  match p with BReturned | BPanicked => true | _ => false end.

Definition b_in_hand (p : broker_pc) : list JSMsg :=
  match p with BAtSendOut v => [v] | _ => [] end.

(** The messages the first [n] calls of [msgs.Next] returned without an
    error, wrapped, in order. *)
Fixpoint fetched (n : nat) : list JSMsg :=
  match n with
  | 0 => []
  | S k =>
      fetched k
      ++ match msgs_Next k with
         | (msg, None) => [fst (NewJSMsg msg)]
         | (_, Some _) => []
         end
  end.

(** The three reports the goroutine can make; each has a cause. *)
Definition broker_report (e : Event) : Prop :=
  exists cause,
    e = NewErrorEvent "failed to create or update consumer" (Some cause)
                      false \/
    e = NewErrorEvent "failed to get messages from nats" (Some cause) true \/
    e = NewErrorEvent "failed to get next message from nats" (Some cause)
                      true.

Definition b_event_in_hand (p : broker_pc) : list Event :=
  match p with BAtSendEvent e _ => [e] | _ => [] end.

End BrokerStream.

Arguments BAtCreate {Message}.
Arguments BAtSelect {Message}.
Arguments BAtNext {Message}.
Arguments BAtSendEvent {Message}.
Arguments BReturned {Message}.
Arguments BPanicked {Message}.

End brokersource.
Import brokersource.

(** ** Package source: the HTTP server *)

Module httpsource.

(** [uuid.UUID], sixteen bytes; [uuid.Nil] is the zero value. *)
Definition UUID : Type := Z.
Definition uuid_Nil : UUID := 0%Z.

(** [log] is a byte slice, which may be nil. *)
Record HTTPLog : Type := mkHTTPLog {
  addr : string;
  log : option string;
  id : UUID
}.

(** [NewHTTPLog]; [newUUID] is what [uuid.NewUUID()] returns. *)
Definition NewHTTPLog (l : option string) (a : string)
           (newUUID : UUID * option error) : HTTPLog * option error :=
  match l with
  | None =>
      (mkHTTPLog EmptyString None uuid_Nil,
       Some (errors_New "http log error: log is nil"))
  | Some _ =>
      let a := if String.eqb a EmptyString then "unknown"%string else a in
      match newUUID with
      | (_, Some e) => (mkHTTPLog EmptyString None uuid_Nil, Some e)
      | (i, None) => (mkHTTPLog a l i, None)
      end
  end.

Definition HTTPLog_Read (h : HTTPLog) : option string * option error :=
  (log h, None).

Definition HTTPLog_Addr (h : HTTPLog) : string := addr h.

Definition HTTPLog_ID (h : HTTPLog) : UUID := id h.

(** What [ServeHTTP] does, in order. *)
Inductive handler_action : Type :=
| http_Error (text : string) (code : Z)      (* http.Error(w, text, code) *)
| SendLog (l : HTTPLog)                      (* h.outC <- ... *)
| Response_WriteHeader (code : Z)
| Response_Write (bytes : string)
| ReportEvent (e : Event).                   (* h.eventC <- ... *)

Definition newlineByte : Ascii.ascii := Ascii.ascii_of_nat 10.

(** [ServeHTTP]: [readAll] is what [io.ReadAll(r.Body)] returns,
    [remoteAddr] is [r.RemoteAddr] and [written] is the error of
    [w.Write].  Both sends are blocking sends. *)
Definition ServeHTTP (readAll : string * option error) (remoteAddr : string)
           (written : option error) : list handler_action :=
  let (body, e) := readAll in
  match e with
  | Some _ => [http_Error "Internal Server Error" 500]
  | None =>
      if String.length body =? 0 then [http_Error "Bad Request" 400]
      else
        let body :=
          match String.get (String.length body - 1) body with
          | Some last =>
              if Ascii.eqb last newlineByte then body
              else (body ++ String newlineByte EmptyString)%string
          | None => body
          end in
        [SendLog (mkHTTPLog remoteAddr (Some body) uuid_Nil);
         Response_WriteHeader 200; Response_Write "OK"]
        ++ match written with
           | Some e =>
               [ReportEvent (NewErrorEvent "failed to write response"
                                           (Some e) true)]
           | None => []
           end
  end.

(** The logs a handler run sends downstream. *)
Definition logs_sent (acts : list handler_action) : list HTTPLog :=
  flat_map (fun a => match a with SendLog l => [l] | _ => [] end) acts.

End httpsource.
Import httpsource.

(** ** Package pipeline: sending a LogEvent *)

Module logevents.

(** [LogEvent.Send]: [eventC <- l], a blocking send; the result is the
    event stream after the call. *)
Definition LogEvent_Send (l : LogEvent) (eventC : option (chan Event))
  : outcome (option (chan Event)) :=
  match chansend eventC (Event_Log l) true with
  | Returns (_, ev') => Returns ev'
  | Blocks => Blocks
  | Panics => Panics
  end.

End logevents.
Import logevents.

(** * Properties *)

(** ** Constructors *)

Lemma NewBuffer_size (I : Type) (k : Z) :
  Buffer_size (NewBuffer I k) = if (k <=? 0)%Z then 1%Z else k.
Proof. reflexivity. Qed.

(** C8: the constructors of Filter, Map and FilterMap fail exactly when an
    argument is nil.  [NewFilter(nil)], [NewMap(nil)], [NewFilterMap(nil, f)]
    and [NewFilterMap(p, nil)] return an error together with the zero stage
    (a nil pointer for Map), none of whose funcs is defaulted; with non-nil
    arguments no error is returned. *)
Theorem constructors_fail_on_nil (I O : Type)
        (p : PredicateFunc I) (f : MapFunc I O) :
  NewFilter (@None (PredicateFunc I))
    = (mkFilter None, Some (errors_New "predicate func is nil")) /\
  NewMap (@None (MapFunc I O))
    = (None, Some (errors_New "transform func is nil")) /\
  NewFilterMap None (Some f)
    = (mkFilterMap None None, Some (errors_New "predicate func is nil")) /\
  NewFilterMap (Some p) (@None (MapFunc I O))
    = (mkFilterMap None None, Some (errors_New "transform func is nil")) /\
  NewFilterMap (@None (PredicateFunc I)) (@None (MapFunc I O))
    = (mkFilterMap None None, Some (errors_New "predicate func is nil")) /\
  NewFilter (Some p) = (mkFilter (Some p), None) /\
  NewMap (Some f) = (Some (mkMap (Some f)), None) /\
  NewFilterMap (Some p) (Some f) = (mkFilterMap (Some p) (Some f), None).
Proof. repeat split. Qed.

(** ** Log levels *)

(** C9: the level ordinals are Error = 3 < Warn = 4 < Info = 6 < Debug = 7:
    Warn is Error + 1, Info is Warn + 2, Debug is Info + 1, and the one
    ordinal strictly between Warn and Info, 5, is the value of the blank line
    of the const block and names no level. *)
Theorem LogLevel_ordinals :
  (LevelError < LevelWarn)%Z /\ (LevelWarn < LevelInfo)%Z /\
  (LevelInfo < LevelDebug)%Z /\
  LevelWarn = (LevelError + 1)%Z /\
  LevelInfo = (LevelWarn + 2)%Z /\
  LevelDebug = (LevelInfo + 1)%Z /\
  (forall z : Z, (LevelWarn < z < LevelInfo)%Z <-> z = LogLevel_line 2) /\
  ~ In (LogLevel_line 2) named_levels /\
  named_levels = [3; 4; 6; 7]%Z.
Proof.
  unfold LevelError, LevelWarn, LevelInfo, LevelDebug, named_levels,
    LevelError, LevelWarn, LevelInfo, LevelDebug, LogLevel_line, uint8.
  change ((0 + 3) mod 256)%Z with 3%Z.
  change ((1 + 3) mod 256)%Z with 4%Z.
  change ((2 + 3) mod 256)%Z with 5%Z.
  change ((3 + 3) mod 256)%Z with 6%Z.
  change ((4 + 3) mod 256)%Z with 7%Z.
  repeat split; try lia.
  simpl. intros [H | [H | [H | [H | []]]]]; discriminate.
Qed.

(** ** Error events *)

(** C10: rendering an ErrorEvent is defined only for a non-nil cause.
    [String] and [Error] return ["<message>: <cause>"] when the cause is
    there and panic when it is nil; [NewErrorEvent] takes a nil cause as it
    comes, and the event the Logger sink sends for an item whose rendering
    is empty is such an event: rendering it panics. *)
Theorem ErrorEvent_rendering_needs_cause
        (m : string) (t : bool) (cause : error)
        (I : Type) (MarshalIndent : I -> string * option error)
        (Sprintf : I -> string) (data : I) :
  ErrorEvent_String (mkErrorEvent m (Some cause) t)
    = Returns (m ++ ": " ++ error_Error cause)%string /\
  ErrorEvent_Error (mkErrorEvent m (Some cause) t)
    = Returns (m ++ ": " ++ error_Error cause)%string /\
  (forall e : ErrorEvent, ErrorEvent_String e = Panics <-> err e = None) /\
  (forall e : ErrorEvent, ErrorEvent_Error e = Panics <-> err e = None) /\
  NewErrorEvent m None t = Event_Error (mkErrorEvent m None t) /\
  Event_String (NewErrorEvent m None t) = Panics /\
  (fst (MarshalIndent data) = EmptyString ->
   Logger_item MarshalIndent Sprintf data
     = SendsEvent (NewErrorEvent "formatted data is empty" None true) /\
   Event_String (NewErrorEvent "formatted data is empty" None true) = Panics).
Proof.
  repeat split; try reflexivity.
  - unfold ErrorEvent_String. destruct (err e); [discriminate | reflexivity].
  - unfold ErrorEvent_String. intros ->. reflexivity.
  - unfold ErrorEvent_Error, ErrorEvent_String.
    destruct (err e); [discriminate | reflexivity].
  - unfold ErrorEvent_Error, ErrorEvent_String. intros ->. reflexivity.
  - unfold Logger_item. destruct (MarshalIndent data) as [b e].
    simpl in H. subst b. reflexivity.
Qed.

Lemma ErrorEvent_rendering_needs_cause_witness :
  Logger_item (fun _ : nat => (EmptyString, Some (errors_New "unsupported type")))
              (fun _ => "{}"%string) 0
    = SendsEvent (NewErrorEvent "formatted data is empty" None true) /\
  Event_String (NewErrorEvent "formatted data is empty" None true) = Panics.
Proof.
  apply (ErrorEvent_rendering_needs_cause
           "m" true (errors_New "c")
           (fun _ : nat => (EmptyString, Some (errors_New "unsupported type")))
           (fun _ => "{}"%string) 0).
  reflexivity.
Defined.

(** ** The non-blocking send *)

Lemma SendEvent_never_blocks (eventC : option (chan Event)) (e : Event) :
  SendEvent eventC e <> Blocks.
Proof.
  destruct eventC as [ch |]; simpl; [| discriminate].
  unfold chan_send.
  destruct (closed ch); [discriminate |].
  destruct (0 <? recvq ch); [discriminate |].
  destruct (length (buf ch) <? cap ch); discriminate.
Qed.

(** C5, as stated, fails on a stream that has been closed: with room in the
    buffer the call does not return true, it panics. *)
Lemma SendEvent_closed_stream_counterexample :
  ~ SendEvent_as_claimed (Some (mkChan 1 [] [] 0 true []))
                         (NewLogEvent "stage" LevelInfo "done").
Proof.
  unfold SendEvent_as_claimed. simpl.
  intros [ch' [H _]]. discriminate H.
Qed.

(** C5, amended: [SendEvent] never blocks; on a nil handle it returns false;
    on a stream that is not closed it returns false when the stream has no
    free capacity and no waiting receiver, and true, the event delivered,
    otherwise; on a closed stream it panics. *)
Theorem SendEvent_open_stream (eventC : option (chan Event)) (e : Event) :
  SendEvent eventC e <> Blocks /\
  match eventC with
  | None => SendEvent_as_claimed eventC e
  | Some ch =>
      if closed ch then SendEvent eventC e = Panics
      else SendEvent_as_claimed eventC e
  end.
Proof.
  split; [apply SendEvent_never_blocks |].
  destruct eventC as [ch |]; [| reflexivity].
  unfold SendEvent_as_claimed, SendEvent, chansend, chan_send, no_room, delivered.
  destruct (closed ch) eqn:Hc; [reflexivity |].
  destruct (recvq ch) as [| n] eqn:Hr; simpl.
  - destruct (length (buf ch) <? cap ch) eqn:Hl.
    + apply Nat.ltb_lt in Hl.
      destruct (cap ch <=? length (buf ch)) eqn:Hl'.
      * apply Nat.leb_le in Hl'. lia.
      * eexists. split; [reflexivity |]. right. simpl. auto.
    + apply Nat.ltb_ge in Hl. apply Nat.leb_le in Hl. rewrite Hl.
      reflexivity.
  - eexists. split; [reflexivity |]. left. simpl.
    repeat split; lia.
Qed.

(** ** The goroutine: invariants under every interleaving *)

Section GoroutineFacts.
Variables I O : Type.
Implicit Types (c : config I O) (body : I -> effect O).

Lemma forwards_snoc body (xs : list I) (x : I) :
  forwards body (xs ++ [x])
  = forwards body xs ++ match body x with Forward val => [val] | _ => [] end.
Proof.
  induction xs as [| y ys IH]; simpl.
  - destruct (body x); reflexivity.
  - rewrite IH. destruct (body y); reflexivity.
Qed.

Lemma emits_snoc body (xs : list I) (x : I) :
  emits body (xs ++ [x])
  = emits body xs ++ match body x with Emit e => [e] | _ => [] end.
Proof.
  induction xs as [| y ys IH]; simpl.
  - destruct (body x); reflexivity.
  - rewrite IH. destruct (body y); reflexivity.
Qed.

Lemma invariant_spawn (n : nat) body (input : chan I)
      (ev : option (chan Event)) :
  invariant (spawn n body input ev).
Proof.
  repeat split; simpl; auto; try discriminate. lia.
Qed.

Lemma leave_open c (p : pc O) :
  closed (cout c) = false ->
  leave c p
  = mkConfig (loop c) p (cin c)
             (mkChan (cap (cout c)) (buf (cout c)) [] 0 true (taken (cout c)))
             (eventC c) (received c) (sent c) (emitted c).
Proof. intros H. unfold leave, close_chan. rewrite H. reflexivity. Qed.

Lemma chanrecv_closed (A : Type) (ch : chan A) :
  chanrecv ch = RecvClosed ->
  closed ch = true /\ buf ch = [] /\ sendq ch = [].
Proof.
  unfold chanrecv.
  destruct (buf ch), (sendq ch); try discriminate.
  destruct (closed ch); [auto | discriminate].
Qed.

Lemma out_ok_same c c' :
  cout c' = cout c -> sent c' = sent c -> gone (g c') = gone (g c) ->
  out_ok c -> out_ok c'.
Proof. unfold out_ok. intros -> -> ->. auto. Qed.

Lemma out_ok_open c : out_ok c -> gone (g c) = false -> closed (cout c) = false.
Proof. intros (_ & _ & _ & Hc & _) Hg. congruence. Qed.

Lemma out_ok_leave c (p : pc O) :
  out_ok c -> gone (g c) = false -> gone p = true -> out_ok (leave c p).
Proof.
  intros Ho Hg Hp. rewrite leave_open by (apply out_ok_open; assumption).
  destruct Ho as (Hq & Hr & Ht & Hc & Hl).
  unfold out_ok; simpl. rewrite Hp. repeat split; auto. lia.
Qed.

Lemma history_at_range c :
  history_ok c -> g c = AtRange ->
  forwards (loop c) (received c) = sent c /\
  emits (loop c) (received c) = emitted c.
Proof.
  unfold history_ok. intros H Hg. rewrite Hg in H. simpl in H.
  rewrite !app_nil_r in H. apply H. discriminate.
Qed.

Lemma invariant_go_step c c' :
  invariant c -> go_step c = Some c' -> invariant c'.
Proof.
  intros (Hh & Ho & Hi) Hs. unfold go_step in Hs.
  destruct (g c) eqn:Hg; try discriminate.
  - (* for v := range in *)
    assert (Hopen : closed (cout c) = false)
      by (apply out_ok_open; [assumption | rewrite Hg; reflexivity]).
    destruct (chanrecv (cin c)) as [v in' | |] eqn:Hr; try discriminate.
    + destruct (history_at_range Hh Hg) as [Hf He].
      injection Hs as <-.
      destruct (loop c v) eqn:Hb.
      * split; [| split].
        -- intros _. simpl. rewrite forwards_snoc, emits_snoc, Hb, Hf, He.
           rewrite app_nil_r. auto.
        -- eapply out_ok_same; [| | | exact Ho]; simpl; auto.
           rewrite Hg. reflexivity.
        -- discriminate.
      * split; [| split].
        -- intros _. simpl. rewrite forwards_snoc, emits_snoc, Hb, Hf, He.
           rewrite app_nil_r. auto.
        -- eapply out_ok_same; [| | | exact Ho]; simpl; auto.
           rewrite Hg. reflexivity.
        -- discriminate.
      * split; [| split].
        -- intros _. simpl. rewrite forwards_snoc, emits_snoc, Hb, Hf, He.
           rewrite !app_nil_r. auto.
        -- eapply out_ok_same; [| | | exact Ho]; simpl; auto.
           rewrite Hg. reflexivity.
        -- discriminate.
      * split; [| split].
        -- intros Hp. exfalso. apply Hp.
           rewrite leave_open; [reflexivity | assumption].
        -- apply out_ok_leave; auto.
           eapply out_ok_same; [| | | exact Ho]; simpl; auto.
           rewrite Hg. reflexivity.
        -- intros Hp. rewrite leave_open in Hp; [discriminate | assumption].
    + injection Hs as <-.
      split; [| split].
      * unfold history_ok in *. rewrite leave_open by assumption. simpl.
        intros _. rewrite Hg in Hh. simpl in Hh. apply Hh. discriminate.
      * apply out_ok_leave; auto. rewrite Hg. reflexivity.
      * intros _. rewrite leave_open by assumption. simpl.
        apply chanrecv_closed. exact Hr.
  - (* out <- val *)
    destruct Ho as (Hq & Hw & Ht & Hc & Hl). rewrite Hg in Hc. simpl in Hc.
    unfold history_ok in Hh. rewrite Hg in Hh. simpl in Hh.
    destruct Hh as [Hf He]; [discriminate |]. rewrite app_nil_r in He.
    unfold chan_send in Hs. rewrite Hc in Hs.
    destruct (0 <? recvq (cout c)) eqn:Hrq.
    + injection Hs as <-. apply Nat.ltb_lt in Hrq.
      split; [| split]; [| | discriminate].
      * intros _. simpl. rewrite !app_nil_r. auto.
      * unfold out_ok. simpl. rewrite (Hw Hrq) in *.
        rewrite app_nil_r in *. repeat split; auto. congruence.
    + destruct (length (buf (cout c)) <? cap (cout c)) eqn:Hsp;
        try discriminate.
      injection Hs as <-. apply Nat.ltb_ge in Hrq. apply Nat.ltb_lt in Hsp.
      split; [| split]; [| | discriminate].
      * intros _. simpl. rewrite !app_nil_r. auto.
      * unfold out_ok. simpl. repeat split; auto.
        -- intros H. lia.
        -- rewrite app_assoc. congruence.
        -- rewrite length_app. simpl. lia.
  - (* eventC <- e *)
    unfold history_ok in Hh. rewrite Hg in Hh. simpl in Hh.
    destruct Hh as [Hf He]; [discriminate |]. rewrite app_nil_r in Hf.
    assert (Hopen : closed (cout c) = false)
      by (apply out_ok_open; [assumption | rewrite Hg; reflexivity]).
    destruct (chansend (eventC c) e true) as [[ok ev'] | |] eqn:Hsend;
      try discriminate; injection Hs as <-.
    + split; [| split]; [| | discriminate].
      * intros _. simpl. rewrite !app_nil_r. auto.
      * eapply out_ok_same; [| | | exact Ho]; simpl; auto.
        rewrite Hg. reflexivity.
    + split; [| split].
      * intros Hp. exfalso. apply Hp. rewrite leave_open; auto.
      * apply out_ok_leave; auto. rewrite Hg. reflexivity.
      * intros Hp. rewrite leave_open in Hp; [discriminate | auto].
Qed.

Lemma env_send_closed (A : Type) (ch : chan A) (v : A) :
  closed ch = true -> env_send ch v = ch.
Proof. intros H. unfold env_send, chan_send. rewrite H. reflexivity. Qed.

Lemma env_close_closed (A : Type) (ch : chan A) :
  closed ch = true -> env_close ch = ch.
Proof. intros H. unfold env_close, close_chan. rewrite H. reflexivity. Qed.

Lemma out_ok_env_recv c :
  out_ok c -> out_ok (with_cout c (env_recv (cout c))).
Proof.
  intros (Hq & Hw & Ht & Hc & Hl). unfold out_ok, env_recv, chanrecv. simpl.
  rewrite Hq.
  destruct (buf (cout c)) as [| v b] eqn:Hb.
  - destruct (closed (cout c)) eqn:Hcl; simpl;
      rewrite ?Hq, ?Hb, ?Hcl; repeat split; auto.
  - simpl in *. repeat split; auto.
    + intros Hr. specialize (Hw Hr). discriminate.
    + rewrite <- app_assoc. exact Ht.
    + lia.
Qed.

Lemma invariant_step c c' :
  invariant c -> step c c' -> invariant c'.
Proof.
  intros Hinv Hs.
  destruct Hs as [c c' Hgo | c v | c | c | c ch Hev | c ch e Hev | c ch Hev].
  - eapply invariant_go_step; eauto.
  - destruct Hinv as (Hh & Ho & Hi). split; [exact Hh | split; [exact Ho |]].
    intros Hg. destruct (Hi Hg) as (Hc & Hb & Hq). simpl.
    rewrite env_send_closed by assumption. repeat split; assumption.
  - destruct Hinv as (Hh & Ho & Hi). split; [exact Hh | split; [exact Ho |]].
    intros Hg. destruct (Hi Hg) as (Hc & Hb & Hq). simpl.
    rewrite env_close_closed by assumption. repeat split; assumption.
  - destruct Hinv as (Hh & Ho & Hi). split; [exact Hh | split; [| exact Hi]].
    apply out_ok_env_recv. exact Ho.
  - exact Hinv.
  - exact Hinv.
  - exact Hinv.
Qed.

Lemma invariant_reachable c0 c :
  invariant c0 -> reachable c0 c -> invariant c.
Proof.
  intros H0 Hr. induction Hr as [| c c' _ IH Hs]; [exact H0 |].
  eapply invariant_step; eauto.
Qed.

Lemma go_step_loop c c' : go_step c = Some c' -> loop c' = loop c.
Proof.
  unfold go_step, leave. intros H.
  destruct (g c); try discriminate.
  - destruct (chanrecv (cin c)); try discriminate.
    + injection H as <-. destruct (loop c v); try reflexivity.
      simpl. destruct (close_chan (cout c)); reflexivity.
    + injection H as <-. destruct (close_chan (cout c)); reflexivity.
  - destruct (chan_send (cout c) val true) as [[? ?] | |]; try discriminate;
      injection H as <-; [reflexivity |].
    destruct (close_chan (cout c)); reflexivity.
  - destruct (chansend (eventC c) e true) as [[? ?] | |]; try discriminate;
      injection H as <-; [reflexivity |].
    destruct (close_chan (cout c)); reflexivity.
Qed.

Lemma reachable_loop c0 c : reachable c0 c -> loop c = loop c0.
Proof.
  induction 1 as [| c c' _ IH Hs]; [reflexivity |].
  rewrite <- IH. destruct Hs; try reflexivity.
  apply go_step_loop. assumption.
Qed.

End GoroutineFacts.

(** ** The goroutine: completion under a cooperative environment *)

Section Completion.
Variables I O : Type.
Implicit Types (c : config I O) (body : I -> effect O).

Lemma run_add (n m : nat) c : run (n + m) c = run m (run n c).
Proof. revert c. induction n as [| n IH]; intros c; simpl; auto. Qed.

Lemma reachable_trans c0 c1 c2 :
  reachable c0 c1 -> reachable c1 c2 -> reachable c0 c2.
Proof.
  intros H1 H2. induction H2 as [| c c' _ IH Hs]; [exact H1 |].
  eapply reach_step; eauto.
Qed.

Lemma coop_step_reachable c : reachable c (coop_step c).
Proof.
  unfold coop_step.
  destruct (go_step c) as [c' |] eqn:Hs.
  - eapply reach_step; [apply reach_start | apply step_go; exact Hs].
  - destruct (g c).
    + apply reach_start.
    + eapply reach_step; [apply reach_start | apply step_consumer_recv].
    + destruct (eventC c) as [ch |] eqn:Hev; [| apply reach_start].
      eapply reach_step; [apply reach_start |].
      apply step_observer_recv. exact Hev.
    + destruct (buf (cout c)); [apply reach_start |].
      eapply reach_step; [apply reach_start | apply step_consumer_recv].
    + apply reach_start.
Qed.

Lemma run_reachable (n : nat) c : reachable c (run n c).
Proof.
  revert c. induction n as [| n IH]; intros c; simpl; [apply reach_start |].
  eapply reachable_trans; [apply coop_step_reachable | apply IH].
Qed.

Lemma settled_run (m : nat) c :
  g c = Exited -> buf (cout c) = [] -> run m c = c.
Proof.
  intros Hg Hb. induction m as [| m IH]; simpl; [reflexivity |].
  assert (Hs : coop_step c = c).
  { unfold coop_step, go_step. rewrite Hg, Hb. reflexivity. }
  rewrite Hs. exact IH.
Qed.

(** The consumer empties [out] once the goroutine is gone. *)
Lemma drain_completes (b : list O) c :
  g c = Exited -> sendq (cout c) = [] -> buf (cout c) = b ->
  exists n, g (run n c) = Exited /\ buf (cout (run n c)) = [] /\
            received (run n c) = received c /\ sent (run n c) = sent c /\
            emitted (run n c) = emitted c.
Proof.
  revert c. induction b as [| v b IH]; intros c Hg Hq Hb.
  - exists 0. simpl. auto.
  - assert (Hcs : coop_step c = with_cout c (env_recv (cout c))).
    { unfold coop_step, go_step. rewrite Hg, Hb. reflexivity. }
    destruct (IH (coop_step c)) as (n & H1 & H2 & H3 & H4 & H5).
    + rewrite Hcs. exact Hg.
    + rewrite Hcs. simpl. unfold env_recv, chanrecv. rewrite Hb, Hq.
      reflexivity.
    + rewrite Hcs. simpl. unfold env_recv, chanrecv. rewrite Hb, Hq.
      reflexivity.
    + exists (S n). simpl. rewrite H3, H4, H5. rewrite Hcs in *.
      simpl. auto 10.
Qed.

(** A receiver that arrives at a channel on which a sender is blocked
    unblocks it. *)
Lemma env_recv_makes_room (A : Type) (ch : chan A) (v : A) :
  closed ch = false -> sendq ch = [] -> length (buf ch) <= cap ch ->
  chan_send ch v true = Blocks ->
  exists ch', chan_send (env_recv ch) v true = Returns (true, ch') /\
              closed ch' = false /\ sendq ch' = [] /\
              length (buf ch') <= cap ch'.
Proof.
  intros Hc Hq Hl. unfold chan_send, env_recv, chanrecv.
  rewrite Hc, Hq.
  destruct (0 <? recvq ch) eqn:Hrq; [discriminate |].
  destruct (length (buf ch) <? cap ch) eqn:Hsp; [discriminate |].
  intros _. apply Nat.ltb_ge in Hrq. apply Nat.ltb_ge in Hsp.
  destruct (buf ch) as [| w b] eqn:Hb; simpl.
  - eexists. split; [reflexivity |]. simpl.
    rewrite ?Hb. simpl. auto with arith.
  - assert (Hrq' : (0 <? recvq ch) = false) by (apply Nat.ltb_ge; lia).
    assert (Hsp' : (length b <? cap ch) = true)
      by (simpl in Hl; apply Nat.ltb_lt; lia).
    rewrite Hrq', Hsp'. eexists. split; [reflexivity |]. simpl.
    rewrite length_app. simpl in *. repeat split; auto. lia.
Qed.

Lemma chan_send_ready (A : Type) (ch ch' : chan A) (v : A) (ok : bool) :
  sendq ch = [] -> length (buf ch) <= cap ch ->
  chan_send ch v true = Returns (ok, ch') ->
  closed ch' = false /\ sendq ch' = [] /\ length (buf ch') <= cap ch'.
Proof.
  intros Hq Hl. unfold chan_send.
  destruct (closed ch); [discriminate |].
  destruct (0 <? recvq ch).
  - intros H; injection H as _ <-. simpl. auto.
  - destruct (length (buf ch) <? cap ch) eqn:Hsp; [| discriminate].
    intros H; injection H as _ <-. simpl. apply Nat.ltb_lt in Hsp.
    rewrite length_app. simpl. repeat split; auto. lia.
Qed.

(** A goroutine parked on [out] gets its value through. *)
Lemma send_out_completes c (val : O) :
  out_ok c -> g c = AtSendOut val ->
  exists n, g (run n c) = AtRange /\ loop (run n c) = loop c /\
            cin (run n c) = cin c /\ eventC (run n c) = eventC c /\
            received (run n c) = received c /\
            sent (run n c) = sent c ++ [val] /\
            emitted (run n c) = emitted c.
Proof.
  intros (Hq & Hw & Ht & Hc & Hl) Hg. rewrite Hg in Hc. simpl in Hc.
  destruct (chan_send (cout c) val true) as [[ok out'] | |] eqn:Hs.
  - exists 1. simpl. unfold coop_step, go_step. rewrite Hg, Hs. simpl.
    auto 10.
  - destruct (env_recv_makes_room (cout c) val Hc Hq Hl Hs)
      as (ch' & Hs' & _).
    exists 2. change (run 2 c) with (coop_step (coop_step c)).
    assert (H1 : coop_step c = with_cout c (env_recv (cout c))).
    { unfold coop_step, go_step. rewrite Hg, Hs. reflexivity. }
    rewrite H1. unfold coop_step, go_step. simpl. rewrite Hg, Hs'.
    simpl. auto 10.
  - unfold chan_send in Hs. rewrite Hc in Hs.
    destruct (0 <? recvq (cout c)); [discriminate |].
    destruct (length (buf (cout c)) <? cap (cout c)); discriminate.
Qed.

(** A goroutine parked on a ready event stream gets its event through. *)
Lemma send_event_completes c (e : Event) :
  g c = AtSendEvent e -> ev_ready (eventC c) ->
  exists n, g (run n c) = AtRange /\ loop (run n c) = loop c /\
            cin (run n c) = cin c /\ cout (run n c) = cout c /\
            ev_ready (eventC (run n c)) /\
            received (run n c) = received c /\
            sent (run n c) = sent c /\
            emitted (run n c) = emitted c ++ [e].
Proof.
  intros Hg (ch & Hev & Hc & Hq & Hl).
  destruct (chan_send ch e true) as [[ok ch'] | |] eqn:Hs.
  - exists 1. simpl. unfold coop_step, go_step, chansend.
    rewrite Hg, Hev, Hs. simpl. repeat split; auto.
    exists ch'. split; [reflexivity |]. eapply chan_send_ready; eauto.
  - destruct (env_recv_makes_room ch e Hc Hq Hl Hs)
      as (ch' & Hs' & Hr').
    exists 2. change (run 2 c) with (coop_step (coop_step c)).
    assert (H1 : coop_step c = with_eventC c (Some (env_recv ch))).
    { unfold coop_step, go_step, chansend. rewrite Hg, Hev, Hs.
      reflexivity. }
    rewrite H1. unfold coop_step, go_step, chansend. simpl.
    rewrite Hg, Hs'. simpl. repeat split; auto. exists ch'. auto.
  - unfold chan_send in Hs. rewrite Hc in Hs.
    destruct (0 <? recvq ch); [discriminate |].
    destruct (length (buf ch) <? cap ch); discriminate.
Qed.

(** On a closed input that holds [xs], the goroutine and a cooperative
    environment reach the end: everything is received, forwarded or
    emitted, and [out] is closed and drained. *)
Lemma coop_run_completes (xs : list I) c :
  invariant c -> g c = AtRange ->
  buf (cin c) = xs -> sendq (cin c) = [] -> closed (cin c) = true ->
  (forall x, In x xs -> crashes (loop c) x = false) ->
  emits (loop c) xs = [] \/ ev_ready (eventC c) ->
  exists n, g (run n c) = Exited /\ buf (cout (run n c)) = [] /\
            received (run n c) = received c ++ xs /\
            sent (run n c) = sent c ++ forwards (loop c) xs /\
            emitted (run n c) = emitted c ++ emits (loop c) xs.
Proof.
  revert c. induction xs as [| x rest IH]; intros c Hinv Hg Hb Hq Hc Hcr Hev.
  - assert (Hopen : closed (cout c) = false).
    { apply out_ok_open; [apply Hinv | rewrite Hg; reflexivity]. }
    assert (H1 : coop_step c = leave c Exited).
    { unfold coop_step, go_step, chanrecv. rewrite Hg, Hb, Hq, Hc.
      reflexivity. }
    destruct (@drain_completes (buf (cout (leave c Exited))) (leave c Exited))
      as (n & G1 & G2 & G3 & G4 & G5);
      try (rewrite leave_open by assumption; reflexivity).
    exists (S n). change (run (S n) c) with (run n (coop_step c)).
    rewrite H1, G1, G2, G3, G4, G5. rewrite leave_open by assumption.
    simpl. rewrite !app_nil_r. auto.
  - assert (Hnc : crashes (loop c) x = false) by (apply Hcr; left; reflexivity).
    unfold crashes in Hnc.
    assert (Hgo : exists c1, go_step c = Some c1 /\ loop c1 = loop c /\
              cin c1 = mkChan (cap (cin c)) rest [] (recvq (cin c)) true
                              (taken (cin c) ++ [x]) /\
              cout c1 = cout c /\ eventC c1 = eventC c /\
              received c1 = received c ++ [x] /\ sent c1 = sent c /\
              emitted c1 = emitted c /\
              g c1 = match loop c x with
                     | Forward val => AtSendOut val
                     | Emit e => AtSendEvent e
                     | _ => AtRange
                     end).
    { unfold go_step, chanrecv. rewrite Hg, Hb, Hq, Hc.
      destruct (loop c x); try discriminate;
        eexists; (split; [reflexivity |]); simpl; auto 10. }
    destruct Hgo as (c1 & Hs1 & L1 & I1 & O1 & E1 & R1 & S1 & M1 & G1).
    assert (Hinv1 : invariant c1) by (eapply invariant_go_step; eauto).
    assert (H1 : coop_step c = c1) by (unfold coop_step; rewrite Hs1; reflexivity).
    assert (Hmid : exists n c2, run n c1 = c2 /\ g c2 = AtRange /\
              loop c2 = loop c /\ cin c2 = cin c1 /\
              (emits (loop c) rest = [] \/ ev_ready (eventC c2)) /\
              received c2 = received c ++ [x] /\
              sent c2 = sent c ++ forwards (loop c) [x] /\
              emitted c2 = emitted c ++ emits (loop c) [x]).
    { simpl in Hev |- *. destruct (loop c x) as [val | e | |] eqn:Hbx;
        try discriminate.
      - destruct (@send_out_completes c1 val)
          as (n & A1 & A2 & A3 & A4 & A5 & A6 & A7);
          [apply Hinv1 | exact G1 |].
        exists n, (run n c1). rewrite A1, A2, A3, A4, A5, A6, A7.
        rewrite L1, E1, R1, S1, M1, app_nil_r. auto 10.
      - assert (Hrdy : ev_ready (eventC c)).
        { destruct Hev as [Hev | Hev]; [discriminate | exact Hev]. }
        destruct (@send_event_completes c1 e)
          as (n & A1 & A2 & A3 & A4 & A5 & A6 & A7 & A8);
          [exact G1 | rewrite E1; exact Hrdy |].
        exists n, (run n c1). rewrite A1, A2, A3, A6, A7, A8.
        rewrite L1, R1, S1, M1, app_nil_r. auto 10.
      - exists 0, c1. simpl. rewrite G1, L1, E1, R1, S1, M1, !app_nil_r.
        auto 10. }
    destruct Hmid as (n1 & c2 & Hrun & G2 & L2 & I2 & E2 & R2 & S2 & M2).
    destruct (IH c2) as (n2 & F1 & F2 & F3 & F4 & F5).
    + eapply invariant_reachable; [exact Hinv1 |].
      rewrite <- Hrun. apply run_reachable.
    + exact G2.
    + rewrite I2, I1. reflexivity.
    + rewrite I2, I1. reflexivity.
    + rewrite I2, I1. reflexivity.
    + intros y Hy. rewrite L2. apply Hcr. right. exact Hy.
    + rewrite L2. exact E2.
    + exists (S (n1 + n2)).
      change (run (S (n1 + n2)) c) with (run (n1 + n2) (coop_step c)).
      rewrite H1, run_add, Hrun, F1, F2, F3, F4, F5, L2, R2, S2, M2.
      rewrite <- !app_assoc. simpl.
      destruct (loop c x); simpl; auto.
Qed.

End Completion.

(** ** What holds of every started stage *)

Section StageFacts.
Variables I O : Type.
Implicit Types (c : config I O) (body : I -> effect O).

(** Whatever the producer, the consumer and the users of the event stream
    do, and in whatever order. *)
Lemma stage_safety (k : nat) body (input : chan I)
      (ev : option (chan Event)) c :
  reachable (spawn k body input ev) c ->
  (g c <> Panicked ->
   forwards body (received c) = sent c ++ in_hand (g c) /\
   emits body (received c) = emitted c ++ event_in_hand (g c)) /\
  taken (cout c) ++ buf (cout c) = sent c /\
  closed (cout c) = gone (g c) /\
  (g c = Exited -> exhausted (cin c)).
Proof.
  intros Hr.
  pose proof (invariant_reachable (invariant_spawn k body input ev) Hr)
    as (Hh & Ho & Hi).
  pose proof (reachable_loop Hr) as Hl. simpl in Hl.
  unfold history_ok in Hh. rewrite Hl in Hh.
  repeat split; try apply Hh; try apply Ho; try apply Hi; auto.
Qed.

(** A stage whose closure neither emits nor crashes never panics and never
    sends an event. *)
Lemma quiet_stage (k : nat) body (input : chan I)
      (ev : option (chan Event)) c :
  quiet body ->
  reachable (spawn k body input ev) c ->
  g c <> Panicked /\ event_in_hand (g c) = [] /\ emitted c = [].
Proof.
  intros Hq Hr.
  induction Hr as [| c c' Hr IH Hs].
  - simpl. repeat split; auto. discriminate.
  - pose proof (invariant_reachable (invariant_spawn k body input ev) Hr)
      as (Hh & Ho & Hi).
    pose proof (reachable_loop Hr) as Hl. simpl in Hl.
    destruct IH as (Hp & He & Hm).
    destruct Hs as [c c' Hgo | | | | | |]; simpl; auto.
    unfold go_step in Hgo.
    destruct (g c) eqn:Hg; try discriminate.
    + destruct (chanrecv (cin c)); try discriminate; injection Hgo as <-.
      * specialize (Hq v). rewrite Hl.
        destruct (body v); try contradiction; simpl; repeat split;
          auto; discriminate.
      * rewrite leave_open
          by (apply out_ok_open; [assumption | rewrite Hg; reflexivity]).
        simpl. repeat split; auto; discriminate.
    + destruct Ho as (_ & _ & _ & Hc & _). rewrite Hg in Hc.
      unfold chan_send in Hgo. rewrite Hc in Hgo. simpl in Hgo.
      destruct (0 <? recvq (cout c)).
      * injection Hgo as <-. simpl. repeat split; auto; discriminate.
      * destruct (length (buf (cout c)) <? cap (cout c)); try discriminate.
        injection Hgo as <-. simpl. repeat split; auto; discriminate.
Qed.

(** With a closed input that holds [xs], the goroutine and a cooperative
    environment end in one final state, whatever the fuel beyond a bound. *)
Lemma stage_completes (k : nat) body (xs : list I)
      (ev : option (chan Event)) :
  (forall x, In x xs -> crashes body x = false) ->
  emits body xs = [] \/ ev_ready ev ->
  exists n, forall m, n <= m ->
    let c := run m (spawn k body (loaded xs) ev) in
    g c = Exited /\ received c = xs /\
    sent c = forwards body xs /\ emitted c = emits body xs /\
    taken (cout c) = forwards body xs /\ buf (cout c) = [] /\
    closed (cout c) = true.
Proof.
  intros Hcr Hev.
  destruct (@coop_run_completes I O xs (spawn k body (loaded xs) ev))
    as (n & G1 & G2 & G3 & G4 & G5); auto.
  - apply invariant_spawn.
  - exists n. intros m Hm. simpl.
    replace m with (n + (m - n)) by lia. rewrite run_add.
    rewrite settled_run by assumption.
    pose proof (stage_safety (run_reachable n (spawn k body (loaded xs) ev)))
      as (_ & Ht & Hc & _).
    rewrite G2, app_nil_r in Ht. rewrite G1 in Hc.
    simpl in G3, G4, G5. rewrite G3, G4, G5, Ht. auto 10.
Qed.

End StageFacts.

(** ** Buffer, Passthrough and Filter *)

Section QuietStages.
Variable I : Type.

Lemma Buffer_body_forwards (xs : list I) :
  forwards (@Buffer_body I) xs = xs /\ emits (@Buffer_body I) xs = [].
Proof.
  induction xs as [| x xs [IH1 IH2]]; simpl; [auto |].
  rewrite IH1, IH2. auto.
Qed.

Lemma Filter_body_forwards (p : PredicateFunc I) (xs : list I) :
  forwards (Filter_body (mkFilter (Some p))) xs = filter p xs /\
  emits (Filter_body (mkFilter (Some p))) xs = [].
Proof.
  induction xs as [| x xs [IH1 IH2]]; simpl; [auto |].
  rewrite IH1, IH2. unfold Filter_body. simpl.
  destruct (p x); auto.
Qed.

Lemma Buffer_body_quiet : quiet (@Buffer_body I).
Proof. intros x. exact Logic.I. Qed.

Lemma Filter_body_quiet (p : PredicateFunc I) :
  quiet (Filter_body (mkFilter (Some p))).
Proof. intros x. unfold Filter_body. simpl. destruct (p x); exact Logic.I. Qed.

Lemma quiet_no_crash (O : Type) (body : I -> effect O) (x : I) :
  quiet body -> crashes body x = false.
Proof.
  intros H. specialize (H x). unfold crashes.
  destruct (body x); try reflexivity; contradiction.
Qed.

(** A stage that forwards what it receives: at every reachable state the
    items sent on [out] are the items received, in order, less the one in
    hand; the consumer has taken, or finds buffered, exactly what was sent;
    no event is sent; [out] is closed exactly when the goroutine has
    exited, which it does only on an input that is closed and empty. *)
Lemma identity_stage (k : nat) (input : chan I) (ev : option (chan Event))
      (c : config I I) :
  reachable (spawn k (@Buffer_body I) input ev) c ->
  received c = sent c ++ in_hand (g c) /\
  taken (cout c) ++ buf (cout c) = sent c /\
  emitted c = [] /\
  g c <> Panicked /\
  (closed (cout c) = true <-> g c = Exited) /\
  (g c = Exited -> exhausted (cin c) /\ sent c = received c).
Proof.
  intros Hr.
  destruct (quiet_stage Buffer_body_quiet Hr) as (Hp & _ & He).
  destruct (stage_safety Hr) as (Hh & Ht & Hc & Hi).
  destruct (Hh Hp) as [Hf _].
  rewrite (proj1 (Buffer_body_forwards _)) in Hf.
  split; [exact Hf |]. split; [exact Ht |]. split; [exact He |].
  split; [exact Hp |]. split; [split |].
  - rewrite Hc. destruct (g c); simpl; congruence.
  - intros Hg. rewrite Hc, Hg. reflexivity.
  - intros Hg. split; [apply Hi; exact Hg |].
    rewrite Hf, Hg. simpl. rewrite app_nil_r. reflexivity.
Qed.

Lemma identity_stage_completes (k : nat) (xs : list I)
      (ev : option (chan Event)) :
  exists n, forall m, n <= m ->
    let c := run m (spawn k (@Buffer_body I) (loaded xs) ev) in
    g c = Exited /\ received c = xs /\ sent c = xs /\
    taken (cout c) = xs /\ buf (cout c) = [] /\ closed (cout c) = true.
Proof.
  destruct (@stage_completes I I k (@Buffer_body I) xs ev) as (n & Hn).
  - intros x _. apply quiet_no_crash, Buffer_body_quiet.
  - left. apply Buffer_body_forwards.
  - exists n. intros m Hm. specialize (Hn m Hm). simpl in Hn |- *.
    rewrite (proj1 (Buffer_body_forwards xs)) in Hn.
    destruct Hn as (G1 & G2 & G3 & G4 & G5 & G6 & G7). auto 10.
Qed.

End QuietStages.

(** C1: Buffer(k), k > 0, and Passthrough forward every item, in order and
    once.  [Transform] returns a started stage whose [out] has capacity [k]
    (none for Passthrough).  In every state it can reach, under any
    interleaving with its producer, its consumer and the users of the event
    stream, the items sent on [out] are the items received from [in], in
    order, less the one in hand, and the consumer has taken or finds
    buffered exactly those; no event is sent and the goroutine never panics;
    [out] is closed exactly when the goroutine has exited, and it exits only
    once [in] is closed and empty.  On an input that holds [xs] and is
    closed, with a cooperative consumer, the run ends: the consumer has
    taken exactly [xs] and [out] is closed. *)
Theorem Buffer_Passthrough_forward_everything
        (I : Type) (k : Z) (input : chan I) (ev : option (chan Event))
        (xs : list I) :
  (0 < k)%Z ->
  exists b0 bx : config I I,
    Buffer_Transform (NewBuffer I k) input ev = Returns b0 /\
    Buffer_Transform (NewBuffer I k) (loaded xs) ev = Returns bx /\
    cap (cout b0) = Z.to_nat k /\
    cap (cout (Passthrough_Transform (NewPassthrough I) input ev)) = 0 /\
    (forall c : config I I,
        reachable b0 c \/
        reachable (Passthrough_Transform (NewPassthrough I) input ev) c ->
        received c = sent c ++ in_hand (g c) /\
        taken (cout c) ++ buf (cout c) = sent c /\
        emitted c = [] /\
        g c <> Panicked /\
        (closed (cout c) = true <-> g c = Exited) /\
        (g c = Exited -> exhausted (cin c) /\ sent c = received c)) /\
    (exists n, forall m, n <= m ->
       forall c : config I I,
         c = run m bx \/
         c = run m (Passthrough_Transform (NewPassthrough I) (loaded xs) ev) ->
         g c = Exited /\ received c = xs /\ sent c = xs /\
         taken (cout c) = xs /\ buf (cout c) = [] /\ closed (cout c) = true).
Proof.
  intros Hk.
  assert (Hs : Buffer_size (NewBuffer I k) = k).
  { rewrite NewBuffer_size. destruct (k <=? 0)%Z eqn:E; [| reflexivity].
    apply Z.leb_le in E. lia. }
  assert (Hn : (Buffer_size (NewBuffer I k) <? 0)%Z = false).
  { rewrite Hs. apply Z.ltb_ge. lia. }
  exists (spawn (Z.to_nat k) (@Buffer_body I) input ev),
         (spawn (Z.to_nat k) (@Buffer_body I) (loaded xs) ev).
  unfold Buffer_Transform. rewrite Hn, Hs.
  split; [reflexivity |]. split; [reflexivity |].
  split; [reflexivity |]. split; [reflexivity |]. split.
  - intros c [Hr | Hr]; eapply identity_stage; exact Hr.
  - destruct (identity_stage_completes (Z.to_nat k) xs ev) as (n1 & H1).
    destruct (identity_stage_completes 0 xs ev) as (n2 & H2).
    exists (n1 + n2). intros m Hm c [-> | ->].
    + apply H1. lia.
    + apply H2. lia.
Qed.

Lemma Buffer_Passthrough_forward_everything_witness :
  exists b0 bx : config nat nat,
    Buffer_Transform (NewBuffer nat 2) (make_chan 0) None = Returns b0 /\
    Buffer_Transform (NewBuffer nat 2) (loaded [1; 2; 3]) None = Returns bx /\
    cap (cout b0) = Z.to_nat 2 /\
    cap (cout (Passthrough_Transform (NewPassthrough nat) (make_chan 0) None)) = 0 /\
    (forall c : config nat nat,
        reachable b0 c \/
        reachable (Passthrough_Transform (NewPassthrough nat) (make_chan 0) None) c ->
        received c = sent c ++ in_hand (g c) /\
        taken (cout c) ++ buf (cout c) = sent c /\
        emitted c = [] /\
        g c <> Panicked /\
        (closed (cout c) = true <-> g c = Exited) /\
        (g c = Exited -> exhausted (cin c) /\ sent c = received c)) /\
    (exists n, forall m, n <= m ->
       forall c : config nat nat,
         c = run m bx \/
         c = run m (Passthrough_Transform (NewPassthrough nat) (loaded [1; 2; 3]) None) ->
         g c = Exited /\ received c = [1; 2; 3] /\ sent c = [1; 2; 3] /\
         taken (cout c) = [1; 2; 3] /\ buf (cout c) = [] /\
         closed (cout c) = true).
Proof.
  apply (@Buffer_Passthrough_forward_everything
           nat 2%Z (make_chan 0) None [1; 2; 3]).
  lia.
Defined.

Lemma filter_shorter (A : Type) (p : A -> bool) (l : list A) :
  length (filter p l) <= length l.
Proof.
  induction l as [| x l IH]; simpl; [lia |].
  destruct (p x); simpl; lia.
Qed.

(** C3: Filter(p) forwards an item exactly when [p] holds of it.  In every
    state the stage can reach, under any interleaving, the items sent on
    [out] are the received items that satisfy [p], in their order, less the
    one in hand; they are no more than the items received; no event is sent,
    whatever was dropped; the goroutine never panics.  When it has exited,
    which it does only on an input that is closed and empty, an item was
    sent if and only if it was received and satisfies [p], and [out] is
    closed.  On a closed input that holds [xs], with a cooperative consumer,
    the run ends and the consumer has taken [filter p xs]. *)
Theorem Filter_forwards_matching_items
        (I : Type) (p : PredicateFunc I) (input : chan I)
        (ev : option (chan Event)) (xs : list I) :
  (forall c : config I I,
      reachable (Filter_Transform (fst (NewFilter (Some p))) input ev) c ->
      filter p (received c) = sent c ++ in_hand (g c) /\
      taken (cout c) ++ buf (cout c) = sent c /\
      length (sent c) <= length (received c) /\
      (forall i, In i (sent c) -> In i (received c) /\ p i = true) /\
      emitted c = [] /\ event_in_hand (g c) = [] /\
      g c <> Panicked /\
      (closed (cout c) = true <-> g c = Exited) /\
      (g c = Exited ->
       exhausted (cin c) /\ sent c = filter p (received c) /\
       forall i, In i (sent c) <-> In i (received c) /\ p i = true)) /\
  (exists n, forall m, n <= m ->
     let c := run m (Filter_Transform (fst (NewFilter (Some p)))
                                      (loaded xs) ev) in
     g c = Exited /\ received c = xs /\ sent c = filter p xs /\
     taken (cout c) = filter p xs /\ emitted c = [] /\
     buf (cout c) = [] /\ closed (cout c) = true).
Proof.
  simpl. unfold Filter_Transform. split.
  - intros c Hr.
    destruct (quiet_stage (Filter_body_quiet p) Hr) as (Hp & Hh & He).
    destruct (stage_safety Hr) as (Hs & Ht & Hc & Hi).
    destruct (Hs Hp) as [Hf _].
    rewrite (proj1 (Filter_body_forwards p _)) in Hf.
    assert (Hsub : forall i, In i (sent c) -> In i (received c) /\ p i = true).
    { intros i Hin. apply filter_In. rewrite Hf. apply in_or_app. auto. }
    split; [exact Hf |]. split; [exact Ht |]. split.
    { pose proof (filter_shorter p (received c)) as Hlen.
      rewrite Hf, length_app in Hlen. lia. }
    split; [exact Hsub |]. split; [exact He |]. split; [exact Hh |].
    split; [exact Hp |]. split; [split |].
    + rewrite Hc. destruct (g c); simpl; congruence.
    + intros Hg. rewrite Hc, Hg. reflexivity.
    + intros Hg. split; [apply Hi; exact Hg |].
      rewrite Hg in Hf. simpl in Hf. rewrite app_nil_r in Hf.
      split; [auto |]. intros i. rewrite <- Hf. apply filter_In.
  - destruct (@stage_completes I I 0 (Filter_body (mkFilter (Some p))) xs ev)
      as (n & Hn).
    + intros x _. apply quiet_no_crash, Filter_body_quiet.
    + left. apply Filter_body_forwards.
    + exists n. intros m Hm. specialize (Hn m Hm). simpl in Hn.
      destruct (Filter_body_forwards p xs) as [F1 F2].
      rewrite F1, F2 in Hn.
      destruct Hn as (G1 & G2 & G3 & G4 & G5 & G6 & G7). auto 10.
Qed.

(** ** Map and FilterMap *)

Section Panics.
Variables I O : Type.
Implicit Types (c : config I O).

Lemma closed_env_recv (A : Type) (ch : chan A) :
  closed (env_recv ch) = closed ch.
Proof.
  unfold env_recv, chanrecv.
  destruct (buf ch), (sendq ch); try reflexivity.
  destruct (closed ch) eqn:E; simpl; auto.
Qed.

Lemma chansend_panics (A : Type) (ev : option (chan A)) (v : A) (b : bool) :
  chansend ev v b = Panics -> exists ch, ev = Some ch /\ closed ch = true.
Proof.
  destruct ev as [ch |]; simpl.
  - unfold chan_send. destruct (closed ch) eqn:E; [eauto |].
    destruct (0 <? recvq ch); simpl; [discriminate |].
    destruct (length (buf ch) <? cap ch); simpl; [discriminate |].
    destruct b; simpl; discriminate.
  - destruct b; discriminate.
Qed.

(** The goroutine of a stage panics only when its closure does, or when it
    sends an event on a stream that has been closed. *)
Lemma panic_reachable (k : nat) (body : I -> effect O) (input : chan I)
      (ev : option (chan Event)) c :
  reachable (spawn k body input ev) c -> panic_ok c.
Proof.
  intros Hr. induction Hr as [| c c' Hr IH Hs]; [discriminate |].
  pose proof (invariant_reachable (invariant_spawn k body input ev) Hr)
    as (_ & Ho & _).
  unfold panic_ok in *.
  destruct Hs as [c c' Hgo | c v | c | c | c ch Hev | c ch e Hev | c ch Hev];
    simpl.
  - unfold go_step in Hgo. destruct (g c) eqn:Hg; try discriminate.
    + assert (Hopen : closed (cout c) = false)
        by (apply out_ok_open; [assumption | rewrite Hg; reflexivity]).
      destruct (chanrecv (cin c)) as [v in' | |]; try discriminate;
        injection Hgo as <-.
      * destruct (loop c v) eqn:Hb; simpl; try discriminate.
        rewrite leave_open by assumption. simpl. intros _. left.
        exists v. split; [apply in_or_app; right; left; reflexivity |].
        unfold crashes. rewrite Hb. reflexivity.
      * rewrite leave_open by assumption. discriminate.
    + destruct Ho as (_ & _ & _ & Hc & _). rewrite Hg in Hc.
      unfold chan_send in Hgo. rewrite Hc in Hgo. simpl in Hgo.
      destruct (0 <? recvq (cout c)).
      * injection Hgo as <-. discriminate.
      * destruct (length (buf (cout c)) <? cap (cout c)); try discriminate.
        injection Hgo as <-. discriminate.
    + assert (Hopen : closed (cout c) = false)
        by (apply out_ok_open; [assumption | rewrite Hg; reflexivity]).
      destruct (chansend (eventC c) e true) as [[ok ev'] | |] eqn:Hsend;
        try discriminate; injection Hgo as <-; [discriminate |].
      rewrite leave_open by assumption. simpl. intros _. right.
      apply chansend_panics in Hsend. exact Hsend.
  - exact IH.
  - exact IH.
  - exact IH.
  - intros Hg. destruct (IH Hg) as [H | (ch' & H1 & H2)]; [left; exact H |].
    right. rewrite Hev in H1. injection H1 as <-.
    exists (env_recv ch). split; [reflexivity |].
    rewrite closed_env_recv. exact H2.
  - intros Hg. destruct (IH Hg) as [H | (ch' & H1 & H2)]; [left; exact H |].
    right. rewrite Hev in H1. injection H1 as <-.
    exists ch. rewrite env_send_closed by assumption. auto.
  - intros Hg. destruct (IH Hg) as [H | (ch' & H1 & H2)]; [left; exact H |].
    right. rewrite Hev in H1. injection H1 as <-.
    exists ch. rewrite env_close_closed by assumption. auto.
Qed.

End Panics.

Section Transforming.
Variables I O : Type.
Variable f : MapFunc I O.

Lemma Map_body_forwards (xs : list I) :
  forwards (Map_body (mkMap (Some f))) xs = images f xs /\
  emits (Map_body (mkMap (Some f))) xs
  = failures "map transform error" f xs.
Proof.
  unfold images, failures.
  induction xs as [| x xs [IH1 IH2]]; simpl; [auto |].
  rewrite IH1, IH2. unfold Map_body, fails. simpl.
  destruct (f x) as [val [e |]] eqn:Hfx; simpl; rewrite ?Hfx; auto.
Qed.

Lemma Map_body_no_crash (x : I) :
  crashes (Map_body (mkMap (Some f))) x = false.
Proof.
  unfold crashes, Map_body. simpl. destruct (f x) as [val [e |]]; reflexivity.
Qed.

Lemma FilterMap_body_forwards (p : PredicateFunc I) (xs : list I) :
  forwards (FilterMap_body (mkFilterMap (Some p) (Some f))) xs
  = images f (filter p xs) /\
  emits (FilterMap_body (mkFilterMap (Some p) (Some f))) xs
  = failures "filtermap error transforming data" f (filter p xs).
Proof.
  unfold images, failures.
  induction xs as [| x xs [IH1 IH2]]; simpl; [auto |].
  rewrite IH1, IH2. unfold FilterMap_body, fails. simpl.
  destruct (p x); simpl; auto.
  destruct (f x) as [val [e |]] eqn:Hfx; simpl; rewrite ?Hfx; auto.
Qed.

Lemma FilterMap_body_no_crash (p : PredicateFunc I) (x : I) :
  crashes (FilterMap_body (mkFilterMap (Some p) (Some f))) x = false.
Proof.
  unfold crashes, FilterMap_body. simpl.
  destruct (p x); [| reflexivity].
  destruct (f x) as [val [e |]]; reflexivity.
Qed.

Lemma failures_length (m : string) (xs : list I) :
  length (failures m f xs) = length (filter (fails f) xs).
Proof. unfold failures. apply length_map. Qed.

(** Every event of [failures m f xs] is a temporary ErrorEvent with
    message [m] whose cause is the error [f] returned. *)
Lemma failures_shape (m : string) (xs : list I) (e : Event) :
  In e (failures m f xs) ->
  exists x cause, In x xs /\ snd (f x) = Some cause /\
                  e = Event_Error (mkErrorEvent m (Some cause) true).
Proof.
  unfold failures. intros H. apply in_map_iff in H.
  destruct H as (x & <- & Hx). apply filter_In in Hx.
  destruct Hx as [Hin Hf]. unfold fails in Hf.
  destruct (snd (f x)) as [cause |] eqn:Hc; [| discriminate].
  exists x, cause. auto.
Qed.

End Transforming.

Section TransformingStage.
Variables I O : Type.
Variable body : I -> effect O.
Variable F : list I -> list O.
Variable E : list I -> list Event.
Hypothesis body_streams :
  forall xs, forwards body xs = F xs /\ emits body xs = E xs.
Hypothesis body_no_crash : forall x, crashes body x = false.

(** A stage whose closure forwards [F] and emits [E] of what it receives,
    and never crashes. *)
Lemma transforming_stage (input : chan I) (ev : option (chan Event))
      (c : config I O) :
  reachable (spawn 0 body input ev) c ->
  (g c <> Panicked ->
   F (received c) = sent c ++ in_hand (g c) /\
   E (received c) = emitted c ++ event_in_hand (g c)) /\
  taken (cout c) ++ buf (cout c) = sent c /\
  (g c = Panicked -> exists ch, eventC c = Some ch /\ closed ch = true) /\
  (g c = Exited ->
   exhausted (cin c) /\ closed (cout c) = true /\
   sent c = F (received c) /\ emitted c = E (received c)).
Proof.
  intros Hr.
  destruct (stage_safety Hr) as (Hh & Ht & Hc & Hi).
  destruct (body_streams (received c)) as [HF HE]. rewrite HF, HE in Hh.
  split; [exact Hh |]. split; [exact Ht |]. split.
  - intros Hg. destruct (panic_reachable Hr Hg) as [(x & _ & Hx) | H].
    + pose proof (reachable_loop Hr) as Hl. simpl in Hl.
      rewrite Hl, body_no_crash in Hx. discriminate.
    + exact H.
  - intros Hg. split; [apply Hi; exact Hg |].
    split; [rewrite Hc, Hg; reflexivity |].
    destruct Hh as [H1 H2]; [rewrite Hg; discriminate |].
    rewrite Hg in H1, H2. simpl in H1, H2.
    rewrite app_nil_r in H1, H2. auto.
Qed.

Lemma transforming_stage_completes (xs : list I)
      (ev : option (chan Event)) :
  E xs = [] \/ ev_ready ev ->
  exists n, forall m, n <= m ->
    let c := run m (spawn 0 body (loaded xs) ev) in
    g c = Exited /\ received c = xs /\
    sent c = F xs /\ emitted c = E xs /\
    taken (cout c) = F xs /\ buf (cout c) = [] /\ closed (cout c) = true.
Proof.
  intros Hev. destruct (body_streams xs) as [HF HE].
  rewrite <- HF, <- HE. apply stage_completes.
  - intros x _. apply body_no_crash.
  - rewrite HE. exact Hev.
Qed.

End TransformingStage.

(** C2: Map(f) and the transform phase of FilterMap(p, f) drop the items on
    which [f] fails and report each of them.  For the stage that the
    constructor returns for non-nil funcs, in every state reachable under
    any interleaving and while the goroutine has not panicked, the values
    sent on [out] are the [f]-images of the received items (of those that
    satisfy [p], for FilterMap) on which [f] does not fail, in order, and
    the events sent are one ErrorEvent per failing item, in order, with
    message "map transform error" ("filtermap error transforming data" for
    FilterMap), the error [f] returned as cause and temporary = true, less
    what is in hand.  The goroutine panics only on an event stream that has
    been closed.  When it has exited, the input is closed and empty, [out]
    is closed, and exactly as many events were sent as items failed.  On a
    closed input that holds [xs], with an event stream that takes events (or
    with no failing item) and cooperative readers, the run ends with these
    outputs and events. *)
Theorem Map_FilterMap_drop_and_report_failures
        (I O : Type) (p : PredicateFunc I) (f : MapFunc I O)
        (input : chan I) (ev : option (chan Event)) (xs : list I) :
  (forall c : config I O,
      reachable (Map_Transform (mkMap (Some f)) input ev) c ->
      (g c <> Panicked ->
       images f (received c) = sent c ++ in_hand (g c) /\
       failures "map transform error" f (received c)
       = emitted c ++ event_in_hand (g c)) /\
      taken (cout c) ++ buf (cout c) = sent c /\
      (g c = Panicked -> exists ch, eventC c = Some ch /\ closed ch = true) /\
      (g c = Exited ->
       exhausted (cin c) /\ closed (cout c) = true /\
       sent c = images f (received c) /\
       emitted c = failures "map transform error" f (received c) /\
       length (emitted c) = length (filter (fails f) (received c)))) /\
  (forall c : config I O,
      reachable (FilterMap_Transform (mkFilterMap (Some p) (Some f)) input ev)
                c ->
      (g c <> Panicked ->
       images f (filter p (received c)) = sent c ++ in_hand (g c) /\
       failures "filtermap error transforming data" f (filter p (received c))
       = emitted c ++ event_in_hand (g c)) /\
      taken (cout c) ++ buf (cout c) = sent c /\
      (g c = Panicked -> exists ch, eventC c = Some ch /\ closed ch = true) /\
      (g c = Exited ->
       exhausted (cin c) /\ closed (cout c) = true /\
       sent c = images f (filter p (received c)) /\
       emitted c
       = failures "filtermap error transforming data" f
                  (filter p (received c)) /\
       length (emitted c)
       = length (filter (fails f) (filter p (received c))))) /\
  (forall (m : string) (l : list I) (e : Event),
      In e (failures m f l) ->
      exists x cause, In x l /\ snd (f x) = Some cause /\
                      e = Event_Error (mkErrorEvent m (Some cause) true)) /\
  (filter (fails f) xs = [] \/ ev_ready ev ->
   exists n, forall m, n <= m ->
     (let c := run m (Map_Transform (mkMap (Some f)) (loaded xs) ev) in
      g c = Exited /\ received c = xs /\
      sent c = images f xs /\
      emitted c = failures "map transform error" f xs /\
      taken (cout c) = images f xs /\ buf (cout c) = [] /\
      closed (cout c) = true) /\
     (let c := run m (FilterMap_Transform (mkFilterMap (Some p) (Some f))
                                          (loaded xs) ev) in
      g c = Exited /\ received c = xs /\
      sent c = images f (filter p xs) /\
      emitted c = failures "filtermap error transforming data" f (filter p xs) /\
      taken (cout c) = images f (filter p xs) /\ buf (cout c) = [] /\
      closed (cout c) = true)).
Proof.
  split; [| split; [| split]].
  - intros c Hr. unfold Map_Transform in Hr.
    destruct (transforming_stage _ _ (Map_body_forwards f)
                                 (Map_body_no_crash f) Hr)
      as (H1 & H2 & H3 & H4).
    split; [exact H1 |]. split; [exact H2 |]. split; [exact H3 |].
    intros Hg. destruct (H4 Hg) as (G1 & G2 & G3 & G4).
    rewrite G4 at 2. rewrite failures_length. auto.
  - intros c Hr. unfold FilterMap_Transform in Hr.
    destruct (transforming_stage _ _ (FilterMap_body_forwards f p)
                                 (FilterMap_body_no_crash f p) Hr)
      as (H1 & H2 & H3 & H4).
    split; [exact H1 |]. split; [exact H2 |]. split; [exact H3 |].
    intros Hg. destruct (H4 Hg) as (G1 & G2 & G3 & G4).
    rewrite G4 at 2. rewrite failures_length. auto.
  - intros m l e. apply failures_shape.
  - intros Hev.
    destruct (@transforming_stage_completes
                I O _ _ _ (Map_body_forwards f) (Map_body_no_crash f) xs ev)
      as (n1 & H1).
    { destruct Hev as [Hev | Hev]; [left | right; exact Hev].
      unfold failures. rewrite Hev. reflexivity. }
    destruct (@transforming_stage_completes
                I O _ _ _ (FilterMap_body_forwards f p)
                (FilterMap_body_no_crash f p) xs ev)
      as (n2 & H2).
    { destruct Hev as [Hev | Hev]; [left | right; exact Hev].
      unfold failures.
      assert (Hnil : filter (fails f) (filter p xs) = []).
      { clear H1. induction xs as [| x l IH]; simpl in *; [reflexivity |].
        destruct (fails f x) eqn:Hx; [discriminate |].
        destruct (p x); simpl; rewrite ?Hx; auto. }
      rewrite Hnil. reflexivity. }
    exists (n1 + n2). intros m Hm. split.
    + apply H1. lia.
    + apply H2. lia.
Qed.

(** ** Event emission and the data path *)

Section Emission.
Variables I O : Type.
Implicit Types (c : config I O).

(** A goroutine that holds an event moves exactly when the stream is there
    and is closed, has a waiting receiver, or has room. *)
Lemma emission_blocked c (e : Event) :
  g c = AtSendEvent e ->
  (go_step c = None <->
   eventC c = None \/
   exists ch, eventC c = Some ch /\ closed ch = false /\ no_room ch = true).
Proof.
  intros Hg. unfold go_step, chansend, chan_send, no_room. rewrite Hg.
  destruct (eventC c) as [ch |]; [| tauto].
  destruct (closed ch) eqn:Hc.
  { split; [discriminate |]. intros [H | (ch' & H & H' & _)];
      [discriminate | congruence]. }
  destruct (recvq ch) as [| r] eqn:Hr; simpl.
  - destruct (length (buf ch) <? cap ch) eqn:Hl.
    + split; [discriminate |]. intros [H | (ch' & H & _ & H')];
        [discriminate |]. injection H as <-. rewrite Hr in H'. simpl in H'.
      apply Nat.ltb_lt in Hl. apply Nat.leb_le in H'. lia.
    + split; [| reflexivity]. intros _. right. exists ch.
      rewrite Hr. simpl. apply Nat.ltb_ge in Hl.
      repeat split; auto. apply Nat.leb_le. exact Hl.
  - split; [discriminate |]. intros [H | (ch' & H & _ & H')];
      [discriminate |]. injection H as <-. rewrite Hr in H'. discriminate.
Qed.

(** When it moves, the event is on the stream and the loop continues, or
    the stream was closed and the goroutine panics. *)
Lemma emission_step c c' (e : Event) :
  g c = AtSendEvent e -> go_step c = Some c' ->
  (g c' = AtRange /\ emitted c' = emitted c ++ [e] /\
   received c' = received c /\ sent c' = sent c) \/
  (g c' = Panicked /\ exists ch, eventC c = Some ch /\ closed ch = true).
Proof.
  intros Hg Hs. unfold go_step in Hs. rewrite Hg in Hs.
  destruct (chansend (eventC c) e true) as [[ok ev'] | |] eqn:Hsend;
    try discriminate; injection Hs as <-.
  - left. simpl. auto.
  - right. split; [| eapply chansend_panics; eauto].
    unfold leave. destruct (close_chan (cout c)); reflexivity.
Qed.

(** On an absent event stream it never moves again: nothing more is
    received, forwarded or reported, whatever the others do. *)
Lemma emission_on_nil_stream c c' (e : Event) :
  g c = AtSendEvent e -> eventC c = None -> reachable c c' ->
  g c' = AtSendEvent e /\ eventC c' = None /\ received c' = received c /\
  sent c' = sent c /\ emitted c' = emitted c.
Proof.
  intros Hg Hev Hr. induction Hr as [| c1 c2 _ IH Hs]; [auto |].
  destruct IH as (G1 & G2 & G3 & G4 & G5).
  destruct Hs as [c1 c2 Hgo | | | | c1 ch H | c1 ch e' H | c1 ch H];
    simpl; auto; try congruence.
  unfold go_step in Hgo. rewrite G1, G2 in Hgo. discriminate.
Qed.

(** The steps of a goroutine that holds no event do not look at the event
    stream. *)
Lemma go_step_without_event c (ev' : option (chan Event)) :
  event_in_hand (g c) = [] ->
  go_step (with_eventC c ev')
  = option_map (fun c' => with_eventC c' ev') (go_step c).
Proof.
  intros Hg. unfold go_step, leave. simpl.
  destruct (g c); try reflexivity; try discriminate.
  - destruct (chanrecv (cin c)); try reflexivity.
    + destruct (loop c v); try reflexivity. simpl.
      destruct (close_chan (cout c)); reflexivity.
    + simpl. destruct (close_chan (cout c)); reflexivity.
  - destruct (chan_send (cout c) val true) as [[ok out'] | |];
      try reflexivity.
    simpl. destruct (close_chan (cout c)); reflexivity.
Qed.

End Emission.

(** C6, as stated, fails for Map: with an absent event stream, and with an
    unbuffered one on which no receiver waits, the goroutine that has
    received an item on which the transform fails cannot take a step. *)
Lemma Map_emission_blocks_counterexample :
  ~ emission_never_blocks
      (Map_Transform (mkMap (Some (fail_on 3))) (loaded [3; 4]) None) /\
  ~ emission_never_blocks
      (Map_Transform (mkMap (Some (fail_on 3))) (loaded [3; 4])
                     (Some (make_chan 0))).
Proof.
  split; intros H.
  - apply (H (run 1 (Map_Transform (mkMap (Some (fail_on 3)))
                                   (loaded [3; 4]) None))
             (NewErrorEvent "map transform error"
                            (Some (errors_New "bad item")) true)).
    + apply run_reachable.
    + reflexivity.
    + reflexivity.
  - apply (H (run 1 (Map_Transform (mkMap (Some (fail_on 3)))
                                   (loaded [3; 4]) (Some (make_chan 0))))
             (NewErrorEvent "map transform error"
                            (Some (errors_New "bad item")) true)).
    + apply run_reachable.
    + reflexivity.
    + reflexivity.
Qed.

(** C6, amended: Map and FilterMap report an event with a blocking send on
    the event stream, not with [SendEvent].  An item on which the transform
    fails puts the goroutine at that send.  There it moves exactly when the
    stream is present and is closed, has a waiting receiver or has free
    capacity: it then continues with the next item, the event delivered (on
    a closed stream it panics).  While the stream is absent, or full with no
    waiting receiver, it cannot move, and on an absent stream it never moves
    again: nothing more is received, forwarded or reported.  Buffer,
    Passthrough and Filter never hold an event and send none, and their
    steps do not depend on the event stream. *)
Theorem emission_is_a_blocking_send
        (I O : Type) (f : MapFunc I O) (p : PredicateFunc I) (x : I)
        (cause : error) (c : config I O) (e : Event) :
  (snd (f x) = Some cause ->
   Map_body (mkMap (Some f)) x
   = Emit (NewErrorEvent "map transform error" (Some cause) true) /\
   (p x = true ->
    FilterMap_body (mkFilterMap (Some p) (Some f)) x
    = Emit (NewErrorEvent "filtermap error transforming data"
                          (Some cause) true))) /\
  (g c = AtSendEvent e ->
   (go_step c = None <->
    eventC c = None \/
    exists ch, eventC c = Some ch /\ closed ch = false /\ no_room ch = true) /\
   (forall c', go_step c = Some c' ->
      (g c' = AtRange /\ emitted c' = emitted c ++ [e] /\
       received c' = received c /\ sent c' = sent c) \/
      (g c' = Panicked /\ exists ch, eventC c = Some ch /\ closed ch = true)) /\
   (eventC c = None ->
    forall c', reachable c c' ->
      g c' = AtSendEvent e /\ eventC c' = None /\ received c' = received c /\
      sent c' = sent c /\ emitted c' = emitted c)) /\
  (forall (k : nat) (input : chan I) (ev ev' : option (chan Event))
          (c1 : config I I),
      reachable (spawn k (@Buffer_body I) input ev) c1 \/
      reachable (Passthrough_Transform (NewPassthrough I) input ev) c1 \/
      reachable (Filter_Transform (mkFilter (Some p)) input ev) c1 ->
      event_in_hand (g c1) = [] /\ emitted c1 = [] /\
      go_step (with_eventC c1 ev')
      = option_map (fun c' => with_eventC c' ev') (go_step c1)).
Proof.
  split; [| split].
  - intros Hx. unfold Map_body, FilterMap_body. simpl.
    destruct (f x) as [val o]. simpl in Hx. subst o.
    split; [reflexivity |]. intros ->. reflexivity.
  - intros Hg. split; [apply (emission_blocked c Hg) |].
    split.
    + intros c' Hs. eapply emission_step; eauto.
    + intros Hev c'. apply emission_on_nil_stream; assumption.
  - intros k input ev ev' c1 Hr.
    assert (H : event_in_hand (g c1) = [] /\ emitted c1 = []).
    { destruct Hr as [Hr | [Hr | Hr]].
      - destruct (quiet_stage (@Buffer_body_quiet I) Hr) as (_ & H1 & H2). auto.
      - destruct (quiet_stage (@Buffer_body_quiet I) Hr) as (_ & H1 & H2). auto.
      - destruct (quiet_stage (Filter_body_quiet p) Hr) as (_ & H1 & H2). auto. }
    destruct H as [H1 H2]. split; [exact H1 |]. split; [exact H2 |].
    apply go_step_without_event. exact H1.
Qed.

Lemma emission_is_a_blocking_send_witness :
  let c := run 1 (Map_Transform (mkMap (Some (fail_on 3))) (loaded [3; 4]) None) in
  Map_body (mkMap (Some (fail_on 3))) 3
  = Emit (NewErrorEvent "map transform error"
                        (Some (errors_New "bad item")) true) /\
  go_step c = None /\
  forall c', reachable c c' -> received c' = [3] /\ sent c' = [].
Proof.
  intros c.
  destruct (@emission_is_a_blocking_send
              nat nat (fail_on 3) (fun _ => true) 3 (errors_New "bad item") c
              (NewErrorEvent "map transform error"
                             (Some (errors_New "bad item")) true))
    as (H1 & H2 & _).
  destruct (H1 eq_refl) as [Hm _].
  destruct (H2 eq_refl) as (Hb & _ & Hn).
  split; [exact Hm |]. split.
  - apply Hb. left. reflexivity.
  - intros c' Hr. destruct (Hn eq_refl c' Hr) as (_ & _ & G1 & G2 & _).
    split; [exact G1 | exact G2].
Defined.

(** ** The event collector *)

Section Collector.
Variable EventCallback : Type.
Implicit Types (w : world EventCallback).

Lemma nth_error_store_eq (A : Type) (l : list A) (i : nat) (x y : A) :
  nth_error l i = Some y -> nth_error (store l i x) i = Some x.
Proof.
  revert i. induction l as [| a l IH]; intros [| i]; simpl;
    try discriminate; auto.
Qed.

Lemma nth_error_store_ne (A : Type) (l : list A) (i j : nat) (x : A) :
  i <> j -> nth_error (store l i x) j = nth_error l j.
Proof.
  revert i j. induction l as [| a l IH]; intros [| i] [| j] H; simpl;
    auto; try congruence.
Qed.

Lemma filter_none (A : Type) (P : A -> bool) (l : list A) :
  (forall i x, nth_error l i = Some x -> P x = false) -> filter P l = [].
Proof.
  induction l as [| a l IH]; intros H; simpl; [reflexivity |].
  rewrite (H 0 a eq_refl). apply IH. intros i x Hi. apply (H (S i) x Hi).
Qed.

Lemma filter_one (A : Type) (P : A -> bool) (l : list A) (r : nat) (y : A) :
  nth_error l r = Some y -> P y = true ->
  (forall i x, nth_error l i = Some x -> P x = true -> i = r) ->
  filter P l = [y].
Proof.
  revert r. induction l as [| a l IH]; intros [| r] Hr Hy H; simpl in *;
    try discriminate.
  - injection Hr as ->. rewrite Hy. f_equal. apply filter_none.
    intros i x Hi. destruct (P x) eqn:Hx; [| reflexivity].
    specialize (H (S i) x Hi Hx). discriminate.
  - destruct (P a) eqn:Ha.
    + specialize (H 0 a eq_refl Ha). discriminate.
    + apply (IH r Hr Hy). intros i x Hi Hx.
      specialize (H (S i) x Hi Hx). congruence.
Qed.

Lemma closed_env_send (A : Type) (ch : chan A) (v : A) :
  closed (env_send ch v) = closed ch.
Proof.
  unfold env_send, chan_send.
  destruct (closed ch) eqn:E; [exact E |].
  destruct (0 <? recvq ch); [reflexivity |].
  destruct (length (buf ch) <? cap ch); simpl; auto.
Qed.

(** Replacing a channel by one that is closed alike keeps consistency. *)
Lemma consistent_store w (r : nat) (ch ch' : chan Event) :
  consistent w -> nth_error (heap w) r = Some ch ->
  closed ch' = closed ch ->
  consistent (mkWorld (store (heap w) r ch') (this w)).
Proof.
  unfold consistent. simpl. intros Hc Hr Hcl.
  assert (Hsame : forall i x, nth_error (store (heap w) r ch') i = Some x ->
            exists x0, nth_error (heap w) i = Some x0 /\ closed x = closed x0).
  { intros i x Hi. destruct (Nat.eq_dec r i) as [<- | Hne].
    - rewrite (nth_error_store_eq _ _ ch' Hr) in Hi. injection Hi as <-.
      eauto.
    - rewrite nth_error_store_ne in Hi by assumption. eauto. }
  destruct (isOpen (this w)).
  - destruct Hc as (ref & c0 & H1 & H2 & H3 & H4).
    destruct (Nat.eq_dec r ref) as [-> | Hne].
    + exists ref, ch'. rewrite (nth_error_store_eq _ _ ch' Hr).
      assert (c0 = ch) by congruence. subst c0.
      repeat split; auto; [congruence |].
      intros i x Hi Hx. destruct (Hsame i x Hi) as (x0 & G1 & G2).
      apply (H4 i x0 G1). congruence.
    + exists ref, c0. rewrite nth_error_store_ne by assumption.
      repeat split; auto.
      intros i x Hi Hx. destruct (Hsame i x Hi) as (x0 & G1 & G2).
      apply (H4 i x0 G1). congruence.
  - intros i x Hi. destruct (Hsame i x Hi) as (x0 & G1 & G2).
    rewrite G2. apply (Hc i x0 G1).
Qed.

Lemma consistent_Collect w : consistent w -> consistent (fst (Collect w)).
Proof.
  unfold Collect, consistent.
  destruct (isOpen (this w)) eqn:Ho; simpl; [rewrite Ho; auto |].
  intros Hc. exists (length (heap w)), (make_chan (Z.to_nat (bufferSize (this w)))).
  split; [reflexivity |]. split.
  { rewrite nth_error_app2 by lia. rewrite Nat.sub_diag. reflexivity. }
  split; [reflexivity |].
  intros i x Hi Hx.
  destruct (Nat.lt_ge_cases i (length (heap w))) as [Hlt | Hge].
  - rewrite nth_error_app1 in Hi by assumption.
    rewrite (Hc i x Hi) in Hx. discriminate.
  - destruct (Nat.eq_dec i (length (heap w))) as [-> | Hne]; [reflexivity |].
    assert (Hnone : nth_error (heap w ++ [make_chan (Z.to_nat (bufferSize (this w)))]) i = None).
    { apply nth_error_None. rewrite length_app. simpl. lia. }
    congruence.
Qed.

Lemma consistent_Close w w' :
  consistent w -> Close w = Returns w' -> consistent w'.
Proof.
  unfold Close, consistent.
  destruct (isOpen (this w)) eqn:Ho; simpl.
  - intros (ref & ch & H1 & H2 & H3 & H4). rewrite H1, H2.
    unfold close_chan. rewrite H3. intros H; injection H as <-. simpl.
    intros i x Hi. destruct (Nat.eq_dec ref i) as [<- | Hne].
    + rewrite (nth_error_store_eq _ _ _ H2) in Hi. injection Hi as <-.
      destruct (0 <? wg (this w))%Z; reflexivity.
    + rewrite nth_error_store_ne in Hi by assumption.
      destruct (closed x) eqn:Hx; [reflexivity |].
      specialize (H4 i x Hi Hx). congruence.
  - intros Hc H; injection H as <-. rewrite Ho. exact Hc.
Qed.

Lemma consistent_reachable w0 w :
  consistent w0 -> wreachable w0 w -> consistent w.
Proof.
  intros H0 Hr. induction Hr as [| w w' _ IH Hs]; [exact H0 |].
  destruct Hs as [w | w w' Hcl | w ref ch e Hn | w ref ch Hn].
  - apply consistent_Collect. exact IH.
  - eapply consistent_Close; eauto.
  - eapply consistent_store; eauto. apply closed_env_send.
  - eapply consistent_store; eauto. apply closed_env_recv.
Qed.

Lemma provided_keeps_closed (opt : EventCollectorOption EventCallback)
      (c : EventCollector EventCallback) :
  provided opt -> isOpen (opt c) = isOpen c.
Proof.
  intros [n | size | cb | t cb].
  - unfold WithWorkers. destruct (0 <? n)%Z; reflexivity.
  - unfold WithBufferSize. destruct (0 <? size)%Z; reflexivity.
  - unfold WithCallback. destruct cb; reflexivity.
  - unfold WithTypedCallback. destruct cb; reflexivity.
Qed.

Lemma NewEventCollector_closed
      (opts : list (EventCollectorOption EventCallback)) :
  Forall (@provided EventCallback) opts ->
  isOpen (NewEventCollector opts) = false.
Proof.
  unfold NewEventCollector. intros Hp.
  assert (H : forall c : EventCollector EventCallback,
             isOpen c = false ->
             isOpen (fold_left (fun c opt => opt c) opts c) = false).
  { induction Hp as [| opt opts Hopt _ IH]; intros c Hc; simpl; [exact Hc |].
    apply IH. rewrite provided_keeps_closed by assumption. exact Hc. }
  apply H. reflexivity.
Qed.

Lemma consistent_live w :
  consistent w ->
  if isOpen (this w) then
    exists ref ch, eventChan (this w) = Some ref /\
                   nth_error (heap w) ref = Some ch /\ live w = [ch]
  else live w = [].
Proof.
  unfold consistent, live. destruct (isOpen (this w)).
  - intros (ref & ch & H1 & H2 & H3 & H4). exists ref, ch.
    split; [exact H1 |]. split; [exact H2 |].
    apply (@filter_one _ (fun ch => negb (closed ch)) _ ref); auto.
    + rewrite H3. reflexivity.
    + intros i x Hi Hx. apply (H4 i x Hi).
      destruct (closed x); [discriminate | reflexivity].
  - intros H. apply filter_none. intros i x Hi. rewrite (H i x Hi).
    reflexivity.
Qed.

End Collector.

(** C7: a collector has at most one live event stream.  Of the streams a
    collector built by [NewEventCollector] from the package's options has
    allocated, after any sequence of [Collect] and [Close] calls, of sends
    to those streams and of worker reads, at most one is not closed.  While
    the collector is open that stream is the one its [eventChan] refers to,
    and [Collect] returns it and changes nothing: no stream is allocated.
    While it is not open no stream is live and [Collect] allocates one.
    [Collect] returns a stream in every case, never an error, and calling it
    a second time returns the stream of the first call. *)
Theorem Collect_returns_the_one_live_stream
        (EventCallback : Type)
        (opts : list (EventCollectorOption EventCallback))
        (w : world EventCallback) :
  Forall (@provided EventCallback) opts ->
  wreachable (mkWorld [] (NewEventCollector opts)) w ->
  length (live w) <= 1 /\
  (isOpen (this w) = true ->
   exists ref ch,
     eventChan (this w) = Some ref /\ nth_error (heap w) ref = Some ch /\
     live w = [ch] /\ Collect w = (w, Some ref)) /\
  (isOpen (this w) = false ->
   live w = [] /\
   snd (Collect w) = Some (length (heap w)) /\
   heap (fst (Collect w))
   = heap w ++ [make_chan (Z.to_nat (bufferSize (this w)))] /\
   live (fst (Collect w)) = [make_chan (Z.to_nat (bufferSize (this w)))]) /\
  isOpen (this (fst (Collect w))) = true /\
  Collect (fst (Collect w)) = (fst (Collect w), snd (Collect w)).
Proof.
  intros Hp Hr.
  assert (Hc : consistent w).
  { eapply consistent_reachable; [| exact Hr].
    unfold consistent. simpl. rewrite NewEventCollector_closed by assumption.
    intros [| i] ch' H; discriminate. }
  pose proof (@consistent_live _ w Hc) as Hl.
  split; [| split; [| split; [| split]]].
  - destruct (isOpen (this w)).
    + destruct Hl as (ref & ch & _ & _ & ->). simpl. lia.
    + rewrite Hl. simpl. lia.
  - intros Ho. rewrite Ho in Hl. destruct Hl as (ref & ch & H1 & H2 & H3).
    exists ref, ch. repeat split; auto.
    unfold Collect. rewrite Ho, H1. reflexivity.
  - intros Ho. rewrite Ho in Hl. split; [exact Hl |].
    unfold Collect. rewrite Ho. simpl.
    split; [reflexivity |]. split; [reflexivity |].
    unfold live. simpl. rewrite filter_app. unfold live in Hl. rewrite Hl.
    reflexivity.
  - unfold Collect. destruct (isOpen (this w)) eqn:Ho; [exact Ho | reflexivity].
  - unfold Collect. destruct (isOpen (this w)) eqn:Ho; simpl.
    + rewrite Ho. reflexivity.
    + reflexivity.
Qed.

Lemma Collect_returns_the_one_live_stream_witness :
  let w := fst (Collect (mkWorld [] (NewEventCollector
                                        [WithWorkers 3; @WithBufferSize unit 4]))) in
  length (live w) <= 1 /\ Collect w = (w, Some 0).
Proof.
  intros w.
  destruct (@Collect_returns_the_one_live_stream
              unit [WithWorkers 3; @WithBufferSize unit 4] w)
    as (H1 & H2 & _).
  - repeat constructor.
  - eapply wreach_step; [apply wreach_start | apply wstep_Collect].
  - split; [exact H1 |].
    destruct (H2 eq_refl) as (ref & ch & G1 & _ & _ & G4).
    rewrite G4. simpl in G1. injection G1 as <-. reflexivity.
Defined.

(** ** Two stages in a row: each goroutine sees the other as its environment *)

Section Views.
Variables I O : Type.
Implicit Types (c : config I O).

Lemma with_cin_same c : with_cin c (cin c) = c.
Proof. destruct c; reflexivity. Qed.

Lemma with_cout_same c : with_cout c (cout c) = c.
Proof. destruct c; reflexivity. Qed.

Lemma with_eventC_same c : with_eventC c (eventC c) = c.
Proof. destruct c; reflexivity. Qed.

Lemma env_send_returns (A : Type) (ch ch' : chan A) (v : A) (ok : bool) :
  chan_send ch v true = Returns (ok, ch') -> env_send ch v = ch'.
Proof. unfold env_send. intros ->. reflexivity. Qed.

Lemma env_recv_received (A : Type) (ch ch' : chan A) (v : A) :
  chanrecv ch = Received v ch' -> env_recv ch = ch'.
Proof. unfold env_recv. intros ->. reflexivity. Qed.

(** What a step of the goroutine does to the event stream is a send of
    another stage for whoever shares the stream. *)
Lemma go_step_stream c c' :
  go_step c = Some c' ->
  eventC c' = eventC c \/
  exists ch e, eventC c = Some ch /\ eventC c' = Some (env_send ch e).
Proof.
  unfold go_step, leave. intros H.
  destruct (g c); try discriminate.
  - destruct (chanrecv (cin c)); try discriminate; injection H as <-.
    + destruct (loop c v); simpl; auto.
      destruct (close_chan (cout c)); auto.
    + destruct (close_chan (cout c)); auto.
  - destruct (chan_send (cout c) val true) as [[ok out'] | |];
      try discriminate; injection H as <-; simpl; auto.
    destruct (close_chan (cout c)); auto.
  - destruct (chansend (eventC c) e true) as [[ok ev'] | |] eqn:Hs;
      try discriminate; injection H as <-; simpl.
    + right. unfold chansend in Hs.
      destruct (eventC c) as [ch |]; [| discriminate].
      destruct (chan_send ch e true) as [[ok' ch'] | |] eqn:Hs';
        try discriminate.
      injection Hs as _ <-. exists ch, e.
      rewrite (env_send_returns _ _ Hs'). auto.
    + destruct (close_chan (cout c)); auto.
Qed.

(** What it does to its output channel is a send or a close of the producer
    for the stage downstream. *)
Lemma go_step_out c c' :
  go_step c = Some c' -> out_ok c -> recvq (cout c) = 0 ->
  (cout c' = cout c \/
   (exists v, cout c' = env_send (cout c) v) \/
   cout c' = env_close (cout c)) /\
  recvq (cout c') = 0 /\ sendq (cout c') = [] /\
  taken (cout c') = taken (cout c).
Proof.
  intros H (Hq & _ & _ & Hc & _) Hr.
  assert (Hleave : closed (cout c) = false -> forall (c1 : config I O) p,
             cout c1 = cout c ->
             cout (leave c1 p) = env_close (cout c) /\
             recvq (cout (leave c1 p)) = 0 /\
             sendq (cout (leave c1 p)) = [] /\
             taken (cout (leave c1 p)) = taken (cout c)).
  { intros Ho c1 p H1. unfold leave, env_close, close_chan.
    rewrite H1, Ho. simpl. auto. }
  unfold go_step in H.
  destruct (g c) eqn:Hg; try discriminate; simpl in Hc;
    specialize (Hleave Hc).
  - destruct (chanrecv (cin c)); try discriminate; injection H as <-.
    + destruct (loop c v); simpl; auto 10.
      match goal with
      | |- context [leave ?c1 ?p] =>
          destruct (Hleave c1 p eq_refl) as (L1 & L2 & L3 & L4)
      end.
      auto 10.
    + destruct (Hleave c Exited eq_refl) as (L1 & L2 & L3 & L4). auto 10.
  - unfold chan_send in H. rewrite Hc, Hr in H. simpl in H.
    destruct (length (buf (cout c)) <? cap (cout c)) eqn:Hl;
      try discriminate.
    injection H as <-. simpl. repeat split; auto.
    right. left. exists val. unfold env_send, chan_send.
    rewrite Hc, Hr, Hl. reflexivity.
  - destruct (chansend (eventC c) e true) as [[ok ev'] | |];
      try discriminate; injection H as <-; simpl; auto 10.
    destruct (Hleave c Panicked eq_refl) as (L1 & L2 & L3 & L4). auto 10.
Qed.

(** What it does to its input channel is a receive of the consumer for the
    stage upstream. *)
Lemma go_step_in c c' :
  go_step c = Some c' -> sendq (cin c) = [] ->
  (cin c' = cin c /\ received c' = received c) \/
  (exists v b, buf (cin c) = v :: b /\ cin c' = env_recv (cin c) /\
                 received c' = received c ++ [v] /\
                 taken (cin c') = taken (cin c) ++ [v] /\
                 recvq (cin c') = recvq (cin c) /\ sendq (cin c') = []).
Proof.
  intros H Hq. unfold go_step in H.
  destruct (g c) eqn:Hg; try discriminate.
  - destruct (chanrecv (cin c)) as [v in' | |] eqn:Hr; try discriminate;
      injection H as <-.
    + right. pose proof (env_recv_received _ Hr) as He.
      unfold chanrecv in Hr. rewrite Hq in Hr.
      destruct (buf (cin c)) as [| w b] eqn:Hb.
      { destruct (closed (cin c)); discriminate. }
      injection Hr as <- <-. exists w, b.
      assert (G : forall c1 : config I O,
                 cin c1 = mkChan (cap (cin c)) b [] (recvq (cin c))
                                 (closed (cin c)) (taken (cin c) ++ [w]) ->
                 received c1 = received c ++ [w] ->
                 w :: b = w :: b /\ cin c1 = env_recv (cin c) /\
                 received c1 = received c ++ [w] /\
                 taken (cin c1) = taken (cin c) ++ [w] /\
                 recvq (cin c1) = recvq (cin c) /\ sendq (cin c1) = []).
      { intros c1 H1 H2. rewrite H1, He, H2. simpl. auto 10. }
      destruct (loop c w); try (apply G; reflexivity).
      apply G; unfold leave; simpl; destruct (close_chan (cout c)); reflexivity.
    + left. unfold leave. destruct (close_chan (cout c)); simpl; auto.
  - destruct (chan_send (cout c) val true) as [[ok out'] | |];
      try discriminate; injection H as <-; simpl; auto.
    left. unfold leave. destruct (close_chan (cout c)); simpl; auto.
  - destruct (chansend (eventC c) e true) as [[ok ev'] | |];
      try discriminate; injection H as <-; simpl; auto.
    left. unfold leave. destruct (close_chan (cout c)); simpl; auto.
Qed.

(** The moves of the neighbours are moves of the environment. *)
Lemma reachable_with_stream c0 c (ev' : option (chan Event)) :
  reachable c0 c ->
  ev' = eventC c \/
  (exists ch e, eventC c = Some ch /\ ev' = Some (env_send ch e)) ->
  reachable c0 (with_eventC c ev').
Proof.
  intros Hr [-> | (ch & e & H1 & ->)].
  - rewrite with_eventC_same. exact Hr.
  - eapply reach_step; [exact Hr |]. apply step_other_send. exact H1.
Qed.

Lemma reachable_with_cin c0 c (ch' : chan I) :
  reachable c0 c ->
  ch' = cin c \/ (exists v, ch' = env_send (cin c) v) \/
  ch' = env_close (cin c) ->
  reachable c0 (with_cin c ch').
Proof.
  intros Hr [-> | [(v & ->) | ->]].
  - rewrite with_cin_same. exact Hr.
  - eapply reach_step; [exact Hr |]. apply step_producer_send.
  - eapply reach_step; [exact Hr |]. apply step_producer_close.
Qed.

Lemma reachable_with_cout c0 c (ch' : chan O) :
  reachable c0 c ->
  ch' = cout c \/ ch' = env_recv (cout c) ->
  reachable c0 (with_cout c ch').
Proof.
  intros Hr [-> | ->].
  - rewrite with_cout_same. exact Hr.
  - eapply reach_step; [exact Hr |]. apply step_consumer_recv.
Qed.

End Views.

Section PipeFacts.
Variables I M O : Type.
Variables (k1 k2 : nat) (body1 : I -> effect M) (body2 : M -> effect O).
Variables (input : chan I) (ev : option (chan Event)).
Implicit Types (p : pipe I M O).

Local Abbreviation u0 := (spawn k1 body1 input ev).
Local Abbreviation d0 := (spawn k2 body2 (make_chan k1) ev).

Lemma handoff_views (u : config I M) (d : config M O) (v : M) p' :
  out_ok u -> g u = AtSendOut v -> g d = AtRange ->
  middle_ok (mkPipe u d) ->
  chan_send (cout u) v true = Blocks ->
  handoff (mkPipe u d) v = Some p' ->
  middle_ok p' /\
  go_step (with_cout u (env_recv (cout u))) = Some (upstream p') /\
  go_step (with_cin d (env_send (cin d) v)) = Some (downstream p').
Proof.
  intros (_ & _ & _ & _ & Hlen) Hgu Hgd ((Hmid & Hev) & Hr & Hq & Ht) Hb Hh.
  simpl in *.
  destruct u as [lu gu iu mid eu ru su mu].
  destruct d as [ld gd id od ed rd sd md]. simpl in *. subst gu gd id ed.
  destruct mid as [cp bf sq rq cl tk]. simpl in *. subst rq sq tk.
  unfold chan_send in Hb. simpl in Hb.
  destruct cl; [discriminate |].
  destruct (length bf <? cp) eqn:Hsp; [discriminate |]. clear Hb.
  apply Nat.ltb_ge in Hsp.
  unfold handoff, go_step, park, chanrecv in Hh. simpl in Hh.
  unfold env_send, env_recv, chan_send, chanrecv, go_step. simpl.
  assert (Hsp' : (length bf <? cp) = false) by (apply Nat.ltb_ge; exact Hsp).
  rewrite Hsp'. unfold chan_send. simpl.
  destruct bf as [| x b]; simpl in *.
  - destruct (ld v); injection Hh as <-; simpl;
      try (repeat split; reflexivity).
    unfold leave; simpl. destruct (close_chan od); simpl;
      repeat split; reflexivity.
  - assert (Hroom : (length b <? cp) = true) by (apply Nat.ltb_lt; lia).
    rewrite Hroom.
    destruct (ld x); injection Hh as <-; simpl;
      try (repeat split; reflexivity).
    unfold leave; simpl. destruct (close_chan od); simpl;
      repeat split; reflexivity.
Qed.

Lemma pipe_inv_step p p' :
  pipe_inv u0 d0 p -> pstep p p' -> pipe_inv u0 d0 p'.
Proof.
  intros (((Hmid & Hev) & Hr & Hq & Ht) & Hu & Hd) Hs.
  pose proof (invariant_reachable (invariant_spawn k1 body1 input ev) Hu)
    as (_ & Hou & _).
  destruct Hs as [p u' Hgo | p d' Hgo | p v p' Hgu Hgd Hb Hh | p v | p | p
                 | p ch Hch | p ch e Hch | p ch Hch].
  - (* the first goroutine moves *)
    destruct (@go_step_out _ _ _ _ Hgo Hou Hr) as (Hout & R1 & R2 & R3).
    pose proof (@go_step_stream _ _ _ _ Hgo) as Hst.
    split; [| split].
    + unfold middle_ok, connected. simpl. repeat split; auto. congruence.
    + eapply reach_step; [exact Hu | apply step_go; exact Hgo].
    + simpl. apply reachable_with_stream.
      * apply reachable_with_cin; [exact Hd |]. rewrite <- Hmid. exact Hout.
      * simpl. rewrite <- Hev. exact Hst.
  - (* the second goroutine moves *)
    assert (Hq' : sendq (cin (downstream p)) = []) by (rewrite <- Hmid; exact Hq).
    pose proof (@go_step_stream _ _ _ _ Hgo) as Hst.
    destruct (@go_step_in _ _ _ _ Hgo Hq') as [[G1 G2] | (v & b & G0 & G1 & G2 & G3 & G4 & G5)].
    + split; [| split].
      * unfold middle_ok, connected. simpl. rewrite G1, G2, <- Hmid.
        repeat split; auto.
      * simpl. apply reachable_with_stream.
        -- apply reachable_with_cout; [exact Hu |]. left. congruence.
        -- simpl. rewrite Hev. exact Hst.
      * eapply reach_step; [exact Hd | apply step_go; exact Hgo].
    + split; [| split].
      * unfold middle_ok, connected. simpl. rewrite G2, G3, G4, G5, <- Hmid.
        repeat split; auto. congruence.
      * simpl. apply reachable_with_stream.
        -- apply reachable_with_cout; [exact Hu |]. right. congruence.
        -- simpl. rewrite Hev. exact Hst.
      * eapply reach_step; [exact Hd | apply step_go; exact Hgo].
  - (* the first hands a value to the second *)
    destruct p as [u d].
    destruct (@handoff_views u d v p' Hou Hgu Hgd) as (G1 & G2 & G3); auto.
    { repeat split; auto. }
    split; [exact G1 | split].
    + eapply reach_step; [| apply step_go; exact G2].
      eapply reach_step; [exact Hu | apply step_consumer_recv].
    + eapply reach_step; [| apply step_go; exact G3].
      eapply reach_step; [exact Hd | apply step_producer_send].
  - split; [| split]; simpl.
    + unfold middle_ok, connected. simpl. auto.
    + eapply reach_step; [exact Hu | apply step_producer_send].
    + exact Hd.
  - split; [| split]; simpl.
    + unfold middle_ok, connected. simpl. auto.
    + eapply reach_step; [exact Hu | apply step_producer_close].
    + exact Hd.
  - split; [| split]; simpl.
    + unfold middle_ok, connected. simpl. auto.
    + exact Hu.
    + eapply reach_step; [exact Hd | apply step_consumer_recv].
  - split; [| split]; simpl.
    + unfold middle_ok, connected. simpl. auto.
    + eapply reach_step; [exact Hu | apply step_observer_recv; congruence].
    + eapply reach_step; [exact Hd | apply step_observer_recv; congruence].
  - split; [| split]; simpl.
    + unfold middle_ok, connected. simpl. auto.
    + eapply reach_step; [exact Hu | apply step_other_send; congruence].
    + eapply reach_step; [exact Hd | apply step_other_send; congruence].
  - split; [| split]; simpl.
    + unfold middle_ok, connected. simpl. auto.
    + eapply reach_step; [exact Hu | apply step_owner_close; congruence].
    + eapply reach_step; [exact Hd | apply step_owner_close; congruence].
Qed.

Lemma pipe_inv_start :
  pipe_inv u0 d0 (pipe_of (spawn k1 body1) (spawn k2 body2) input ev).
Proof.
  repeat split; apply reach_start.
Qed.

Lemma pipe_inv_reachable p :
  preachable (pipe_of (spawn k1 body1) (spawn k2 body2) input ev) p ->
  pipe_inv u0 d0 p.
Proof.
  induction 1 as [| p p' _ IH Hs]; [apply pipe_inv_start |].
  eapply pipe_inv_step; eauto.
Qed.

End PipeFacts.

(** ** Two stages in a row: completion under a cooperative environment *)

Section PipeRun.
Variables I M O : Type.
Implicit Types (p : pipe I M O).

Lemma prun_add (n m : nat) p : prun (n + m) p = prun m (prun n p).
Proof. revert p. induction n as [| n IH]; intros p; simpl; auto. Qed.

Lemma preachable_trans p0 p1 p2 :
  preachable p0 p1 -> preachable p1 p2 -> preachable p0 p2.
Proof.
  intros H1 H2. induction H2 as [| p p' _ IH Hs]; [exact H1 |].
  eapply preach_step; eauto.
Qed.

Lemma go_step_blocked_send (A B : Type) (c : config A B) (v : B) :
  g c = AtSendOut v -> go_step c = None ->
  chan_send (cout c) v true = Blocks.
Proof.
  intros Hg. unfold go_step. rewrite Hg.
  destruct (chan_send (cout c) v true) as [[ok out'] | |];
    [discriminate | reflexivity | discriminate].
Qed.

Lemma pcoop_step_preachable p : preachable p (pcoop_step p).
Proof.
  unfold pcoop_step.
  destruct (go_step (downstream p)) as [d' |] eqn:Hd.
  { eapply preach_step; [apply preach_start | apply pstep_down; exact Hd]. }
  destruct (g (downstream p)) eqn:Hg.
  - destruct (go_step (upstream p)) as [u' |] eqn:Hu.
    { eapply preach_step; [apply preach_start | apply pstep_up; exact Hu]. }
    destruct (g (upstream p)) eqn:Hgu; try apply preach_start.
    + destruct (handoff p val) as [p' |] eqn:Hh; [| apply preach_start].
      eapply preach_step; [apply preach_start |].
      eapply pstep_handoff; eauto. apply go_step_blocked_send; assumption.
    + destruct (eventC (downstream p)) as [ch |] eqn:Hev;
        [| apply preach_start].
      eapply preach_step; [apply preach_start |].
      apply pstep_observer_recv. exact Hev.
  - eapply preach_step; [apply preach_start | apply pstep_consumer_recv].
  - destruct (eventC (downstream p)) as [ch |] eqn:Hev;
      [| apply preach_start].
    eapply preach_step; [apply preach_start |].
    apply pstep_observer_recv. exact Hev.
  - destruct (buf (cout (downstream p))); [apply preach_start |].
    eapply preach_step; [apply preach_start | apply pstep_consumer_recv].
  - apply preach_start.
Qed.

Lemma prun_preachable (n : nat) p : preachable p (prun n p).
Proof.
  revert p. induction n as [| n IH]; intros p; simpl; [apply preach_start |].
  eapply preachable_trans; [apply pcoop_step_preachable | apply IH].
Qed.

Lemma pipe_inv_preachable (u0 : config I M) (d0 : config M O)
      (k1 k2 : nat) (body1 : I -> effect M) (body2 : M -> effect O)
      (input : chan I) (ev : option (chan Event)) p p' :
  u0 = spawn k1 body1 input ev -> d0 = spawn k2 body2 (make_chan k1) ev ->
  pipe_inv u0 d0 p -> preachable p p' -> pipe_inv u0 d0 p'.
Proof.
  intros -> -> Hi Hr. induction Hr as [| q q' _ IH Hs]; [exact Hi |].
  eapply pipe_inv_step; eauto.
Qed.

Lemma with_eventC_twice (A B : Type) (c : config A B)
      (e1 e2 : option (chan Event)) :
  with_eventC (with_eventC c e1) e2 = with_eventC c e2.
Proof. reflexivity. Qed.

Lemma down_moved_private p (d' : config M O) :
  connected p -> cin d' = cin (downstream p) ->
  down_moved p d' = mkPipe (with_eventC (upstream p) (eventC d')) d'.
Proof.
  intros [Hm _] Hc. unfold down_moved. rewrite Hc, <- Hm, with_cout_same.
  reflexivity.
Qed.

Lemma settled_prun (m : nat) p :
  g (downstream p) = Exited -> buf (cout (downstream p)) = [] ->
  prun m p = p.
Proof.
  intros Hg Hb. induction m as [| m IH]; simpl; [reflexivity |].
  assert (Hs : pcoop_step p = p).
  { unfold pcoop_step, go_step. rewrite Hg, Hb. reflexivity. }
  rewrite Hs. exact IH.
Qed.

(** The consumer empties [out] once the second goroutine is gone. *)
Lemma pdrain_completes (b : list O) p :
  g (downstream p) = Exited -> sendq (cout (downstream p)) = [] ->
  buf (cout (downstream p)) = b ->
  exists n, upstream (prun n p) = upstream p /\
            g (downstream (prun n p)) = Exited /\
            buf (cout (downstream (prun n p))) = [] /\
            received (downstream (prun n p)) = received (downstream p) /\
            sent (downstream (prun n p)) = sent (downstream p) /\
            emitted (downstream (prun n p)) = emitted (downstream p).
Proof.
  revert p. induction b as [| v b IH]; intros p Hg Hq Hb.
  - exists 0. simpl. auto 10.
  - assert (Hcs : pcoop_step p
                  = mkPipe (upstream p)
                           (with_cout (downstream p)
                                      (env_recv (cout (downstream p))))).
    { unfold pcoop_step, go_step. rewrite Hg, Hb. reflexivity. }
    destruct (IH (pcoop_step p)) as (n & H0 & H1 & H2 & H3 & H4 & H5).
    + rewrite Hcs. exact Hg.
    + rewrite Hcs. simpl. unfold env_recv, chanrecv. rewrite Hb, Hq.
      reflexivity.
    + rewrite Hcs. simpl. unfold env_recv, chanrecv. rewrite Hb, Hq.
      reflexivity.
    + exists (S n). simpl. rewrite H0, H3, H4, H5. rewrite Hcs in *.
      simpl. auto 10.
Qed.

(** The second goroutine, parked on [out], gets its value through. *)
Lemma psend_out_completes p (val : O) :
  connected p -> out_ok (downstream p) ->
  g (downstream p) = AtSendOut val ->
  exists n d', prun n p = mkPipe (upstream p) d' /\
    g d' = AtRange /\ loop d' = loop (downstream p) /\
    cin d' = cin (downstream p) /\ eventC d' = eventC (downstream p) /\
    received d' = received (downstream p) /\
    sent d' = sent (downstream p) ++ [val] /\
    emitted d' = emitted (downstream p).
Proof.
  intros Hcon (Hq & Hw & Ht & Hc & Hl) Hg. rewrite Hg in Hc. simpl in Hc.
  destruct p as [u d]. simpl in *.
  assert (Hsame : forall d1 : config M O,
             cin d1 = cin d -> eventC d1 = eventC d ->
             down_moved (mkPipe u d) d1 = mkPipe u d1).
  { intros d1 H1 H2. rewrite down_moved_private by assumption. simpl.
    rewrite H2. destruct Hcon as [_ He]. simpl in He.
    rewrite <- He, with_eventC_same. reflexivity. }
  destruct (chan_send (cout d) val true) as [[ok out'] | |] eqn:Hs.
  - exists 1. eexists. simpl. unfold pcoop_step, go_step. simpl.
    rewrite Hg, Hs. rewrite Hsame by reflexivity.
    split; [reflexivity |]. simpl. auto 10.
  - destruct (env_recv_makes_room (cout d) val Hc Hq Hl Hs)
      as (ch' & Hs' & _).
    exists 2. eexists. change (prun 2 (mkPipe u d))
      with (pcoop_step (pcoop_step (mkPipe u d))).
    assert (H1 : pcoop_step (mkPipe u d)
                 = mkPipe u (with_cout d (env_recv (cout d)))).
    { unfold pcoop_step, go_step. simpl. rewrite Hg, Hs. reflexivity. }
    rewrite H1. unfold pcoop_step, go_step. simpl. rewrite Hg, Hs'.
    unfold down_moved. simpl.
    destruct Hcon as [Hm He]. simpl in Hm, He.
    rewrite <- Hm, <- He, with_cout_same, with_eventC_same.
    split; [reflexivity |]. simpl. auto 10.
  - unfold chan_send in Hs. rewrite Hc in Hs.
    destruct (0 <? recvq (cout d)); [discriminate |].
    destruct (length (buf (cout d)) <? cap (cout d)); discriminate.
Qed.

(** The second goroutine, parked on a ready event stream, gets its event
    through; the first sees the stream change. *)
Lemma psend_event_completes p (e : Event) :
  connected p -> g (downstream p) = AtSendEvent e ->
  ev_ready (eventC (downstream p)) ->
  exists n d', prun n p = mkPipe (with_eventC (upstream p) (eventC d')) d' /\
    g d' = AtRange /\ loop d' = loop (downstream p) /\
    cin d' = cin (downstream p) /\ cout d' = cout (downstream p) /\
    ev_ready (eventC d') /\
    received d' = received (downstream p) /\
    sent d' = sent (downstream p) /\
    emitted d' = emitted (downstream p) ++ [e].
Proof.
  intros Hcon Hg (ch & Hev & Hc & Hq & Hl).
  destruct p as [u d]. simpl in *.
  destruct (chan_send ch e true) as [[ok ch'] | |] eqn:Hs.
  - exists 1. eexists. simpl. unfold pcoop_step, go_step, chansend. simpl.
    rewrite Hg, Hev, Hs. rewrite down_moved_private by (auto; reflexivity).
    split; [reflexivity |]. simpl. repeat split; auto.
    exists ch'. split; [reflexivity |]. eapply chan_send_ready; eauto.
  - destruct (env_recv_makes_room ch e Hc Hq Hl Hs) as (ch' & Hs' & Hr').
    exists 2. eexists. change (prun 2 (mkPipe u d))
      with (pcoop_step (pcoop_step (mkPipe u d))).
    assert (H1 : pcoop_step (mkPipe u d)
                 = with_stream (mkPipe u d) (Some (env_recv ch))).
    { unfold pcoop_step, go_step, chansend. simpl.
      rewrite Hg, Hev, Hs. reflexivity. }
    rewrite H1. unfold pcoop_step, go_step, chansend, with_stream. simpl.
    rewrite Hg, Hs'. unfold down_moved. simpl.
    destruct Hcon as [Hm He]. simpl in Hm, He.
    rewrite <- Hm. 
    replace (with_cout (with_eventC u (Some (env_recv ch))) (cout u))
      with (with_eventC u (Some (env_recv ch))) by (destruct u; reflexivity).
    split; [refine (f_equal2 (@mkPipe I M O) _ eq_refl); reflexivity |].
    simpl. repeat split; auto. exists ch'. auto.
  - unfold chan_send in Hs. rewrite Hc in Hs.
    destruct (0 <? recvq ch); [discriminate |].
    destruct (length (buf ch) <? cap ch); discriminate.
Qed.

End PipeRun.

Section PipeCompletion.
Variables I M O : Type.
Variables (k2 : nat) (body1 : I -> effect M) (body2 : M -> effect O).
Variables (input0 : chan I) (ev0 : option (chan Event)).
Hypothesis body1_quiet : quiet body1.
Hypothesis body2_no_crash : forall x, crashes body2 x = false.
Implicit Types (p : pipe I M O).

Local Abbreviation u0 := (spawn 0 body1 input0 ev0).
Local Abbreviation d0 := (spawn k2 body2 (make_chan 0) ev0).

Lemma cap_cout_reachable (A B : Type) (c0 c : config A B) :
  reachable c0 c -> cap (cout c) = cap (cout c0).
Proof.
  induction 1 as [| c c' _ IH Hs]; [reflexivity |]. rewrite <- IH.
  destruct Hs as [c c' Hgo | | | c | | |]; simpl; try reflexivity.
  - unfold go_step, leave, close_chan in Hgo.
    destruct (g c); try discriminate.
    + destruct (chanrecv (cin c)); try discriminate; injection Hgo as <-.
      * destruct (loop c v); simpl; try reflexivity.
        destruct (closed (cout c)); reflexivity.
      * destruct (closed (cout c)); reflexivity.
    + unfold chan_send in Hgo. destruct (closed (cout c)).
      * injection Hgo as <-. reflexivity.
      * destruct (0 <? recvq (cout c)); [injection Hgo as <-; reflexivity |].
        destruct (length (buf (cout c)) <? cap (cout c));
          [injection Hgo as <-; reflexivity | discriminate].
    + destruct (chansend (eventC c) e true) as [[ok ev'] | |];
        try discriminate; injection Hgo as <-; simpl; try reflexivity.
      destruct (closed (cout c)); reflexivity.
  - unfold env_recv, chanrecv.
    destruct (buf (cout c)), (sendq (cout c)); try reflexivity.
    destruct (closed (cout c)); reflexivity.
Qed.

(** The pipe between two items: both goroutines are at their receive and
    the middle channel, which has no buffer, is empty and open. *)
Lemma pipe_at_rest p :
  pipe_inv u0 d0 p -> g (upstream p) = AtRange ->
  g (downstream p) = AtRange ->
  loop (upstream p) = body1 /\ loop (downstream p) = body2 /\
  eventC (upstream p) = eventC (downstream p) /\
  closed (cout (downstream p)) = false /\
  out_ok (downstream p) /\
  cout (upstream p) = cin (downstream p) /\
  cin (downstream p)
  = mkChan 0 [] [] 0 false (taken (cin (downstream p))).
Proof.
  intros (((Hm & He) & Hr & Hq & Ht) & Hu & Hd) Hgu Hgd.
  pose proof (invariant_reachable (invariant_spawn _ _ _ _) Hu)
    as (_ & (_ & _ & _ & Hc & Hl) & _).
  pose proof (invariant_reachable (invariant_spawn _ _ _ _) Hd)
    as (_ & Hod & _).
  pose proof (cap_cout_reachable Hu) as Hcap. simpl in Hcap.
  rewrite Hgu in Hc. simpl in Hc. rewrite Hcap in Hl.
  split; [apply (reachable_loop Hu) |].
  split; [apply (reachable_loop Hd) |].
  split; [exact He |].
  split; [apply out_ok_open; [exact Hod | rewrite Hgd; reflexivity] |].
  split; [exact Hod |]. split; [exact Hm |].
  rewrite <- Hm. destruct (cout (upstream p)) as [cp bf sq rq cl tk].
  simpl in *. subst. destruct bf; [reflexivity | simpl in Hl; lia].
Qed.

(** One item goes through the pipe. *)
Lemma pipe_consumes_item (x : I) (rest : list I) p :
  pipe_inv u0 d0 p -> g (upstream p) = AtRange ->
  g (downstream p) = AtRange ->
  buf (cin (upstream p)) = x :: rest -> sendq (cin (upstream p)) = [] ->
  closed (cin (upstream p)) = true ->
  emits body2 (forwards body1 [x]) = [] \/
  ev_ready (eventC (downstream p)) ->
  exists n u' d',
    prun n p = mkPipe u' d' /\ g u' = AtRange /\ g d' = AtRange /\
    buf (cin u') = rest /\ sendq (cin u') = [] /\ closed (cin u') = true /\
    received u' = received (upstream p) ++ [x] /\
    sent d' = sent (downstream p) ++ forwards body2 (forwards body1 [x]) /\
    emitted d'
    = emitted (downstream p) ++ emits body2 (forwards body1 [x]) /\
    (ev_ready (eventC (downstream p)) -> ev_ready (eventC d')).
Proof.
  intros Hinv Hgu Hgd Hb Hq Hc Hev.
  destruct (pipe_at_rest Hinv Hgu Hgd) as (L1 & L2 & He & Hod & Hok & Hm & Hmid).
  destruct p as [u d].
  destruct u as [lu gu iu mu eu ru su emu].
  destruct d as [ld gd id od ed rd sd emd]. simpl in *.
  subst lu ld gu gd eu mu. rewrite Hmid in *. clear Hmid.
  destruct iu as [cpi bfi sqi rqi cli tki]. simpl in *. subst bfi sqi cli.
  pose proof (body1_quiet x) as Hquiet.
  pose proof (body2_no_crash) as Hnc. unfold crashes in Hnc.
  destruct (body1 x) as [m | | |] eqn:Hb1; try contradiction.
  - (* forwarded to the second stage *)
    specialize (Hnc m).
    destruct (body2 m) as [o | e | |] eqn:Hb2; try discriminate.
    + destruct (@psend_out_completes I M O
                  (mkPipe (mkConfig body1 AtRange
                                    (mkChan cpi rest [] rqi true (tki ++ [x]))
                                    (mkChan 0 [] [] 0 false (taken id ++ [m]))
                                    ed (ru ++ [x]) (su ++ [m]) emu)
                          (mkConfig body2 (AtSendOut o)
                                    (mkChan 0 [] [] 0 false (taken id ++ [m]))
                                    od ed (rd ++ [m]) sd emd)) o)
        as (n & d' & G0 & G1 & G2 & G3 & G4 & G5 & G6 & G7).
      * split; reflexivity.
      * exact Hok.
      * reflexivity.
      * exists (2 + n). do 2 eexists. rewrite prun_add. split.
        { rewrite <- G0. f_equal. simpl.
          unfold pcoop_step, go_step, chanrecv, handoff, park. simpl.
          rewrite Hb1. simpl. unfold go_step, chanrecv. simpl.
          rewrite Hb2. reflexivity. }
        simpl in G1, G4, G6, G7. simpl.
        rewrite ?Hb2, G1, G4, G6, G7, ?app_nil_r. auto 10.
    + assert (Hrdy : ev_ready ed).
      { destruct Hev as [Hev | Hev]; [| exact Hev].
        simpl in Hev. rewrite Hb2 in Hev. discriminate. }
      destruct (@psend_event_completes I M O
                  (mkPipe (mkConfig body1 AtRange
                                    (mkChan cpi rest [] rqi true (tki ++ [x]))
                                    (mkChan 0 [] [] 0 false (taken id ++ [m]))
                                    ed (ru ++ [x]) (su ++ [m]) emu)
                          (mkConfig body2 (AtSendEvent e)
                                    (mkChan 0 [] [] 0 false (taken id ++ [m]))
                                    od ed (rd ++ [m]) sd emd)) e)
        as (n & d' & G0 & G1 & G2 & G3 & G4 & G5 & G6 & G7 & G8).
      * split; reflexivity.
      * reflexivity.
      * exact Hrdy.
      * exists (2 + n). do 2 eexists. rewrite prun_add. split.
        { rewrite <- G0. f_equal. simpl.
          unfold pcoop_step, go_step, chanrecv, handoff, park. simpl.
          rewrite Hb1. simpl. unfold go_step, chanrecv. simpl.
          rewrite Hb2. reflexivity. }
        simpl in G1, G7, G8. simpl.
        rewrite ?Hb2, G1, G7, G8, ?app_nil_r. auto 10.
    + exists 2. do 2 eexists. split.
      * simpl. unfold pcoop_step, go_step, chanrecv, handoff, park. simpl.
        rewrite Hb1. simpl. unfold go_step, chanrecv. simpl.
        rewrite Hb2. reflexivity.
      * simpl. rewrite ?Hb1. simpl. rewrite ?Hb2, !app_nil_r. auto 10.
  - (* dropped by the first stage *)
    exists 1. do 2 eexists. split.
    + simpl. unfold pcoop_step, go_step, chanrecv. simpl.
      rewrite Hb1. reflexivity.
    + simpl. rewrite ?Hb1. simpl. rewrite !app_nil_r. auto 10.
Qed.

(** The input is closed and empty: the first goroutine closes the middle
    channel and exits, then the second closes [out] and exits, and the
    consumer drains [out]. *)
Lemma pipe_closes p :
  pipe_inv u0 d0 p -> g (upstream p) = AtRange ->
  g (downstream p) = AtRange ->
  buf (cin (upstream p)) = [] -> sendq (cin (upstream p)) = [] ->
  closed (cin (upstream p)) = true ->
  exists n,
    g (upstream (prun n p)) = Exited /\
    g (downstream (prun n p)) = Exited /\
    buf (cout (downstream (prun n p))) = [] /\
    received (upstream (prun n p)) = received (upstream p) /\
    sent (downstream (prun n p)) = sent (downstream p) /\
    emitted (downstream (prun n p)) = emitted (downstream p).
Proof.
  intros Hinv Hgu Hgd Hb Hq Hc.
  destruct (pipe_at_rest Hinv Hgu Hgd) as (L1 & L2 & He & Hod & Hok & Hm & Hmid).
  destruct p as [u d].
  destruct u as [lu gu iu mu eu ru su emu].
  destruct d as [ld gd id od ed rd sd emd]. simpl in *.
  subst lu ld gu gd eu mu. rewrite Hmid in *. clear Hmid.
  destruct iu as [cpi bfi sqi rqi cli tki]. simpl in *. subst bfi sqi cli.
  destruct od as [cpo bfo sqo rqo clo tko]. simpl in *. subst clo.
  destruct (@pdrain_completes I M O bfo
              (mkPipe (mkConfig body1 Exited (mkChan cpi [] [] rqi true tki)
                                (mkChan 0 [] [] 0 true (taken id))
                                ed ru su emu)
                      (mkConfig body2 Exited
                                (mkChan 0 [] [] 0 true (taken id))
                                (mkChan cpo bfo [] 0 true tko)
                                ed rd sd emd)))
    as (n & G0 & G1 & G2 & G3 & G4 & G5); try reflexivity.
  exists (2 + n). rewrite prun_add.
  replace (prun 2 _) with
    (mkPipe (mkConfig body1 Exited (mkChan cpi [] [] rqi true tki)
                      (mkChan 0 [] [] 0 true (taken id))
                      ed ru su emu)
            (mkConfig body2 Exited
                      (mkChan 0 [] [] 0 true (taken id))
                      (mkChan cpo bfo [] 0 true tko)
                      ed rd sd emd)).
  - rewrite G0, G1, G2, G4, G5. simpl. auto 10.
  - reflexivity.
Qed.

(** On a closed input that holds [xs] the pipe and a cooperative
    environment reach the end. *)
Lemma pipe_run_completes (xs : list I) p :
  pipe_inv u0 d0 p -> g (upstream p) = AtRange ->
  g (downstream p) = AtRange ->
  buf (cin (upstream p)) = xs -> sendq (cin (upstream p)) = [] ->
  closed (cin (upstream p)) = true ->
  emits body2 (forwards body1 xs) = [] \/
  ev_ready (eventC (downstream p)) ->
  exists n,
    g (upstream (prun n p)) = Exited /\
    g (downstream (prun n p)) = Exited /\
    buf (cout (downstream (prun n p))) = [] /\
    received (upstream (prun n p)) = received (upstream p) ++ xs /\
    sent (downstream (prun n p))
    = sent (downstream p) ++ forwards body2 (forwards body1 xs) /\
    emitted (downstream (prun n p))
    = emitted (downstream p) ++ emits body2 (forwards body1 xs).
Proof.
  revert p. induction xs as [| x rest IH]; intros p Hinv Hgu Hgd Hb Hq Hc Hev.
  - destruct (pipe_closes Hinv Hgu Hgd Hb Hq Hc)
      as (n & G1 & G2 & G3 & G4 & G5 & G6).
    exists n. simpl. rewrite !app_nil_r. auto 10.
  - assert (Hsplit : forwards body1 (x :: rest)
                     = forwards body1 [x] ++ forwards body1 rest).
    { simpl. destruct (body1 x); reflexivity. }
    assert (Hf2 : forall l1 l2, forwards body2 (l1 ++ l2)
                                = forwards body2 l1 ++ forwards body2 l2).
    { induction l1 as [| y l1 IH1]; intros l2; simpl; [reflexivity |].
      rewrite IH1. destruct (body2 y); reflexivity. }
    assert (He2 : forall l1 l2, emits body2 (l1 ++ l2)
                                = emits body2 l1 ++ emits body2 l2).
    { induction l1 as [| y l1 IH1]; intros l2; simpl; [reflexivity |].
      rewrite IH1. destruct (body2 y); reflexivity. }
    rewrite Hsplit, Hf2, He2 in *.
    destruct (@pipe_consumes_item x rest p Hinv Hgu Hgd Hb Hq Hc)
      as (n1 & u' & d' & Hrun & A1 & A2 & A3 & A4 & A5 & A6 & A7 & A8 & A9).
    { destruct Hev as [Hev | Hev]; [left | right; exact Hev].
      apply app_eq_nil in Hev. apply Hev. }
    destruct (IH (mkPipe u' d')) as (n2 & F1 & F2 & F3 & F4 & F5 & F6);
      try assumption.
    + rewrite <- Hrun.
      eapply pipe_inv_preachable;
        [reflexivity | reflexivity | exact Hinv | apply prun_preachable].
    + destruct Hev as [Hev | Hev]; [left | right; apply A9; exact Hev].
      apply app_eq_nil in Hev. apply Hev.
    + exists (n1 + n2). rewrite prun_add, Hrun, F1, F2, F3, F4, F5, F6.
      simpl. rewrite A6, A7, A8, <- !app_assoc. auto 10.
Qed.

End PipeCompletion.

(** ** FilterMap against Filter followed by Map *)

Lemma reword_failures (I O : Type) (m m' : string) (f : MapFunc I O)
      (xs : list I) :
  map (reword m') (failures m f xs) = failures m' f xs.
Proof. unfold failures. rewrite map_map. reflexivity. Qed.

(** The pipe Filter(p) then Map(f), when its second goroutine has exited:
    the first has exited too, on an input that is closed and empty, and
    what the pipe sent and reported is what FilterMap(p, f) computes. *)
Lemma Filter_then_Map_exited
      (I O : Type) (p : PredicateFunc I) (f : MapFunc I O)
      (input : chan I) (ev : option (chan Event)) (q : pipe I I O) :
  preachable (pipe_of (Filter_Transform (mkFilter (Some p)))
                      (Map_Transform (mkMap (Some f))) input ev) q ->
  emitted (upstream q) = [] /\
  (g (downstream q) = Exited ->
   g (upstream q) = Exited /\ exhausted (cin (upstream q)) /\
   closed (cout (downstream q)) = true /\
   received (downstream q) = filter p (received (upstream q)) /\
   sent (downstream q) = images f (filter p (received (upstream q))) /\
   emitted (downstream q)
   = failures "map transform error" f (filter p (received (upstream q)))).
Proof.
  intros Hq.
  destruct (@pipe_inv_reachable I I O 0 0 (Filter_body (mkFilter (Some p)))
              (Map_body (mkMap (Some f))) input ev q Hq)
    as (((Hm & _) & _ & _ & Ht) & Hu & Hd).
  destruct (quiet_stage (Filter_body_quiet p) Hu) as (Hp & _ & He).
  split; [exact He |]. intros Hg.
  destruct (transforming_stage _ _ (Map_body_forwards f)
                               (Map_body_no_crash f) Hd)
    as (_ & _ & _ & Hex).
  destruct (Hex Hg) as ((X1 & X2 & X3) & D2 & D3 & D4).
  destruct (stage_safety Hu) as (Hh & Htk & Hc & Hi).
  rewrite Hm, X1 in Hc. rewrite Hm, X2, app_nil_r, <- Hm, Ht in Htk.
  assert (Hgu : g (upstream q) = Exited).
  { destruct (g (upstream q)); try discriminate; [reflexivity |].
    exfalso. apply Hp. reflexivity. }
  destruct (Hh Hp) as [Hf _].
  rewrite (proj1 (Filter_body_forwards p _)), Hgu in Hf. simpl in Hf.
  rewrite app_nil_r, <- Htk in Hf.
  split; [exact Hgu |]. split; [apply Hi; exact Hgu |].
  split; [exact D2 |]. split; [auto |].
  rewrite D3, D4, Hf. auto.
Qed.

(** C4: FilterMap(p, f) does in one goroutine what Filter(p) followed by
    Map(f) does in two.  Take any state the FilterMap stage can reach and
    any state the pipe of the two stages can reach, each under any
    interleaving with its environment, in which the goroutine that writes to
    the final output has exited and both have received the same input.
    Then the two have sent the same values, in the same order, and the same
    ErrorEvents up to the message text; the Filter goroutine has sent no
    event; and both outputs are closed.  On a closed input that holds [xs],
    with an event stream that takes events (or with no failing item) and
    cooperative readers, both runs end, and the consumers have taken the
    same values. *)
Theorem FilterMap_is_Filter_then_Map
        (I O : Type) (p : PredicateFunc I) (f : MapFunc I O)
        (input : chan I) (ev : option (chan Event)) (xs : list I) :
  (forall (c : config I O) (q : pipe I I O),
      reachable (FilterMap_Transform (mkFilterMap (Some p) (Some f)) input ev)
                c ->
      preachable (pipe_of (Filter_Transform (mkFilter (Some p)))
                          (Map_Transform (mkMap (Some f))) input ev) q ->
      g c = Exited -> g (downstream q) = Exited ->
      received c = received (upstream q) ->
      sent c = sent (downstream q) /\
      map (reword "map transform error") (emitted c)
      = emitted (downstream q) /\
      emitted (upstream q) = [] /\
      g (upstream q) = Exited /\
      closed (cout c) = true /\ closed (cout (downstream q)) = true) /\
  (filter (fails f) (filter p xs) = [] \/ ev_ready ev ->
   exists n, forall m, n <= m ->
     let c := run m (FilterMap_Transform (mkFilterMap (Some p) (Some f))
                                         (loaded xs) ev) in
     let q := prun m (pipe_of (Filter_Transform (mkFilter (Some p)))
                              (Map_Transform (mkMap (Some f)))
                              (loaded xs) ev) in
     g c = Exited /\ g (upstream q) = Exited /\ g (downstream q) = Exited /\
     received c = xs /\ received (upstream q) = xs /\
     sent c = images f (filter p xs) /\
     sent (downstream q) = images f (filter p xs) /\
     taken (cout c) = taken (cout (downstream q)) /\
     emitted c = failures "filtermap error transforming data" f (filter p xs) /\
     emitted (downstream q)
     = failures "map transform error" f (filter p xs)).
Proof.
  split.
  - intros c q Hc Hq Hgc Hgq Hrec.
    destruct (Filter_then_Map_exited Hq) as (He & Hex).
    destruct (Hex Hgq) as (Q1 & _ & Q3 & _ & Q5 & Q6).
    unfold FilterMap_Transform in Hc.
    destruct (transforming_stage _ _ (FilterMap_body_forwards f p)
                                 (FilterMap_body_no_crash f p) Hc)
      as (_ & _ & _ & Hx).
    destruct (Hx Hgc) as (_ & C2 & C3 & C4).
    rewrite C3, C4, Q5, Q6, Hrec, reword_failures. auto 10.
  - intros Hev.
    destruct (@transforming_stage_completes
                I O _ _ _ (FilterMap_body_forwards f p)
                (FilterMap_body_no_crash f p) xs ev)
      as (n1 & H1).
    { destruct Hev as [Hev | Hev]; [left | right; exact Hev].
      unfold failures. rewrite Hev. reflexivity. }
    set (p0 := pipe_of (Filter_Transform (mkFilter (Some p)))
                       (Map_Transform (mkMap (Some f))) (loaded xs) ev).
    destruct (@pipe_run_completes
                I I O 0 (Filter_body (mkFilter (Some p)))
                (Map_body (mkMap (Some f))) (loaded xs) ev
                (Filter_body_quiet p) (Map_body_no_crash f) xs p0)
      as (n2 & G1 & G2 & G3 & G4 & G5 & G6); try reflexivity.
    { apply pipe_inv_start. }
    { rewrite (proj1 (Filter_body_forwards p xs)).
      rewrite (proj2 (Map_body_forwards f _)).
      destruct Hev as [Hev | Hev]; [left | right; exact Hev].
      unfold failures. rewrite Hev. reflexivity. }
    rewrite (proj1 (Filter_body_forwards p xs)) in G5, G6.
    rewrite (proj1 (Map_body_forwards f _)) in G5.
    rewrite (proj2 (Map_body_forwards f _)) in G6.
    simpl in G4, G5, G6.
    exists (n1 + n2). intros m Hm.
    destruct (H1 m) as (F1 & F2 & F3 & F4 & F5 & F6 & F7); [lia |].
    assert (Hrun : prun m p0 = prun n2 p0).
    { replace m with (n2 + (m - n2)) by lia. rewrite prun_add.
      apply settled_prun; assumption. }
    cbv zeta. unfold FilterMap_Transform. rewrite Hrun.
    destruct (@pipe_inv_reachable I I O 0 0 (Filter_body (mkFilter (Some p)))
                (Map_body (mkMap (Some f))) (loaded xs) ev (prun n2 p0)
                (prun_preachable n2 p0))
      as (_ & _ & Hd).
    destruct (stage_safety Hd) as (_ & Ht & _).
    rewrite G3, app_nil_r in Ht.
    simpl in F1, F2, F3, F4, F5. rewrite F1, F2, F3, F4, F5, Ht, G1, G2, G4, G5, G6.
    auto 10.
Qed.

(** ** The theorems at concrete inputs *)

Lemma ev_ready_make_chan (n : nat) : ev_ready (Some (make_chan n)).
Proof.
  exists (make_chan n). simpl. repeat split; auto. apply Nat.le_0_l.
Defined.

Lemma FilterMap_is_Filter_then_Map_witness :
  exists n, forall m, n <= m ->
    sent (run m (FilterMap_Transform
                   (mkFilterMap (Some Nat.even) (Some (fail_on 4)))
                   (loaded [1; 2; 3; 4; 5; 6]) (Some (make_chan 0))))
    = [2; 6] /\
    sent (downstream
            (prun m (pipe_of (Filter_Transform (mkFilter (Some Nat.even)))
                             (Map_Transform (mkMap (Some (fail_on 4))))
                             (loaded [1; 2; 3; 4; 5; 6])
                             (Some (make_chan 0)))))
    = [2; 6].
Proof.
  destruct (@FilterMap_is_Filter_then_Map
              nat nat Nat.even (fail_on 4) (make_chan 0) (Some (make_chan 0))
              [1; 2; 3; 4; 5; 6]) as [_ H].
  destruct H as (n & Hn).
  - right. apply ev_ready_make_chan.
  - exists n. intros m Hm.
    destruct (Hn m Hm) as (_ & _ & _ & _ & _ & S1 & S2 & _).
    split; [exact S1 | exact S2].
Defined.

Lemma Map_FilterMap_drop_and_report_failures_witness :
  exists n, forall m, n <= m ->
    let c := run m (Map_Transform (mkMap (Some (fail_on 3)))
                                  (loaded [1; 2; 3; 4]) (Some (make_chan 1))) in
    g c = Exited /\ sent c = [1; 2; 4] /\
    emitted c = [NewErrorEvent "map transform error"
                               (Some (errors_New "bad item")) true].
Proof.
  destruct (@Map_FilterMap_drop_and_report_failures
              nat nat Nat.even (fail_on 3) (make_chan 0) (Some (make_chan 1))
              [1; 2; 3; 4]) as (_ & _ & _ & H).
  destruct H as (n & Hn).
  - right. apply ev_ready_make_chan.
  - exists n. intros m Hm.
    destruct (Hn m Hm) as ((G1 & _ & G2 & G3 & _) & _).
    split; [exact G1 |]. split; [exact G2 | exact G3].
Defined.

Lemma Filter_forwards_matching_items_witness :
  exists n, forall m, n <= m ->
    let c := run m (Filter_Transform (fst (NewFilter (Some Nat.even)))
                                     (loaded [1; 2; 3; 4]) None) in
    g c = Exited /\ sent c = [2; 4] /\ emitted c = [].
Proof.
  destruct (@Filter_forwards_matching_items
              nat Nat.even (make_chan 0) None [1; 2; 3; 4]) as (_ & n & Hn).
  exists n. intros m Hm.
  destruct (Hn m Hm) as (G1 & _ & G2 & _ & G3 & _).
  split; [exact G1 |]. split; [exact G2 | exact G3].
Defined.

(** * Further properties of the flows *)

(** ** The capacity of a Buffer *)

Lemma NewBuffer_max (I : Type) (k : Z) :
  Buffer_size (NewBuffer I k) = Z.max 1 k.
Proof.
  rewrite NewBuffer_size. destruct (k <=? 0)%Z eqn:E.
  - apply Z.leb_le in E. lia.
  - apply Z.leb_gt in E. lia.
Qed.

Lemma Buffer_Transform_NewBuffer (I : Type) (k : Z) (input : chan I)
      (ev : option (chan Event)) :
  Buffer_Transform (NewBuffer I k) input ev
  = Returns (spawn (Z.to_nat (Z.max 1 k)) (@Buffer_body I) input ev).
Proof.
  unfold Buffer_Transform. rewrite NewBuffer_max.
  destruct (Z.max 1 k <? 0)%Z eqn:E; [| reflexivity].
  apply Z.ltb_lt in E. lia.
Qed.

(** What the goroutine has sent and the consumer has not yet taken fits in
    the buffer of [out]. *)
Lemma stage_backpressure (I O : Type) (k : nat) (body : I -> effect O)
      (input : chan I) (ev : option (chan Event)) (c : config I O) :
  reachable (spawn k body input ev) c ->
  length (sent c) <= length (taken (cout c)) + k /\
  length (buf (cout c)) <= k.
Proof.
  intros Hr.
  pose proof (invariant_reachable (invariant_spawn k body input ev) Hr)
    as (_ & (_ & _ & Ht & _ & Hl) & _).
  pose proof (cap_cout_reachable Hr) as Hc. simpl in Hc.
  rewrite <- Ht, length_app. lia.
Qed.

(** X1: a Buffer never runs ahead of its consumer by more than its capacity
    and the one item in hand.  [Transform] of [NewBuffer(size)] never
    panics, whatever the size: [out] has capacity max(1, size).  In every
    state the started stage can reach, under any interleaving, at most that
    many values wait in [out], and the goroutine has received at most that
    many plus one items more than the consumer has taken. *)
Theorem Buffer_bounded_lookahead
        (I : Type) (k : Z) (input : chan I) (ev : option (chan Event)) :
  exists c0 : config I I,
    Buffer_Transform (NewBuffer I k) input ev = Returns c0 /\
    cap (cout c0) = Z.to_nat (Z.max 1 k) /\
    1 <= cap (cout c0) /\
    forall c : config I I,
      reachable c0 c ->
      length (buf (cout c)) <= cap (cout c0) /\
      length (received c) <= length (taken (cout c)) + cap (cout c0) + 1.
Proof.
  exists (spawn (Z.to_nat (Z.max 1 k)) (@Buffer_body I) input ev).
  split; [apply Buffer_Transform_NewBuffer |].
  split; [reflexivity |]. split; [simpl; lia |].
  intros c Hr.
  destruct (stage_backpressure Hr) as [H1 H2].
  destruct (identity_stage Hr) as (Hrec & _).
  simpl. split; [exact H2 |].
  rewrite Hrec, length_app.
  destruct (g c); simpl; lia.
Qed.

(** ** A Buffer whose consumer is away *)

Section Absorb.
Variable I : Type.

Lemma go_run_stuck (O : Type) (m : nat) (c : config I O) :
  go_step c = None -> go_run m c = c.
Proof. destruct m; simpl; [reflexivity | intros ->; reflexivity]. Qed.

Lemma go_run_add (O : Type) (n m : nat) (c : config I O) :
  go_run (n + m) c = go_run m (go_run n c).
Proof.
  revert c. induction n as [| n IH]; intros c; simpl; [reflexivity |].
  destruct (go_step c) eqn:E; [apply IH |].
  symmetry. apply go_run_stuck. exact E.
Qed.

(** The goroutine of a Buffer whose [out] holds [b], in front of a closed
    input that holds [items]: it moves items into [out] while there is room,
    then parks with one item in hand, or exits when the input runs out. *)
Lemma Buffer_fills (n : nat) (items : list I) :
  forall (b : list I) (cp rq : nat) (tk tko : list I)
         (ev : option (chan Event)) (rcv snt : list I) (emt : list Event),
    length b <= n ->
    exists fuel,
      let c' := go_run fuel
                  (mkConfig (@Buffer_body I) AtRange
                            (mkChan cp items [] rq true tk)
                            (mkChan n b [] 0 false tko) ev rcv snt emt) in
      go_step c' = None /\
      received c' = rcv ++ firstn (S (n - length b)) items /\
      buf (cout c') = b ++ firstn (n - length b) items /\
      taken (cout c') = tko /\
      (length items <= n - length b ->
       g c' = Exited /\ closed (cout c') = true) /\
      (n - length b < length items ->
       exists v, g c' = AtSendOut v /\
                 nth_error items (n - length b) = Some v /\
                 closed (cout c') = false).
Proof.
  induction items as [| x r IH]; intros b cp rq tk tko ev rcv snt emt Hb.
  - exists 1. simpl. rewrite !firstn_nil, !app_nil_r.
    split; [reflexivity |]. split; [reflexivity |]. split; [reflexivity |].
    split; [reflexivity |]. split; [auto |]. intros H. lia.
  - destruct (Nat.ltb (length b) n) eqn:E.
    + apply Nat.ltb_lt in E.
      destruct (IH (b ++ [x]) cp rq (tk ++ [x]) tko ev (rcv ++ [x])
                   (snt ++ [x]) emt) as (fuel & G).
      { rewrite length_app. simpl. lia. }
      exists (2 + fuel). rewrite go_run_add.
      replace (go_run 2 _) with
        (mkConfig (@Buffer_body I) AtRange
                  (mkChan cp r [] rq true (tk ++ [x]))
                  (mkChan n (b ++ [x]) [] 0 false tko) ev (rcv ++ [x])
                  (snt ++ [x]) emt).
      2:{ simpl. unfold go_step, chanrecv, chan_send. simpl.
          apply Nat.ltb_lt in E. rewrite E. reflexivity. }
      cbv zeta in G |- *.
      destruct G as (G1 & G2 & G3 & G4 & G5 & G6).
      rewrite length_app in G2, G3, G5, G6. simpl in G2, G3, G5, G6.
      replace (n - length b) with (S (n - (length b + 1))) by lia.
      split; [exact G1 |].
      split; [rewrite G2, <- app_assoc; reflexivity |].
      split; [rewrite G3, <- app_assoc; reflexivity |].
      split; [exact G4 |]. split.
      * intros H. apply G5. simpl in H. lia.
      * intros H. simpl. apply G6. simpl in H. lia.
    + apply Nat.ltb_ge in E. assert (Hn : length b = n) by lia.
      exists 1. simpl. unfold go_step, chanrecv, chan_send. simpl.
      assert (E' : (length b <? n) = false) by (apply Nat.ltb_ge; lia).
      rewrite E'. simpl.
      replace (n - length b) with 0 by lia. simpl. rewrite app_nil_r.
      split; [reflexivity |]. split; [reflexivity |]. split; [reflexivity |].
      split; [reflexivity |]. split; [intros H; lia |].
      intros _. exists x. auto.
Qed.

End Absorb.

(** X2: a Buffer takes items off its producer while its consumer is away.
    With nobody reading [out], the goroutine of [NewBuffer(size)] in front
    of a closed input that holds [xs] runs until it has moved the first
    max(1, size) items into [out]; then it parks holding the next one, or,
    when [xs] is no longer than that, it closes [out] and exits.  A
    Passthrough parks holding the first item. *)
Theorem Buffer_absorbs_while_consumer_is_away
        (I : Type) (k : Z) (xs : list I) (ev : option (chan Event)) :
  exists (c0 : config I I) (fuel : nat),
    Buffer_Transform (NewBuffer I k) (loaded xs) ev = Returns c0 /\
    forall m, fuel <= m ->
      (let c := go_run m c0 in
       let n := Z.to_nat (Z.max 1 k) in
       go_step c = None /\
       buf (cout c) = firstn n xs /\ taken (cout c) = [] /\
       received c = firstn (S n) xs /\
       (length xs <= n -> g c = Exited /\ closed (cout c) = true) /\
       (n < length xs ->
        exists v, g c = AtSendOut v /\ nth_error xs n = Some v /\
                  closed (cout c) = false)) /\
      (let c := go_run m (Passthrough_Transform (NewPassthrough I)
                                                (loaded xs) ev) in
       go_step c = None /\ buf (cout c) = [] /\ received c = firstn 1 xs).
Proof.
  destruct (@Buffer_fills I (Z.to_nat (Z.max 1 k)) xs [] (length xs) 0 [] []
                          ev [] [] []) as (f1 & G); [simpl; lia |].
  destruct (@Buffer_fills I 0 xs [] (length xs) 0 [] [] ev [] [] [])
    as (f2 & P); [simpl; lia |].
  exists (spawn (Z.to_nat (Z.max 1 k)) (@Buffer_body I) (loaded xs) ev),
         (f1 + f2).
  split; [apply Buffer_Transform_NewBuffer |].
  intros m Hm. cbv zeta in G, P |- *.
  simpl length in G, P. rewrite Nat.sub_0_r in G. simpl in P.
  destruct G as (G1 & G2 & G3 & G4 & G5 & G6).
  destruct P as (P1 & P2 & P3 & _).
  split.
  - replace m with (f1 + (m - f1)) by lia. rewrite go_run_add.
    unfold spawn, loaded, make_chan.
    rewrite (go_run_stuck (m - f1) _ G1). simpl in G2, G3. auto 10.
  - replace m with (f2 + (m - f2)) by lia. rewrite go_run_add.
    unfold Passthrough_Transform, spawn, loaded, make_chan.
    change (@Passthrough_body I) with (@Buffer_body I).
    rewrite (go_run_stuck (m - f2) _ P1). simpl. auto.
Qed.

(** ** A stage whose constructor failed *)

Section Crashing.
Variables I O : Type.
Variable body : I -> effect O.
Hypothesis body_crashes : forall x, body x = Crash.

Lemma run_panicked (m : nat) (c : config I O) :
  g c = Panicked -> run m c = c.
Proof.
  intros Hg. induction m as [| m IH]; simpl; [reflexivity |].
  unfold coop_step, go_step. rewrite Hg. exact IH.
Qed.

(** The goroutine of a stage whose func is nil forwards nothing: it
    panics on the first item it receives, and the deferred [close(out)]
    runs. *)
Lemma crashing_stage (k : nat) (input : chan I) (ev : option (chan Event))
      (c : config I O) :
  reachable (spawn k body input ev) c ->
  sent c = [] /\ emitted c = [] /\
  taken (cout c) = [] /\ buf (cout c) = [] /\
  (((g c = AtRange \/ g c = Exited) /\ received c = []) \/
   (g c = Panicked /\ closed (cout c) = true /\ exists x, received c = [x])).
Proof.
  intros Hr.
  assert (H : loop c = body /\ sent c = [] /\ emitted c = [] /\
              (((g c = AtRange \/ g c = Exited) /\ received c = []) \/
               (g c = Panicked /\ exists x, received c = [x]))).
  { induction Hr as [| c c' Hr IH Hs].
    - simpl. auto 10.
    - destruct IH as (Hl & Hsn & Hem & Hg).
      pose proof (stage_safety Hr) as (_ & _ & Hcl & _).
      destruct Hs as [c c' Hgo | | | | | |]; simpl; auto.
      unfold go_step in Hgo.
      destruct Hg as [[[Hg | Hg] Hrc] | [Hg _]]; rewrite Hg in *;
        try discriminate.
      destruct (chanrecv (cin c)) as [v in' | |]; try discriminate;
        injection Hgo as <-.
      + rewrite Hl, body_crashes. unfold leave, close_chan. simpl.
        rewrite Hcl. simpl. rewrite Hrc. split; [reflexivity |].
        split; [exact Hsn |]. split; [exact Hem |]. right.
        split; [reflexivity | exists v; reflexivity].
      + unfold leave, close_chan. rewrite Hcl. simpl. auto 10. }
  destruct H as (_ & Hsn & Hem & Hg).
  pose proof (stage_safety Hr) as (_ & Htk & Hcl & _).
  rewrite Hsn in Htk. apply app_eq_nil in Htk. destruct Htk as [Ht Hb].
  split; [exact Hsn |]. split; [exact Hem |]. split; [exact Ht |].
  split; [exact Hb |].
  destruct Hg as [Hg | [Hg Hx]]; [left; exact Hg | right].
  rewrite Hcl, Hg. auto.
Qed.

Lemma crashing_stage_run (k : nat) (x : I) (xs : list I)
      (ev : option (chan Event)) (m : nat) :
  1 <= m ->
  let c := run m (spawn k body (loaded (x :: xs)) ev) in
  g c = Panicked /\ received c = [x] /\ sent c = [] /\
  closed (cout c) = true.
Proof.
  intros Hm. destruct m as [| m]; [lia |]. cbv zeta.
  change (run (S m) (spawn k body (loaded (x :: xs)) ev))
    with (run m (coop_step (spawn k body (loaded (x :: xs)) ev))).
  assert (E : coop_step (spawn k body (loaded (x :: xs)) ev)
              = mkConfig body Panicked
                         (mkChan (length (x :: xs)) xs [] 0 true [x])
                         (mkChan k [] [] 0 true []) ev [x] [] []).
  { unfold coop_step, go_step, chanrecv. simpl. rewrite body_crashes.
    reflexivity. }
  rewrite E, run_panicked by reflexivity. simpl. auto.
Qed.

End Crashing.

(** X3: a Filter or FilterMap that its constructor returned together with
    an error is the zero value, and using it anyway forwards nothing.  In
    every state the started stage can reach it has sent no value and no
    event, and it has either received nothing or panicked on its first item,
    [out] closed by the deferred call.  On a closed input that holds at
    least one item it panics at once. *)
Theorem failed_constructor_stage_panics
        (I O : Type) (p : option (PredicateFunc I))
        (t : option (MapFunc I O)) (input : chan I)
        (ev : option (chan Event)) :
  snd (NewFilter (@None (PredicateFunc I))) <> None /\
  (p = None \/ t = None -> snd (NewFilterMap p t) <> None) /\
  (forall c : config I I,
      reachable (Filter_Transform (fst (NewFilter None)) input ev) c ->
      sent c = [] /\ emitted c = [] /\ taken (cout c) = [] /\
      (received c = [] \/
       g c = Panicked /\ closed (cout c) = true /\
       exists x, received c = [x])) /\
  (forall c : config I O,
      p = None \/ t = None ->
      reachable (FilterMap_Transform (fst (NewFilterMap p t)) input ev) c ->
      sent c = [] /\ emitted c = [] /\ taken (cout c) = [] /\
      (received c = [] \/
       g c = Panicked /\ closed (cout c) = true /\
       exists x, received c = [x])) /\
  (forall (x : I) (xs : list I) (m : nat),
      1 <= m ->
      g (run m (Filter_Transform (fst (NewFilter None))
                                 (loaded (x :: xs)) ev)) = Panicked /\
      (p = None \/ t = None ->
       g (run m (FilterMap_Transform (fst (NewFilterMap p t))
                                     (loaded (x :: xs)) ev)) = Panicked)).
Proof.
  assert (Hz : p = None \/ t = None ->
               NewFilterMap p t
               = (mkFilterMap None None, snd (NewFilterMap p t)) /\
               snd (NewFilterMap p t) <> None).
  { intros [-> | ->]; simpl; [split; [reflexivity | discriminate] |].
    destruct p; simpl; split; (reflexivity || discriminate). }
  split; [simpl; discriminate |].
  split; [intros H; apply Hz; exact H |].
  split; [| split].
  - intros c Hr. simpl in Hr.
    destruct (@crashing_stage I I (Filter_body (mkFilter None))
                (fun _ => eq_refl) 0 input ev c Hr)
      as (H1 & H2 & H3 & _ & [[_ H4] | H4]); auto 10.
  - intros c Hp Hr. destruct (Hz Hp) as [E _]. rewrite E in Hr. simpl in Hr.
    destruct (@crashing_stage I O (FilterMap_body (mkFilterMap None None))
                (fun _ => eq_refl) 0 input ev c Hr)
      as (H1 & H2 & H3 & _ & [[_ H4] | H4]); auto 10.
  - intros x xs m Hm. split.
    + apply (@crashing_stage_run I I (Filter_body (mkFilter None))
               (fun _ => eq_refl) 0 x xs ev m Hm).
    + intros Hp. destruct (Hz Hp) as [E _]. rewrite E. simpl fst.
      apply (@crashing_stage_run I O (FilterMap_body (mkFilterMap None None))
               (fun _ => eq_refl) 0 x xs ev m Hm).
Qed.

(** ** Any two stages in a row *)

Lemma forwards_app (A B : Type) (body : A -> effect B) (l1 l2 : list A) :
  forwards body (l1 ++ l2) = forwards body l1 ++ forwards body l2.
Proof.
  induction l1 as [| y l1 IH]; simpl; [reflexivity |].
  rewrite IH. destruct (body y); reflexivity.
Qed.

Lemma emits_app (A B : Type) (body : A -> effect B) (l1 l2 : list A) :
  emits body (l1 ++ l2) = emits body l1 ++ emits body l2.
Proof.
  induction l1 as [| y l1 IH]; simpl; [reflexivity |].
  rewrite IH. destruct (body y); reflexivity.
Qed.

(** X4: two stages in a row compute the composition of what each computes,
    whatever the stages, their buffers and the interleaving.  In every
    state the pipe can reach, the second goroutine has received exactly what
    the first has sent, less what waits in the channel between them; while
    neither has panicked, what the pipe has sent is an initial part of the
    second closure run over the output of the first; and once the second
    goroutine has exited, the first not having panicked, the first has
    exited too, on an exhausted input, the output is closed and complete,
    and each goroutine has sent the events of its own closure. *)
Theorem stages_in_a_row_compose
        (I M O : Type) (k1 k2 : nat) (body1 : I -> effect M)
        (body2 : M -> effect O) (input : chan I) (ev : option (chan Event))
        (q : pipe I M O) :
  preachable (pipe_of (spawn k1 body1) (spawn k2 body2) input ev) q ->
  sent (upstream q) = received (downstream q) ++ buf (cout (upstream q)) /\
  (g (upstream q) <> Panicked -> g (downstream q) <> Panicked ->
   exists later : list O,
     forwards body2 (forwards body1 (received (upstream q)))
     = sent (downstream q) ++ later) /\
  (g (downstream q) = Exited -> g (upstream q) <> Panicked ->
   g (upstream q) = Exited /\ exhausted (cin (upstream q)) /\
   closed (cout (downstream q)) = true /\
   received (downstream q) = forwards body1 (received (upstream q)) /\
   sent (downstream q)
   = forwards body2 (forwards body1 (received (upstream q))) /\
   emitted (upstream q) = emits body1 (received (upstream q)) /\
   emitted (downstream q)
   = emits body2 (forwards body1 (received (upstream q)))).
Proof.
  intros Hq.
  destruct (@pipe_inv_reachable I M O k1 k2 body1 body2 input ev q Hq)
    as (((Hm & _) & _ & _ & Ht) & Hu & Hd).
  destruct (stage_safety Hu) as (Hhu & Htu & Hcu & Hiu).
  destruct (stage_safety Hd) as (Hhd & Htd & Hcd & Hid).
  rewrite Ht in Htu.
  split; [symmetry; exact Htu |]. split.
  - intros Hpu Hpd. destruct (Hhu Hpu) as [Hfu _].
    destruct (Hhd Hpd) as [Hfd _].
    rewrite Hfu, <- Htu, <- app_assoc, forwards_app, Hfd, <- app_assoc.
    eauto.
  - intros Hgd Hpu. destruct (Hid Hgd) as (X1 & X2 & X3).
    rewrite <- Hm in X1, X2. rewrite X1 in Hcu. rewrite X2, app_nil_r in Htu.
    assert (Hgu : g (upstream q) = Exited).
    { destruct (g (upstream q)); try discriminate; [reflexivity |].
      exfalso. apply Hpu. reflexivity. }
    destruct (Hhu Hpu) as [Hfu Heu].
    assert (Hpd : g (downstream q) <> Panicked) by (rewrite Hgd; discriminate).
    destruct (Hhd Hpd) as [Hfd Hed].
    rewrite Hgu in Hfu, Heu. rewrite Hgd in Hfd, Hed, Hcd.
    simpl in Hfu, Heu, Hfd, Hed, Hcd. rewrite app_nil_r in *.
    rewrite Hfu, <- Htu.
    split; [exact Hgu |]. split; [apply Hiu; exact Hgu |]. auto 10.
Qed.

(** ** Two stages in a row: completion for any first stage without a buffer *)

Section PipeCompletes.
Variables I M O : Type.
Variables (k2 : nat) (body1 : I -> effect M) (body2 : M -> effect O).
Variables (input0 : chan I) (ev0 : option (chan Event)).
Hypothesis body1_no_crash : forall x, crashes body1 x = false.
Hypothesis body2_no_crash : forall x, crashes body2 x = false.
Implicit Types (p : pipe I M O).

Local Abbreviation u0 := (spawn 0 body1 input0 ev0).
Local Abbreviation d0 := (spawn k2 body2 (make_chan 0) ev0).

(** The first goroutine, parked on a ready event stream while the second
    waits for it, gets its event through. *)
Lemma psend_event_up_completes (u : config I M) (d : config M O)
      (e : Event) :
  connected (mkPipe u d) -> g u = AtSendEvent e -> g d = AtRange ->
  go_step d = None -> ev_ready (eventC u) ->
  exists n u', prun n (mkPipe u d) = mkPipe u' (with_eventC d (eventC u')) /\
    g u' = AtRange /\ loop u' = loop u /\
    cin u' = cin u /\ cout u' = cout u /\
    ev_ready (eventC u') /\
    received u' = received u /\ sent u' = sent u /\
    emitted u' = emitted u ++ [e].
Proof.
  intros [Hm He] Hg Hgd Hd (ch & Hev & Hc & Hq & Hl). simpl in Hm, He.
  destruct (chan_send ch e true) as [[ok ch'] | |] eqn:Hs.
  - exists 1, (mkConfig (loop u) AtRange (cin u) (cout u) (Some ch')
                         (received u) (sent u) (emitted u ++ [e])).
    simpl. unfold pcoop_step. simpl. rewrite Hd, Hgd.
    unfold go_step at 1. rewrite Hg, Hev. unfold chansend. rewrite Hs.
    unfold up_moved. simpl.
    split; [refine (f_equal2 (@mkPipe I M O) eq_refl _);
            rewrite Hm, with_cin_same; reflexivity |].
    repeat split; auto.
    exists ch'. split; [reflexivity |]. eapply chan_send_ready; eauto.
  - destruct (env_recv_makes_room ch e Hc Hq Hl Hs) as (ch' & Hs' & Hr').
    exists 2, (mkConfig (loop u) AtRange (cin u) (cout u) (Some ch')
                         (received u) (sent u) (emitted u ++ [e])).
    change (prun 2 (mkPipe u d))
      with (pcoop_step (pcoop_step (mkPipe u d))).
    assert (H1 : pcoop_step (mkPipe u d)
                 = with_stream (mkPipe u d) (Some (env_recv ch))).
    { unfold pcoop_step. simpl. rewrite Hd, Hgd.
      unfold go_step. rewrite Hg, Hev. unfold chansend. rewrite Hs.
      rewrite <- He, Hev. reflexivity. }
    rewrite H1. unfold with_stream. simpl.
    unfold pcoop_step. simpl.
    rewrite go_step_without_event by (rewrite Hgd; reflexivity).
    rewrite Hd, Hgd. simpl.
    unfold go_step at 1. simpl. rewrite Hg. unfold chansend. rewrite Hs'.
    unfold up_moved. simpl.
    split; [refine (f_equal2 (@mkPipe I M O) eq_refl _);
            rewrite Hm; destruct d; reflexivity |].
    repeat split; auto. exists ch'. auto.
  - unfold chan_send in Hs. rewrite Hc in Hs.
    destruct (0 <? recvq ch); [discriminate |].
    destruct (length (buf ch) <? cap ch); discriminate.
Qed.

(** One item goes through the pipe, or is dropped or reported on its
    way. *)
Lemma pipe_item_completes (x : I) (rest : list I) p :
  pipe_inv u0 d0 p -> g (upstream p) = AtRange ->
  g (downstream p) = AtRange ->
  buf (cin (upstream p)) = x :: rest -> sendq (cin (upstream p)) = [] ->
  closed (cin (upstream p)) = true ->
  (emits body1 [x] = [] /\ emits body2 (forwards body1 [x]) = []) \/
  ev_ready (eventC (downstream p)) ->
  exists n u' d',
    prun n p = mkPipe u' d' /\ g u' = AtRange /\ g d' = AtRange /\
    buf (cin u') = rest /\ sendq (cin u') = [] /\ closed (cin u') = true /\
    received u' = received (upstream p) ++ [x] /\
    sent d' = sent (downstream p) ++ forwards body2 (forwards body1 [x]) /\
    emitted d'
    = emitted (downstream p) ++ emits body2 (forwards body1 [x]) /\
    (ev_ready (eventC (downstream p)) -> ev_ready (eventC d')).
Proof.
  intros Hinv Hgu Hgd Hb Hq Hc Hev.
  destruct (pipe_at_rest Hinv Hgu Hgd) as (L1 & L2 & He & Hod & Hok & Hm & Hmid).
  destruct p as [u d].
  destruct u as [lu gu iu mu eu ru su emu].
  destruct d as [ld gd id od ed rd sd emd]. simpl in *.
  subst lu ld gu gd eu mu. rewrite Hmid in *. clear Hmid.
  destruct iu as [cpi bfi sqi rqi cli tki]. simpl in *. subst bfi sqi cli.
  pose proof (body1_no_crash x) as Hnc1. unfold crashes in Hnc1.
  pose proof (body2_no_crash) as Hnc. unfold crashes in Hnc.
  destruct (body1 x) as [m | e1 | |] eqn:Hb1; try discriminate.
  - (* forwarded to the second stage *)
    specialize (Hnc m).
    destruct (body2 m) as [o | e | |] eqn:Hb2; try discriminate.
    + destruct (@psend_out_completes I M O
                  (mkPipe (mkConfig body1 AtRange
                                    (mkChan cpi rest [] rqi true (tki ++ [x]))
                                    (mkChan 0 [] [] 0 false (taken id ++ [m]))
                                    ed (ru ++ [x]) (su ++ [m]) emu)
                          (mkConfig body2 (AtSendOut o)
                                    (mkChan 0 [] [] 0 false (taken id ++ [m]))
                                    od ed (rd ++ [m]) sd emd)) o)
        as (n & d' & G0 & G1 & G2 & G3 & G4 & G5 & G6 & G7).
      * split; reflexivity.
      * exact Hok.
      * reflexivity.
      * exists (2 + n). do 2 eexists. rewrite prun_add. split.
        { rewrite <- G0. f_equal. simpl.
          unfold pcoop_step, go_step, chanrecv, handoff, park. simpl.
          rewrite Hb1. simpl. unfold go_step, chanrecv. simpl.
          rewrite Hb2. reflexivity. }
        simpl in G1, G4, G6, G7. simpl.
        rewrite ?Hb2, G1, G4, G6, G7, ?app_nil_r. auto 10.
    + assert (Hrdy : ev_ready ed).
      { destruct Hev as [[_ Hev] | Hev]; [| exact Hev].
        simpl in Hev. rewrite Hb2 in Hev. discriminate. }
      destruct (@psend_event_completes I M O
                  (mkPipe (mkConfig body1 AtRange
                                    (mkChan cpi rest [] rqi true (tki ++ [x]))
                                    (mkChan 0 [] [] 0 false (taken id ++ [m]))
                                    ed (ru ++ [x]) (su ++ [m]) emu)
                          (mkConfig body2 (AtSendEvent e)
                                    (mkChan 0 [] [] 0 false (taken id ++ [m]))
                                    od ed (rd ++ [m]) sd emd)) e)
        as (n & d' & G0 & G1 & G2 & G3 & G4 & G5 & G6 & G7 & G8).
      * split; reflexivity.
      * reflexivity.
      * exact Hrdy.
      * exists (2 + n). do 2 eexists. rewrite prun_add. split.
        { rewrite <- G0. f_equal. simpl.
          unfold pcoop_step, go_step, chanrecv, handoff, park. simpl.
          rewrite Hb1. simpl. unfold go_step, chanrecv. simpl.
          rewrite Hb2. reflexivity. }
        simpl in G1, G7, G8. simpl.
        rewrite ?Hb2, G1, G7, G8, ?app_nil_r. auto 10.
    + exists 2. do 2 eexists. split.
      * simpl. unfold pcoop_step, go_step, chanrecv, handoff, park. simpl.
        rewrite Hb1. simpl. unfold go_step, chanrecv. simpl.
        rewrite Hb2. reflexivity.
      * simpl. rewrite ?Hb1. simpl. rewrite ?Hb2, !app_nil_r. auto 10.
  - (* reported by the first stage *)
    assert (Hrdy : ev_ready ed).
    { destruct Hev as [[Hev _] | Hev]; [| exact Hev]. discriminate. }
    destruct (@psend_event_up_completes
                (mkConfig body1 (AtSendEvent e1)
                          (mkChan cpi rest [] rqi true (tki ++ [x]))
                          (mkChan 0 [] [] 0 false (taken id))
                          ed (ru ++ [x]) su emu)
                (mkConfig body2 AtRange
                          (mkChan 0 [] [] 0 false (taken id))
                          od ed rd sd emd) e1)
      as (n & u' & G0 & G1 & G2 & G3 & G4 & G5 & G6 & G7 & G8);
      try reflexivity.
    + split; reflexivity.
    + exact Hrdy.
    + exists (1 + n). do 2 eexists. rewrite prun_add. split.
      { rewrite <- G0. f_equal. simpl.
        unfold pcoop_step, go_step, chanrecv. simpl.
        rewrite Hb1. reflexivity. }
      simpl in G3, G6. simpl. rewrite G1, G3, G6, !app_nil_r. simpl.
      auto 10.
  - (* dropped by the first stage *)
    exists 1. do 2 eexists. split.
    + simpl. unfold pcoop_step, go_step, chanrecv. simpl.
      rewrite Hb1. reflexivity.
    + simpl. rewrite ?Hb1. simpl. rewrite !app_nil_r. auto 10.
Qed.

(** On a closed input that holds [xs] the pipe and a cooperative
    environment reach the end. *)
Lemma pipe_completes (xs : list I) p :
  pipe_inv u0 d0 p -> g (upstream p) = AtRange ->
  g (downstream p) = AtRange ->
  buf (cin (upstream p)) = xs -> sendq (cin (upstream p)) = [] ->
  closed (cin (upstream p)) = true ->
  (emits body1 xs = [] /\ emits body2 (forwards body1 xs) = []) \/
  ev_ready (eventC (downstream p)) ->
  exists n,
    g (upstream (prun n p)) = Exited /\
    g (downstream (prun n p)) = Exited /\
    buf (cout (downstream (prun n p))) = [] /\
    received (upstream (prun n p)) = received (upstream p) ++ xs /\
    sent (downstream (prun n p))
    = sent (downstream p) ++ forwards body2 (forwards body1 xs) /\
    emitted (downstream (prun n p))
    = emitted (downstream p) ++ emits body2 (forwards body1 xs).
Proof.
  revert p. induction xs as [| x rest IH]; intros p Hinv Hgu Hgd Hb Hq Hc Hev.
  - destruct (pipe_closes Hinv Hgu Hgd Hb Hq Hc)
      as (n & G1 & G2 & G3 & G4 & G5 & G6).
    exists n. simpl. rewrite !app_nil_r. auto 10.
  - assert (Hs1 : forwards body1 (x :: rest)
                   = forwards body1 [x] ++ forwards body1 rest)
      by apply (forwards_app body1 [x] rest).
    assert (He1 : emits body1 (x :: rest)
                  = emits body1 [x] ++ emits body1 rest)
      by apply (emits_app body1 [x] rest).
    assert (Hev' : (emits body1 [x] = [] /\
                    emits body2 (forwards body1 [x]) = []) /\
                   (emits body1 rest = [] /\
                    emits body2 (forwards body1 rest) = []) \/
                   ev_ready (eventC (downstream p))).
    { destruct Hev as [[Hev1 Hev2] | Hev]; [left | right; exact Hev].
      rewrite He1 in Hev1. rewrite Hs1, emits_app in Hev2.
      apply app_eq_nil in Hev1, Hev2. tauto. }
    rewrite Hs1, forwards_app, emits_app.
    destruct (@pipe_item_completes x rest p Hinv Hgu Hgd Hb Hq Hc)
      as (n1 & u' & d' & Hrun & A1 & A2 & A3 & A4 & A5 & A6 & A7 & A8 & A9).
    { destruct Hev' as [[Hev1 _] | Hev']; [left; exact Hev1 | right; exact Hev']. }
    destruct (IH (mkPipe u' d')) as (n2 & F1 & F2 & F3 & F4 & F5 & F6);
      try assumption.
    + rewrite <- Hrun.
      eapply pipe_inv_preachable;
        [reflexivity | reflexivity | exact Hinv | apply prun_preachable].
    + destruct Hev' as [[_ Hev2] | Hev'];
        [left; exact Hev2 | right; apply A9; exact Hev'].
    + exists (n1 + n2). rewrite prun_add, Hrun, F1, F2, F3, F4, F5, F6.
      simpl. rewrite A6, A7, A8, <- !app_assoc. auto 10.
Qed.

End PipeCompletes.

(** X5: two stages in a row come to their end, whatever the two stages, as
    long as the first has no buffer (Passthrough, Filter, Map, FilterMap)
    and no func is nil.  On a closed input that holds [xs], with readers
    that serve [out] and an event stream that takes events (or no item to
    report), both goroutines exit; the consumer has taken the second
    closure run over the output of the first, [out] is closed and empty,
    and each goroutine has sent the events of its own closure. *)
Theorem stages_in_a_row_complete
        (I M O : Type) (k2 : nat) (body1 : I -> effect M)
        (body2 : M -> effect O) (xs : list I) (ev : option (chan Event)) :
  (forall x, crashes body1 x = false) ->
  (forall y, crashes body2 y = false) ->
  (emits body1 xs = [] /\ emits body2 (forwards body1 xs) = []) \/
  ev_ready ev ->
  exists n, forall m, n <= m ->
    let q := prun m (pipe_of (spawn 0 body1) (spawn k2 body2)
                             (loaded xs) ev) in
    g (upstream q) = Exited /\ g (downstream q) = Exited /\
    received (upstream q) = xs /\
    taken (cout (downstream q)) = forwards body2 (forwards body1 xs) /\
    buf (cout (downstream q)) = [] /\ closed (cout (downstream q)) = true /\
    emitted (upstream q) = emits body1 xs /\
    emitted (downstream q) = emits body2 (forwards body1 xs).
Proof.
  intros Hc1 Hc2 Hev.
  set (p0 := pipe_of (spawn 0 body1) (spawn k2 body2) (loaded xs) ev).
  destruct (@pipe_completes I M O k2 body1 body2 (loaded xs) ev Hc1 Hc2 xs p0)
    as (n & G1 & G2 & G3 & G4 & G5 & G6); try reflexivity.
  { apply pipe_inv_start. }
  { exact Hev. }
  exists n. intros m Hm.
  assert (Hrun : prun m p0 = prun n p0).
  { replace m with (n + (m - n)) by lia. rewrite prun_add.
    apply settled_prun; assumption. }
  cbv zeta. rewrite Hrun.
  destruct (@pipe_inv_reachable I M O 0 k2 body1 body2 (loaded xs) ev
              (prun n p0) (prun_preachable n p0))
    as (_ & Hu & Hd).
  destruct (stage_safety Hd) as (_ & Ht & Hcl & _).
  destruct (stage_safety Hu) as (Hh & _).
  rewrite G3, app_nil_r in Ht. rewrite G2 in Hcl.
  destruct Hh as [_ He]; [rewrite G1; discriminate |].
  rewrite G1 in He. simpl in He, G4, G5, G6. rewrite app_nil_r in He.
  rewrite Ht, G5, G6, <- He, G4. auto 10.
Qed.

(** ** The events a stage has sent *)

Section Emitted.
Variables I O : Type.

(** What the goroutine has sent on the event stream is an initial part of
    the events of its closure over what it received, also after a panic. *)
Lemma emitted_prefix (k : nat) (body : I -> effect O) (input : chan I)
      (ev : option (chan Event)) (c : config I O) :
  reachable (spawn k body input ev) c ->
  exists later, emits body (received c) = emitted c ++ later.
Proof.
  intros Hr.
  assert (H : loop c = body /\
              exists later, emits body (received c) = emitted c ++ later).
  { induction Hr as [| c c' Hr IH Hs].
    - split; [reflexivity |]. exists []. reflexivity.
    - destruct IH as (Hl & later & Hp).
      pose proof (stage_safety Hr) as (Hh & _).
      destruct Hs as [c c' Hgo | | | | | |]; simpl;
        try (split; [exact Hl | eauto]).
      unfold go_step, leave in Hgo. destruct (g c) eqn:Hg; try discriminate.
      + destruct (chanrecv (cin c)) as [v in' | |]; try discriminate;
          injection Hgo as <-.
        * assert (Hp' : exists later',
                     emits body (received c ++ [v]) = emitted c ++ later').
          { rewrite emits_snoc, Hp, <- app_assoc. eauto. }
          destruct (loop c v); simpl; try (split; [exact Hl | exact Hp']).
          destruct (close_chan (cout c)); simpl; (split; [exact Hl | exact Hp']).
        * destruct (close_chan (cout c)); simpl; (split; [exact Hl | eauto]).
      + destruct (chan_send (cout c) val true) as [[ok out'] | |];
          try discriminate; injection Hgo as <-;
          destruct (close_chan (cout c)); simpl; (split; [exact Hl | eauto]).
      + destruct Hh as [_ He]; [discriminate |]. simpl in He.
        destruct (chansend (eventC c) e true) as [[ok ev'] | |];
          try discriminate; injection Hgo as <-.
        * simpl. split; [exact Hl |]. exists []. rewrite app_nil_r. exact He.
        * destruct (close_chan (cout c)); simpl; (split; [exact Hl | eauto]). }
  apply H.
Qed.

End Emitted.

(** X6: every event a Map or FilterMap stage has sent can be rendered and
    names its cause.  In any state the started stage can reach, also after
    a panic, an event it sent is a temporary ErrorEvent of type EventError
    whose cause is the error the transform returned on an item the stage
    received (an item that passed the predicate, for FilterMap), and whose
    [String] is the stage's message, a colon and the cause's text. *)
Theorem stage_events_name_their_cause
        (I O : Type) (p : PredicateFunc I) (f : MapFunc I O)
        (input : chan I) (ev : option (chan Event))
        (c : config I O) (e : Event) :
  In e (emitted c) ->
  (reachable (Map_Transform (mkMap (Some f)) input ev) c ->
   exists (x : I) (cause : error),
     In x (received c) /\ snd (f x) = Some cause /\
     e = NewErrorEvent "map transform error" (Some cause) true /\
     Event_Type e = EventError /\
     Event_String e
     = Returns ("map transform error: " ++ error_Error cause)%string) /\
  (reachable (FilterMap_Transform (mkFilterMap (Some p) (Some f)) input ev)
             c ->
   exists (x : I) (cause : error),
     In x (received c) /\ p x = true /\ snd (f x) = Some cause /\
     e = NewErrorEvent "filtermap error transforming data" (Some cause)
                       true /\
     Event_Type e = EventError /\
     Event_String e
     = Returns ("filtermap error transforming data: "
                ++ error_Error cause)%string).
Proof.
  intros Hin. split; intros Hr.
  - destruct (emitted_prefix Hr) as (later & Hp).
    rewrite (proj2 (Map_body_forwards f _)) in Hp.
    assert (Hf : In e (failures "map transform error" f (received c))).
    { rewrite Hp. apply in_or_app. left. exact Hin. }
    destruct (failures_shape _ _ _ _ Hf) as (x & cause & Hx & Hs & ->).
    exists x, cause. simpl. auto 10.
  - destruct (emitted_prefix Hr) as (later & Hp).
    rewrite (proj2 (FilterMap_body_forwards f p _)) in Hp.
    assert (Hf : In e (failures "filtermap error transforming data" f
                                (filter p (received c)))).
    { rewrite Hp. apply in_or_app. left. exact Hin. }
    destruct (failures_shape _ _ _ _ Hf) as (x & cause & Hx & Hs & ->).
    apply filter_In in Hx. destruct Hx as [Hx Hpx].
    exists x, cause. simpl. auto 10.
Qed.

(** ** The input of a stage *)



(** * Further properties of the event collector *)

Section CollectorSettings.
Variable EventCallback : Type.
Implicit Types (c : EventCollector EventCallback).
Implicit Types (w : world EventCallback).

Lemma NewEventCollector_snoc
      (opts : list (EventCollectorOption EventCallback))
      (opt : EventCollectorOption EventCallback) :
  NewEventCollector (opts ++ [opt]) = opt (NewEventCollector opts).
Proof. unfold NewEventCollector. rewrite fold_left_app. reflexivity. Qed.

(** What no option of the package changes: the collector has a worker and
    its stream has room, it is not open and it waits for no worker. *)
Lemma provided_settings (opt : EventCollectorOption EventCallback) c :
  provided opt ->
  (1 <= workers c)%Z /\ (1 <= bufferSize c)%Z /\
  wg c = 0%Z /\ eventChan c = None ->
  (1 <= workers (opt c))%Z /\ (1 <= bufferSize (opt c))%Z /\
  wg (opt c) = 0%Z /\ eventChan (opt c) = None.
Proof.
  intros [n | size | cb | t cb] (H1 & H2 & H3 & H4).
  - unfold WithWorkers. destruct (0 <? n)%Z eqn:E; simpl; auto.
    apply Z.ltb_lt in E. repeat split; auto. lia.
  - unfold WithBufferSize. destruct (0 <? size)%Z eqn:E; simpl; auto.
    apply Z.ltb_lt in E. repeat split; auto. lia.
  - unfold WithCallback. destruct cb; simpl; auto.
  - unfold WithTypedCallback. destruct cb; simpl; auto.
Qed.

Lemma NewEventCollector_settings
      (opts : list (EventCollectorOption EventCallback)) :
  Forall (@provided EventCallback) opts ->
  (1 <= workers (NewEventCollector opts))%Z /\
  (1 <= bufferSize (NewEventCollector opts))%Z /\
  wg (NewEventCollector opts) = 0%Z /\
  eventChan (NewEventCollector opts) = None.
Proof.
  unfold NewEventCollector. intros Hp.
  assert (H : forall c,
             (1 <= workers c)%Z /\ (1 <= bufferSize c)%Z /\
             wg c = 0%Z /\ eventChan c = None ->
             let c' := fold_left (fun c opt => opt c) opts c in
             (1 <= workers c')%Z /\ (1 <= bufferSize c')%Z /\
             wg c' = 0%Z /\ eventChan c' = None).
  { induction Hp as [| opt opts Hopt _ IH]; intros c Hc; simpl; [exact Hc |].
    apply IH. apply provided_settings; assumption. }
  apply H. simpl. repeat split; lia.
Qed.

End CollectorSettings.

(** X7: a collector built from the package's options always has a worker
    and a stream with room.  Whatever options are given, in whatever order,
    [workers] and [bufferSize] are at least 1: a value of 0 or less leaves
    the setting as it was, and so does a nil callback; a positive value
    replaces the setting.  The first [Collect] therefore allocates a stream
    of capacity [bufferSize], at least 1, registers [workers] workers, and
    the first [SendEvent] on that stream is accepted. *)
Theorem NewEventCollector_has_worker_and_room
        (EventCallback : Type)
        (opts : list (EventCollectorOption EventCallback))
        (n : Z) (e : Event) :
  Forall (@provided EventCallback) opts ->
  let c := NewEventCollector opts in
  let w := fst (Collect (mkWorld [] c)) in
  (1 <= workers c)%Z /\ (1 <= bufferSize c)%Z /\
  ((n <= 0)%Z ->
   NewEventCollector (opts ++ [WithWorkers n]) = c /\
   NewEventCollector (opts ++ [WithBufferSize n]) = c) /\
  ((0 < n)%Z ->
   workers (NewEventCollector (opts ++ [WithWorkers n])) = n /\
   bufferSize (NewEventCollector (opts ++ [WithBufferSize n])) = n) /\
  NewEventCollector (opts ++ [WithCallback None]) = c /\
  NewEventCollector (opts ++ [WithTypedCallback n None]) = c /\
  heap w = [make_chan (Z.to_nat (bufferSize c))] /\
  snd (Collect (mkWorld [] c)) = Some 0 /\
  wg (this w) = workers c /\
  exists ch',
    SendEvent (Some (make_chan (Z.to_nat (bufferSize c)))) e
    = Returns (true, Some ch') /\ buf ch' = [e].
Proof.
  intros Hp c w.
  destruct (NewEventCollector_settings Hp) as (H1 & H2 & H3 & H4).
  pose proof (NewEventCollector_closed Hp) as H5.
  fold c in H1, H2, H3, H4, H5.
  split; [exact H1 |]. split; [exact H2 |]. split; [| split].
  - intros Hn. rewrite !NewEventCollector_snoc. fold c.
    unfold WithWorkers, WithBufferSize.
    assert (E : (0 <? n)%Z = false) by (apply Z.ltb_ge; lia).
    rewrite E. auto.
  - intros Hn. rewrite !NewEventCollector_snoc. fold c.
    unfold WithWorkers, WithBufferSize.
    assert (E : (0 <? n)%Z = true) by (apply Z.ltb_lt; lia).
    rewrite E. auto.
  - rewrite !NewEventCollector_snoc. fold c.
    split; [reflexivity |]. split; [reflexivity |].
    unfold w, Collect. simpl. rewrite H5. simpl.
    split; [reflexivity |]. split; [reflexivity |].
    split; [rewrite H3; lia |].
    unfold chan_send, make_chan. simpl.
    assert (E : (0 <? Z.to_nat (bufferSize c)) = true)
      by (apply Nat.ltb_lt; lia).
    rewrite E. eexists. split; reflexivity.
Qed.

(** ** The callbacks a worker calls *)

Section Dispatch.
Variable EventCallback : Type.
Implicit Types (c : EventCollector EventCallback).

Lemma general_calls (l calls : list EventCallback) :
  fold_left (fun calls callback => calls ++ [callback]) l calls = calls ++ l.
Proof.
  revert calls. induction l as [| cb l IH]; intros calls; simpl.
  - rewrite app_nil_r. reflexivity.
  - rewrite IH, <- app_assoc. reflexivity.
Qed.

Lemma typed_calls (t : EventType) (l : list (TypedEventCallback EventCallback))
      (calls : list EventCallback) :
  fold_left (fun calls typed =>
               if (eventType typed =? t)%Z then calls ++ [callback typed]
               else calls) l calls
  = calls ++ map (@callback _)
                 (filter (fun typed => (eventType typed =? t)%Z) l).
Proof.
  revert calls. induction l as [| typed l IH]; intros calls; simpl.
  - rewrite app_nil_r. reflexivity.
  - rewrite IH. destruct (eventType typed =? t)%Z; simpl;
      [rewrite <- app_assoc |]; reflexivity.
Qed.

Lemma processEvent_calls c (e : Event) :
  processEvent c e
  = callbacks c
    ++ map (@callback _)
           (filter (fun typed => (eventType typed =? Event_Type e)%Z)
                   (typedCallbacks c)).
Proof.
  unfold processEvent. rewrite typed_calls, general_calls. reflexivity.
Qed.

End Dispatch.

(** X8: a worker calls every general callback, in the order of
    registration, and then the typed callbacks registered for the type of
    the event, in the order of registration, and no other.  Registering one
    more general callback adds a call after the general ones and before
    every typed one; registering a typed callback adds a last call exactly
    for the events of its type.  So a callback registered for EventError is
    called on the ErrorEvents of the stages and not on a LogEvent. *)
Theorem processEvent_calls_general_then_typed
        (EventCallback : Type)
        (opts : list (EventCollectorOption EventCallback))
        (f : EventCallback) (t : EventType) (e : Event) :
  let c := NewEventCollector opts in
  let typed_calls :=
    map (@callback _)
        (filter (fun typed => (eventType typed =? Event_Type e)%Z)
                (typedCallbacks c)) in
  processEvent c e = callbacks c ++ typed_calls /\
  processEvent (NewEventCollector (opts ++ [WithCallback (Some f)])) e
  = callbacks c ++ [f] ++ typed_calls /\
  processEvent (NewEventCollector (opts ++ [WithTypedCallback t (Some f)])) e
  = processEvent c e ++ (if (t =? Event_Type e)%Z then [f] else []) /\
  (forall (m s : string) (cause : option error) (tmp : bool) (l : LogLevel),
      processEvent (NewEventCollector [WithTypedCallback EventError (Some f)])
                   (NewErrorEvent m cause tmp) = [f] /\
      processEvent (NewEventCollector [WithTypedCallback EventError (Some f)])
                   (NewLogEvent s l m) = []).
Proof.
  intros c typed_calls.
  split; [apply processEvent_calls |]. split; [| split].
  - rewrite NewEventCollector_snoc, processEvent_calls. fold c. simpl.
    rewrite <- app_assoc. reflexivity.
  - rewrite NewEventCollector_snoc, !processEvent_calls. fold c. simpl.
    rewrite filter_app, map_app, app_assoc. simpl.
    destruct (t =? Event_Type e)%Z; reflexivity.
  - intros m s cause tmp l. split; reflexivity.
Qed.

(** ** Closing the collector *)

Section Closing.
Variable EventCallback : Type.
Implicit Types (w : world EventCallback).

(** An open collector waits for at least one worker. *)
Lemma open_collector_has_workers
      (opts : list (EventCollectorOption EventCallback)) w :
  Forall (@provided EventCallback) opts ->
  wreachable (mkWorld [] (NewEventCollector opts)) w ->
  (1 <= workers (this w))%Z /\ (0 <= wg (this w))%Z /\
  (isOpen (this w) = true -> (0 < wg (this w))%Z).
Proof.
  intros Hp Hr. induction Hr as [| w w' _ IH Hs].
  - destruct (NewEventCollector_settings Hp) as (H1 & _ & H3 & _).
    simpl. rewrite H3, (NewEventCollector_closed Hp).
    split; [exact H1 |]. split; [lia | discriminate].
  - destruct IH as (H1 & H2 & H3).
    destruct Hs as [w | w w' Hcl | w ref ch e Hn | w ref ch Hn]; simpl;
      try (split; [exact H1 | split; [exact H2 | exact H3]]).
    + unfold Collect. destruct (isOpen (this w)) eqn:Ho; simpl; auto.
      split; [exact H1 |]. split; lia.
    + unfold Close in Hcl. destruct (isOpen (this w)) eqn:Ho; simpl in Hcl.
      * destruct (eventChan (this w)) as [ref |]; [| discriminate].
        destruct (nth_error (heap w) ref) as [ch |]; [| discriminate].
        destruct (close_chan ch); try discriminate.
        injection Hcl as <-. simpl.
        split; [exact H1 |]. split; [lia | discriminate].
      * injection Hcl as <-.
        split; [exact H1 | split; [exact H2 |]].
        rewrite Ho. discriminate.
Qed.

Lemma length_store (A : Type) (l : list A) (i : nat) (x : A) :
  length (store l i x) = length l.
Proof.
  revert i. induction l as [| a l IH]; intros [| i]; simpl; auto.
Qed.

End Closing.

(** X9: [Close] never panics on a collector built from the package's
    options, whatever was done with it before, and it loses no event the
    stream had accepted.  On a collector that is not open (never opened, or
    closed already) it does nothing.  On an open one it closes the live
    stream, allocates nothing, and returns with the stream empty: the events
    that were buffered have gone to the workers, in order.  Afterwards no
    stream is live and a second [Close] does nothing. *)
Theorem Close_drains_the_live_stream
        (EventCallback : Type)
        (opts : list (EventCollectorOption EventCallback))
        (w : world EventCallback) :
  Forall (@provided EventCallback) opts ->
  wreachable (mkWorld [] (NewEventCollector opts)) w ->
  exists w' : world EventCallback,
    Close w = Returns w' /\
    isOpen (this w') = false /\ live w' = [] /\
    Close w' = Returns w' /\
    length (heap w') = length (heap w) /\
    (isOpen (this w) = false -> w' = w) /\
    (isOpen (this w) = true ->
     exists ref ch ch',
       eventChan (this w) = Some ref /\
       nth_error (heap w) ref = Some ch /\ closed ch = false /\
       nth_error (heap w') ref = Some ch' /\
       closed ch' = true /\ buf ch' = [] /\
       taken ch' = taken ch ++ buf ch /\
       forall i, i <> ref -> nth_error (heap w') i = nth_error (heap w) i).
Proof.
  intros Hp Hr.
  assert (Hc : consistent w).
  { eapply consistent_reachable; [| exact Hr].
    unfold consistent. simpl. rewrite NewEventCollector_closed by assumption.
    intros [| i] ch' H; discriminate. }
  destruct (open_collector_has_workers Hp Hr) as (_ & _ & Hw).
  assert (Hret : exists w', Close w = Returns w').
  { unfold Close. unfold consistent in Hc.
    destruct (isOpen (this w)); simpl; [| eauto].
    destruct Hc as (ref & ch & H1 & H2 & H3 & _).
    rewrite H1, H2. unfold close_chan. rewrite H3. eauto. }
  destruct Hret as (w' & Hcl). exists w'.
  assert (Hc' : consistent w') by (eapply consistent_Close; eauto).
  pose proof (@consistent_live _ w' Hc') as Hl.
  assert (Ho' : isOpen (this w') = false).
  { unfold Close in Hcl. destruct (isOpen (this w)) eqn:Ho; simpl in Hcl.
    - destruct (eventChan (this w)) as [ref |]; [| discriminate].
      destruct (nth_error (heap w) ref) as [ch |]; [| discriminate].
      destruct (close_chan ch); try discriminate.
      injection Hcl as <-. reflexivity.
    - injection Hcl as <-. exact Ho. }
  rewrite Ho' in Hl.
  split; [exact Hcl |]. split; [exact Ho' |]. split; [exact Hl |].
  split; [unfold Close; rewrite Ho'; reflexivity |].
  unfold Close in Hcl. unfold consistent in Hc.
  destruct (isOpen (this w)) eqn:Ho; simpl in Hcl.
  - destruct Hc as (ref & ch & H1 & H2 & H3 & _).
    rewrite H1, H2 in Hcl. unfold close_chan in Hcl. rewrite H3 in Hcl.
    assert (Hwg : (0 <? wg (this w))%Z = true)
      by (apply Z.ltb_lt; apply Hw; reflexivity).
    rewrite Hwg in Hcl. injection Hcl as <-. simpl.
    split; [apply length_store |]. split; [discriminate |].
    intros _. exists ref, ch. eexists.
    split; [exact H1 |]. split; [exact H2 |]. split; [exact H3 |].
    split; [eapply nth_error_store_eq; exact H2 |]. simpl.
    split; [reflexivity |]. split; [reflexivity |]. split; [reflexivity |].
    intros i Hi. apply nth_error_store_ne. auto.
  - injection Hcl as <-. split; [reflexivity |]. split; [reflexivity |].
    discriminate.
Qed.

(** * Properties of the sinks *)

Section SinkFacts.
Variables I A : Type.
Implicit Types (c : sink_config I A).
Implicit Types (body : list A -> I -> list A * option Event).

Lemma passes_snoc body (made : list A) (xs : list I) (x : I) :
  passes body made (xs ++ [x])
  = (fst (passes body made xs)
     ++ fst (body (fst (passes body made xs)) x),
     snd (passes body made xs)
     ++ match snd (body (fst (passes body made xs)) x) with
        | Some e => [e]
        | None => []
        end).
Proof.
  revert made. induction xs as [| y ys IH]; intros made; simpl.
  - destruct (body made x) as [more [e |]]; reflexivity.
  - destruct (body made y) as [more report]. rewrite IH.
    destruct (passes body (made ++ more) ys) as [all events]. simpl.
    destruct report; reflexivity.
Qed.

(** The history of a running sink is its body run over what it received;
    it returns only on an input that is closed and empty, and it panics
    only on a closed event stream. *)
Lemma sink_history body (input : chan I) (ev : option (chan Event)) c :
  sink_reachable (start body input ev) c ->
  pass c = body /\
  calls c = fst (passes body [] (consumed c)) /\
  (exists later, snd (passes body [] (consumed c)) = reported c ++ later) /\
  (at_pc c <> SinkPanicked ->
   snd (passes body [] (consumed c))
   = reported c ++ sink_event_in_hand (at_pc c)) /\
  (at_pc c = SinkReturned -> exhausted (sink_in c)) /\
  (at_pc c = SinkPanicked ->
   exists ch, sink_eventC c = Some ch /\ closed ch = true).
Proof.
  intros Hr. induction Hr as [| c c' _ IH Hs].
  - simpl. split; [reflexivity |]. split; [reflexivity |].
    split; [exists []; reflexivity |]. split; [reflexivity |].
    split; discriminate.
  - destruct IH as (Hb & Hc & Hl & Hh & Hi & Hp).
    destruct Hs as [c c' Hgo | c v | c | c ch Hev | c ch e Hev | c ch Hev];
      simpl.
    + unfold sink_step in Hgo. destruct (at_pc c) eqn:Hat; try discriminate.
      * assert (Hh' : snd (passes body [] (consumed c)) = reported c).
        { rewrite Hh by discriminate. apply app_nil_r. }
        destruct (chanrecv (sink_in c)) as [data in' | |] eqn:Hrecv;
          try discriminate.
        -- rewrite Hb in Hgo.
           destruct (body (calls c) data) as [made report] eqn:Hbody.
           injection Hgo as <-. simpl.
           rewrite passes_snoc, <- Hc, Hbody, Hh'. simpl.
           split; [reflexivity |]. split; [reflexivity |].
           split; [eauto |].
           split; [intros _; destruct report; reflexivity |].
           split; destruct report; discriminate.
        -- injection Hgo as <-. simpl.
           split; [exact Hb |]. split; [exact Hc |]. split; [exact Hl |].
           split; [intros _; rewrite Hh'; symmetry; apply app_nil_r |].
           split; [intros _; apply chanrecv_closed; exact Hrecv |].
           discriminate.
      * assert (Hh' : snd (passes body [] (consumed c)) = reported c ++ [e]).
        { apply Hh. discriminate. }
        destruct (chansend (sink_eventC c) e true) as [[ok ev'] | |] eqn:Hsend;
          try discriminate; injection Hgo as <-; simpl.
        -- split; [exact Hb |]. split; [exact Hc |].
           split; [exists []; rewrite app_nil_r; exact Hh' |].
           split; [intros _; rewrite app_nil_r; exact Hh' |].
           split; discriminate.
        -- split; [exact Hb |]. split; [exact Hc |]. split; [exact Hl |].
           split; [intros H; exfalso; apply H; reflexivity |].
           split; [discriminate |]. intros _.
           apply chansend_panics in Hsend. exact Hsend.
    + split; [exact Hb |]. split; [exact Hc |]. split; [exact Hl |].
      split; [exact Hh |]. split; [| exact Hp].
      intros Hat. destruct (Hi Hat) as (H1 & H2 & H3).
      rewrite env_send_closed by exact H1. repeat split; assumption.
    + split; [exact Hb |]. split; [exact Hc |]. split; [exact Hl |].
      split; [exact Hh |]. split; [| exact Hp].
      intros Hat. destruct (Hi Hat) as (H1 & H2 & H3).
      rewrite env_close_closed by exact H1. repeat split; assumption.
    + split; [exact Hb |]. split; [exact Hc |]. split; [exact Hl |].
      split; [exact Hh |]. split; [exact Hi |].
      intros Hat. destruct (Hp Hat) as (ch0 & H1 & H2).
      rewrite Hev in H1. injection H1 as <-.
      eexists. split; [reflexivity |]. rewrite closed_env_recv. exact H2.
    + split; [exact Hb |]. split; [exact Hc |]. split; [exact Hl |].
      split; [exact Hh |]. split; [exact Hi |].
      intros Hat. destruct (Hp Hat) as (ch0 & H1 & H2).
      rewrite Hev in H1. injection H1 as <-.
      eexists. split; [reflexivity |]. rewrite closed_env_send. exact H2.
    + split; [exact Hb |]. split; [exact Hc |]. split; [exact Hl |].
      split; [exact Hh |]. split; [exact Hi |].
      intros Hat. destruct (Hp Hat) as (ch0 & H1 & H2).
      rewrite Hev in H1. injection H1 as <-.
      eexists. split; [reflexivity |].
      rewrite env_close_closed by exact H2. exact H2.
Qed.

End SinkFacts.

(** ** Sinks with a cooperative reader of the event stream *)

Section SinkCompletion.
Variables I A : Type.
Implicit Types (c : sink_config I A).

Lemma sink_run_add (n m : nat) c :
  sink_run (n + m) c = sink_run m (sink_run n c).
Proof. revert c. induction n as [| n IH]; intros c; simpl; auto. Qed.

Lemma sink_settled (m : nat) c :
  at_pc c = SinkReturned -> sink_run m c = c.
Proof.
  intros Hat. induction m as [| m IH]; simpl; [reflexivity |].
  unfold sink_coop_step, sink_step. rewrite Hat. exact IH.
Qed.

Lemma sink_reachable_trans c0 c1 c2 :
  sink_reachable c0 c1 -> sink_reachable c1 c2 -> sink_reachable c0 c2.
Proof.
  intros H1 H2. induction H2 as [| c c' _ IH Hs]; [exact H1 |].
  eapply sink_reach_step; eauto.
Qed.

Lemma sink_coop_step_reachable c : sink_reachable c (sink_coop_step c).
Proof.
  unfold sink_coop_step. destruct (sink_step c) as [c' |] eqn:Hgo.
  - eapply sink_reach_step; [apply sink_reach_start | apply sink_go; exact Hgo].
  - destruct (at_pc c); try apply sink_reach_start.
    destruct (sink_eventC c) as [ch |] eqn:Hev; [| apply sink_reach_start].
    eapply sink_reach_step; [apply sink_reach_start |].
    apply sink_observer_recv. exact Hev.
Qed.

Lemma sink_run_reachable (n : nat) c : sink_reachable c (sink_run n c).
Proof.
  revert c. induction n as [| n IH]; intros c; simpl;
    [apply sink_reach_start |].
  eapply sink_reachable_trans; [apply sink_coop_step_reachable | apply IH].
Qed.

(** The sink, parked on a ready event stream, gets its event through. *)
Lemma sink_send_event_completes c (e : Event) :
  at_pc c = SinkAtSendEvent e -> ev_ready (sink_eventC c) ->
  exists n,
    at_pc (sink_run n c) = SinkAtRange /\
    pass (sink_run n c) = pass c /\
    sink_in (sink_run n c) = sink_in c /\
    ev_ready (sink_eventC (sink_run n c)) /\
    consumed (sink_run n c) = consumed c /\
    calls (sink_run n c) = calls c /\
    reported (sink_run n c) = reported c ++ [e].
Proof.
  intros Hat (ch & Hev & Hc & Hq & Hl).
  destruct (chan_send ch e true) as [[ok ch'] | |] eqn:Hs.
  - exists 1. simpl. unfold sink_coop_step, sink_step, chansend.
    rewrite Hat, Hev, Hs. simpl. repeat split; auto.
    exists ch'. split; [reflexivity |]. eapply chan_send_ready; eauto.
  - destruct (env_recv_makes_room ch e Hc Hq Hl Hs) as (ch' & Hs' & Hr').
    exists 2. change (sink_run 2 c)
      with (sink_coop_step (sink_coop_step c)).
    assert (H1 : sink_coop_step c
                 = sink_with_eventC c (Some (env_recv ch))).
    { unfold sink_coop_step, sink_step, chansend.
      rewrite Hat, Hev, Hs. reflexivity. }
    rewrite H1. unfold sink_coop_step, sink_step, chansend. simpl.
    rewrite Hat, Hs'. simpl. repeat split; auto. exists ch'. auto.
  - unfold chan_send in Hs. rewrite Hc in Hs.
    destruct (0 <? recvq ch); [discriminate |].
    destruct (length (buf ch) <? cap ch); discriminate.
Qed.

(** On a closed input that holds [xs] the sink comes to its end. *)
Lemma sink_run_completes (xs : list I) :
  forall c,
    at_pc c = SinkAtRange ->
    buf (sink_in c) = xs -> sendq (sink_in c) = [] ->
    closed (sink_in c) = true ->
    snd (passes (pass c) (calls c) xs) = [] \/ ev_ready (sink_eventC c) ->
    exists n,
      at_pc (sink_run n c) = SinkReturned /\
      consumed (sink_run n c) = consumed c ++ xs /\
      calls (sink_run n c) = fst (passes (pass c) (calls c) xs) /\
      reported (sink_run n c)
      = reported c ++ snd (passes (pass c) (calls c) xs).
Proof.
  induction xs as [| x rest IH]; intros c Hat Hb Hq Hc Hev.
  - exists 1. simpl. unfold sink_coop_step, sink_step, chanrecv.
    rewrite Hat, Hb, Hq, Hc. simpl. rewrite !app_nil_r. auto.
  - destruct c as [body at0 input ev cons made rep]. simpl in *. subst at0.
    destruct input as [cp bf sq rq cl tk]. simpl in *. subst bf sq cl.
    destruct (body made x) as [more report] eqn:Hbody.
    destruct (passes body (made ++ more) rest) as [all events] eqn:Hrest.
    destruct report as [e |].
    + assert (Hrdy : ev_ready ev).
      { destruct Hev as [Hev | Hev]; [discriminate | exact Hev]. }
      destruct (@sink_send_event_completes
                  (mkSink body (SinkAtSendEvent e)
                          (mkChan cp rest [] rq true (tk ++ [x])) ev
                          (cons ++ [x]) (made ++ more) rep) e eq_refl Hrdy)
        as (n1 & G1 & G2 & G3 & G4 & G5 & G6 & G7).
      simpl in G2, G3, G5, G6, G7.
      destruct (IH (sink_run n1
                      (mkSink body (SinkAtSendEvent e)
                              (mkChan cp rest [] rq true (tk ++ [x])) ev
                              (cons ++ [x]) (made ++ more) rep)))
        as (n2 & F1 & F2 & F3 & F4).
      * exact G1.
      * rewrite G3. reflexivity.
      * rewrite G3. reflexivity.
      * rewrite G3. reflexivity.
      * right. exact G4.
      * exists (1 + (n1 + n2)). rewrite sink_run_add.
        replace (sink_run 1 _)
          with (mkSink body (SinkAtSendEvent e)
                       (mkChan cp rest [] rq true (tk ++ [x])) ev
                       (cons ++ [x]) (made ++ more) rep).
        2:{ simpl. unfold sink_coop_step, sink_step, chanrecv. simpl.
            rewrite Hbody. reflexivity. }
        rewrite sink_run_add, F1, F2, F3, F4, G2, G5, G6, G7, Hrest.
        simpl. rewrite <- !app_assoc. auto.
    + destruct (IH (mkSink body SinkAtRange
                           (mkChan cp rest [] rq true (tk ++ [x])) ev
                           (cons ++ [x]) (made ++ more) rep))
        as (n2 & F1 & F2 & F3 & F4); try reflexivity.
      * simpl. rewrite Hrest. exact Hev.
      * exists (1 + n2). rewrite sink_run_add.
        replace (sink_run 1 _)
          with (mkSink body SinkAtRange
                       (mkChan cp rest [] rq true (tk ++ [x])) ev
                       (cons ++ [x]) (made ++ more) rep).
        2:{ simpl. unfold sink_coop_step, sink_step, chanrecv. simpl.
            rewrite Hbody. reflexivity. }
        rewrite F1, F2, F3, F4. simpl. rewrite Hrest.
        simpl. rewrite <- !app_assoc. auto.
Qed.

(** A started sink in front of a closed input that holds [xs]. *)
Lemma sink_completes (body : list A -> I -> list A * option Event)
      (xs : list I) (ev : option (chan Event)) :
  snd (passes body [] xs) = [] \/ ev_ready ev ->
  exists n, forall m, n <= m ->
    let c := sink_run m (start body (loaded xs) ev) in
    at_pc c = SinkReturned /\ consumed c = xs /\
    calls c = fst (passes body [] xs) /\
    reported c = snd (passes body [] xs).
Proof.
  intros Hev.
  destruct (@sink_run_completes xs (start body (loaded xs) ev))
    as (n & G1 & G2 & G3 & G4); try reflexivity; [exact Hev |].
  exists n. intros m Hm. cbv zeta.
  replace m with (n + (m - n)) by lia.
  rewrite sink_run_add, sink_settled by exact G1.
  simpl in G2, G3, G4. auto.
Qed.

End SinkCompletion.

(** ** Logger *)

Section LoggerFacts.
Variable I : Type.
Variable MarshalIndent : I -> string * option error.
Variable Sprintf : I -> string.

Local Abbreviation rendering := (fun data : I => fst (MarshalIndent data)).
Local Abbreviation blank :=
  (fun data : I => String.length (fst (MarshalIndent data)) =? 0).

Lemma Logger_pass_cases (made : list string) (data : I) :
  Logger_pass MarshalIndent Sprintf made data
  = if blank data
    then ([], Some (NewErrorEvent "formatted data is empty" None true))
    else ([rendering data], None).
Proof.
  unfold Logger_pass, Logger_item.
  destruct (MarshalIndent data) as [formattedB e]. simpl.
  destruct (String.length formattedB =? 0); reflexivity.
Qed.

(** The loop of [Load] over a sequence of items: the renderings that are
    not empty are printed, and one event is due for each of the others. *)
Lemma Logger_passes (made : list string) (xs : list I) :
  passes (Logger_pass MarshalIndent Sprintf) made xs
  = (made ++ map rendering (filter (fun data => negb (blank data)) xs),
     map (fun _ => NewErrorEvent "formatted data is empty" None true)
         (filter blank xs)).
Proof.
  revert made. induction xs as [| x xs IH]; intros made; simpl.
  - rewrite app_nil_r. reflexivity.
  - rewrite Logger_pass_cases. destruct (blank x) eqn:E; simpl; rewrite IH.
    + rewrite app_nil_r. reflexivity.
    + rewrite <- app_assoc. reflexivity.
Qed.

(** With no event stream the sink stops for good at the first item whose
    rendering is empty. *)
Lemma Logger_without_stream (input : chan I) (c : sink_config I string) :
  sink_reachable (Logger_Load MarshalIndent Sprintf input None) c ->
  pass c = Logger_pass MarshalIndent Sprintf /\
  sink_eventC c = None /\ reported c = [] /\
  match at_pc c with
  | SinkAtSendEvent _ =>
      exists before data,
        consumed c = before ++ [data] /\ blank data = true /\
        filter blank before = []
  | SinkPanicked => False
  | _ => filter blank (consumed c) = []
  end.
Proof.
  intros Hr. induction Hr as [| c c' _ IH Hs].
  - simpl. auto.
  - destruct IH as (Hb & Hev & Hrep & Hat).
    destruct Hs as [c c' Hgo | c v | c | c ch Hch | c ch e Hch | c ch Hch];
      simpl; auto; try (rewrite Hev in Hch; discriminate).
    unfold sink_step in Hgo. destruct (at_pc c) eqn:Hpc; try discriminate.
    + destruct (chanrecv (sink_in c)) as [data in' | |]; try discriminate.
      * rewrite Hb, Logger_pass_cases in Hgo.
        destruct (blank data) eqn:E; injection Hgo as <-; simpl.
        -- split; [reflexivity |]. split; [exact Hev |].
           split; [exact Hrep |]. exists (consumed c), data. auto.
        -- split; [reflexivity |]. split; [exact Hev |].
           split; [exact Hrep |]. rewrite filter_app, Hat. simpl.
           rewrite E. reflexivity.
      * injection Hgo as <-. simpl. auto.
    + rewrite Hev in Hgo. simpl in Hgo. discriminate.
Qed.

End LoggerFacts.

(** X10: [Logger.Load] prints, for every item, the rendering that
    [json.MarshalIndent] returned and nothing else; the [Sprintf] fallback
    is never printed, also for an item on which marshalling failed.  In any
    state the sink can reach, the lines printed are the non-empty renderings
    of the items received, in order; an item whose rendering is empty prints
    nothing and is reported by an ErrorEvent without a cause, which is
    therefore an event whose [String] panics.  On a closed input that holds
    [xs], with an event stream that takes events (or no empty rendering),
    [Load] returns after printing the non-empty renderings of [xs]. *)
Theorem Logger_prints_marshalled_renderings
        (I : Type) (MarshalIndent : I -> string * option error)
        (Sprintf : I -> string) (input : chan I) (ev : option (chan Event))
        (xs : list I) :
  let blank := fun data => String.length (fst (MarshalIndent data)) =? 0 in
  let lines := fun l : list I =>
                 map (fun data => fst (MarshalIndent data))
                     (filter (fun data => negb (blank data)) l) in
  (forall c : sink_config I string,
      sink_reachable (Logger_Load MarshalIndent Sprintf input ev) c ->
      calls c = lines (consumed c) /\
      length (reported c) <= length (filter blank (consumed c)) /\
      (forall e, In e (reported c) ->
                 e = NewErrorEvent "formatted data is empty" None true /\
                 Event_String e = Panics) /\
      (at_pc c = SinkReturned ->
       exhausted (sink_in c) /\
       length (reported c) = length (filter blank (consumed c))) /\
      (at_pc c = SinkPanicked ->
       exists ch, sink_eventC c = Some ch /\ closed ch = true)) /\
  (filter blank xs = [] \/ ev_ready ev ->
   exists n, forall m, n <= m ->
     let c := sink_run m (Logger_Load MarshalIndent Sprintf (loaded xs) ev) in
     at_pc c = SinkReturned /\ consumed c = xs /\ calls c = lines xs /\
     length (reported c) = length (filter blank xs)).
Proof.
  intros blank lines. split.
  - intros c Hr. unfold Logger_Load in Hr.
    destruct (sink_history Hr) as (_ & Hc & (later & Hl) & Hh & Hi & Hp).
    rewrite Logger_passes in Hc, Hl, Hh. simpl in Hc, Hl, Hh.
    split; [exact Hc |]. split; [| split; [| split]].
    + fold blank in Hl.
      rewrite <- (length_map (fun _ => NewErrorEvent "formatted data is empty"
                                                  None true)
                             (filter blank (consumed c))), Hl, length_app.
      lia.
    + intros e He.
      assert (Hin : In e (reported c ++ later))
        by (apply in_or_app; left; exact He).
      rewrite <- Hl in Hin. apply in_map_iff in Hin.
      destruct Hin as (x & <- & _). split; reflexivity.
    + intros Hat. split; [apply Hi; exact Hat |].
      rewrite Hat in Hh. simpl in Hh. rewrite app_nil_r in Hh.
      rewrite <- Hh by discriminate. apply length_map.
    + exact Hp.
  - intros Hev.
    destruct (@sink_completes I string (Logger_pass MarshalIndent Sprintf)
                              xs ev) as (n & Hn).
    { rewrite Logger_passes. simpl.
      destruct Hev as [Hev | Hev]; [left | right; exact Hev].
      fold blank. rewrite Hev. reflexivity. }
    exists n. intros m Hm. destruct (Hn m Hm) as (G1 & G2 & G3 & G4).
    cbv zeta. unfold Logger_Load.
    rewrite Logger_passes in G3, G4. simpl in G3, G4.
    rewrite G1, G2, G3, G4, length_map. auto.
Qed.

(** X11: [Logger.Load] with a nil event stream, as in the package's own
    test, hangs at the first item whose rendering is empty.  In any state the
    sink can then reach it has sent no event and has not panicked, and if an
    item with an empty rendering has been received, it is the last one
    received: the goroutine cannot step, has not returned, and no later item
    is ever taken from [in]. *)
Theorem Logger_without_event_stream_hangs
        (I : Type) (MarshalIndent : I -> string * option error)
        (Sprintf : I -> string) (input : chan I)
        (c : sink_config I string) (before after : list I) (data : I) :
  sink_reachable (Logger_Load MarshalIndent Sprintf input None) c ->
  consumed c = before ++ data :: after ->
  String.length (fst (MarshalIndent data)) = 0 ->
  after = [] /\ sink_step c = None /\ at_pc c <> SinkReturned /\
  at_pc c <> SinkPanicked /\ reported c = [] /\
  calls c = map (fun x => fst (MarshalIndent x)) before.
Proof.
  intros Hr Hcons Hblank.
  pose (blank := fun x => String.length (fst (MarshalIndent x)) =? 0).
  assert (Hb : blank data = true) by (apply Nat.eqb_eq; exact Hblank).
  destruct (@Logger_without_stream I MarshalIndent Sprintf input c Hr)
    as (Hp & Hev & Hrep & Hat).
  unfold Logger_Load in Hr.
  destruct (sink_history Hr) as (_ & Hc & _).
  rewrite Logger_passes in Hc. simpl in Hc. fold blank in Hat.
  assert (Hin : In data (filter blank (consumed c))).
  { apply filter_In. split; [| exact Hb].
    rewrite Hcons. apply in_or_app. right. left. reflexivity. }
  destruct (at_pc c) eqn:Hpc;
    try (rewrite Hat in Hin; destruct Hin); try contradiction.
  destruct Hat as (b0 & d0 & H1 & H2 & H3).
  assert (Hafter : after = []).
  { destruct after as [| a after']; [reflexivity | exfalso].
    destruct (@exists_last _ (a :: after')) as (l' & z & Hz);
      [discriminate |].
    rewrite Hz in Hcons. rewrite H1 in Hcons.
    change (before ++ data :: l' ++ [z])
      with (before ++ (data :: l') ++ [z]) in Hcons.
    rewrite app_assoc in Hcons. apply app_inj_tail in Hcons.
    destruct Hcons as [Hb0 _].
    assert (Hd : In data (filter blank b0)).
    { apply filter_In. split; [| exact Hb].
      rewrite Hb0. apply in_or_app. right. left. reflexivity. }
    rewrite H3 in Hd. destruct Hd. }
  subst after. rewrite H1 in Hcons. apply app_inj_tail in Hcons.
  destruct Hcons as [<- <-].
  split; [reflexivity |].
  split; [unfold sink_step; rewrite Hpc, Hev; reflexivity |].
  split; [discriminate |]. split; [discriminate |].
  split; [exact Hrep |].
  rewrite Hc, H1, filter_app. simpl. fold blank. rewrite H2. simpl.
  rewrite app_nil_r. f_equal.
  clear - H3. induction b0 as [| y l IH]; simpl in *; [reflexivity |].
  destruct (blank y) eqn:E; [discriminate |]. unfold blank in E.
  rewrite E. simpl. rewrite IH by exact H3. reflexivity.
Qed.

(** X12: [Noop.Load] reads its input to the end and does nothing else,
    whatever the event stream is, nil and closed included.  In any state it
    can reach it has made no call and sent no event, it is not parked on the
    event stream and it has not panicked; on a closed input that holds [xs]
    it returns after receiving exactly [xs]. *)
Theorem Noop_reads_everything
        (I : Type) (input : chan I) (ev : option (chan Event))
        (xs : list I) :
  (forall c : sink_config I unit,
      sink_reachable (Noop_Load input ev) c ->
      calls c = [] /\ reported c = [] /\
      (at_pc c = SinkAtRange \/ at_pc c = SinkReturned) /\
      (at_pc c = SinkReturned -> exhausted (sink_in c))) /\
  (exists n, forall m, n <= m ->
     let c := sink_run m (Noop_Load (loaded xs) ev) in
     at_pc c = SinkReturned /\ consumed c = xs /\
     calls c = [] /\ reported c = []).
Proof.
  assert (Hp : forall (made : list unit) (l : list I),
             passes (@Noop_pass I) made l = (made, [])).
  { intros made l. revert made. induction l as [| x l IH]; intros made;
      simpl; [reflexivity |]. rewrite app_nil_r, IH. reflexivity. }
  split.
  - intros c Hr. unfold Noop_Load in Hr.
    destruct (sink_history Hr) as (_ & Hc & (later & Hl) & Hh & Hi & Hpn).
    rewrite Hp in Hc, Hl, Hh. simpl in Hc, Hl, Hh.
    symmetry in Hl. apply app_eq_nil in Hl. destruct Hl as [Hrep _].
    split; [exact Hc |]. split; [exact Hrep |]. split; [| exact Hi].
    assert (Hin : sink_reachable (start (@Noop_pass I) input ev) c ->
                  at_pc c = SinkAtRange \/ at_pc c = SinkReturned).
    { clear. intros Hr. induction Hr as [| c c' Hr IH Hs]; [left; reflexivity |].
      destruct (sink_history Hr) as (Hb & _).
      destruct Hs as [c c' Hgo | | | | |]; simpl; auto.
      unfold sink_step in Hgo.
      destruct IH as [Hat | Hat]; rewrite Hat in Hgo; [| discriminate].
      destruct (chanrecv (sink_in c)); try discriminate.
      - rewrite Hb in Hgo. simpl in Hgo. injection Hgo as <-. auto.
      - injection Hgo as <-. auto. }
    apply Hin. exact Hr.
  - destruct (@sink_completes I unit (@Noop_pass I) xs ev) as (n & Hn).
    { left. rewrite Hp. reflexivity. }
    exists n. intros m Hm. destruct (Hn m Hm) as (G1 & G2 & G3 & G4).
    rewrite Hp in G3, G4. cbv zeta. unfold Noop_Load. auto.
Qed.

(** ** NatsStream *)

Section NatsFacts.
Variable JetStream : Type.
Variable js_Publish :
  JetStream -> list broker_call -> string -> string -> option error.
Variable Raw_Ack : list broker_call -> DataRawReadable -> option error.
Variables (j : JetStream) (subj : string).

Local Abbreviation body := (NatsStream_pass js_Publish Raw_Ack j subj).

Local Abbreviation in_order := (in_order js_Publish j subj).

Lemma in_order_more (seen : list DataRawReadable) (x : DataRawReadable)
      (log : list broker_call) :
  in_order seen log -> in_order (seen ++ [x]) log.
Proof.
  intros [H1 H2]. split.
  - intros i msg Hi. destruct (H1 i msg Hi) as (p & G1 & G2 & G3 & G4 & G5 & G6).
    exists p. repeat split; auto. apply in_or_app. left. exact G5.
  - intros i s p Hi. destruct (H2 i s p Hi) as (G1 & msg & G2 & G3).
    split; [exact G1 |]. exists msg. split; [| exact G3].
    apply in_or_app. left. exact G2.
Qed.

Lemma nth_error_snoc_cases (A : Type) (l : list A) (a : A) (i : nat)
      (v : A) :
  nth_error (l ++ [a]) i = Some v ->
  (i < length l /\ nth_error l i = Some v) \/ (i = length l /\ v = a).
Proof.
  intros H. destruct (Nat.lt_ge_cases i (length l)) as [Hlt | Hge].
  - left. split; [exact Hlt |]. rewrite nth_error_app1 in H; assumption.
  - right. rewrite nth_error_app2 in H by exact Hge.
    destruct (i - length l) as [| k] eqn:E; simpl in H.
    + injection H as <-. split; [lia | reflexivity].
    + destruct k; discriminate.
Qed.

Lemma firstn_snoc_below (A : Type) (l : list A) (a : A) (n : nat) :
  n <= length l -> firstn n (l ++ [a]) = firstn n l.
Proof.
  intros H. rewrite firstn_app.
  replace (n - length l) with 0 by lia. simpl. apply app_nil_r.
Qed.

(** Appending a [Publish] of a readable message keeps the log in order. *)
Lemma in_order_publish (seen : list DataRawReadable) (x : DataRawReadable)
      (log : list broker_call) (p : string) :
  in_order seen log -> In x seen -> Data_Read x = (p, None) ->
  in_order seen (log ++ [Publish subj p]).
Proof.
  intros [H1 H2] Hx Hp. split.
  - intros i msg Hi. apply nth_error_snoc_cases in Hi.
    destruct Hi as [[Hlt Hi] | [_ Hv]]; [| discriminate].
    destruct (H1 i msg Hi) as (q & G1 & G2 & G3 & G4 & G5 & G6).
    exists q. rewrite nth_error_app1 by lia.
    rewrite firstn_snoc_below by lia. auto 10.
  - intros i s q Hi. apply nth_error_snoc_cases in Hi.
    destruct Hi as [[_ Hi] | [_ Hv]]; [apply (H2 i s q Hi) |].
    injection Hv as -> ->. split; [reflexivity |]. exists x. auto.
Qed.

(** Appending the [Ack] of the message just published keeps it in order. *)
Lemma in_order_ack (seen : list DataRawReadable) (x : DataRawReadable)
      (log : list broker_call) (p : string) :
  in_order seen (log ++ [Publish subj p]) -> In x seen ->
  Data_Read x = (p, None) -> Raw_ackable x = true ->
  js_Publish j log subj p = None ->
  in_order seen ((log ++ [Publish subj p]) ++ [Ack x]).
Proof.
  intros [H1 H2] Hx Hp Ha Hpub. split.
  - intros i msg Hi. apply nth_error_snoc_cases in Hi.
    destruct Hi as [[Hlt Hi] | [Hlen Hv]].
    + destruct (H1 i msg Hi) as (q & G1 & G2 & G3 & G4 & G5 & G6).
      exists q. rewrite nth_error_app1 by lia.
      rewrite firstn_snoc_below by lia. auto 10.
    + injection Hv as ->. exists p. rewrite length_app in Hlen.
      simpl in Hlen. subst i.
      replace (length log + 1 - 1) with (length log) by lia.
      split; [lia |]. split.
      { rewrite nth_error_app1 by (rewrite length_app; simpl; lia).
        rewrite nth_error_app2 by lia. rewrite Nat.sub_diag. reflexivity. }
      split; [exact Hp |]. split; [| auto].
      rewrite firstn_snoc_below by (rewrite length_app; simpl; lia).
      rewrite firstn_app, Nat.sub_diag, firstn_all. simpl.
      rewrite app_nil_r. exact Hpub.
  - intros i s q Hi. apply nth_error_snoc_cases in Hi.
    destruct Hi as [[_ Hi] | [_ Hv]]; [apply (H2 i s q Hi) | discriminate].
Qed.

Lemma NatsStream_passes_in_order (xs : list DataRawReadable) :
  forall (seen : list DataRawReadable) (made : list broker_call),
    in_order seen made ->
    in_order (seen ++ xs) (fst (passes body made xs)).
Proof.
  induction xs as [| x rest IH]; intros seen made Hm; simpl.
  - rewrite app_nil_r. exact Hm.
  - assert (Hin : In x (seen ++ [x])) by (apply in_or_app; right; left; reflexivity).
    assert (Hm' : in_order (seen ++ [x]) made)
      by (apply in_order_more; exact Hm).
    change (x :: rest) with ([x] ++ rest). rewrite app_assoc.
    unfold NatsStream_pass at 1.
    destruct (Data_Read x) as [p [e |]] eqn:Hread.
    + rewrite app_nil_r. specialize (IH (seen ++ [x]) made Hm').
      destruct (passes body made rest) as [all events]. exact IH.
    + assert (Hpub : in_order (seen ++ [x]) (made ++ [Publish subj p]))
        by (eapply in_order_publish; eauto).
      destruct (js_Publish j made subj p) as [e |] eqn:Hjs.
      * specialize (IH (seen ++ [x]) (made ++ [Publish subj p]) Hpub).
        destruct (passes body (made ++ [Publish subj p]) rest). exact IH.
      * destruct (Raw_ackable x) eqn:Hack.
        -- assert (Hacked : in_order (seen ++ [x])
                                      (made ++ [Publish subj p; Ack x])).
           { change (made ++ [Publish subj p; Ack x])
               with (made ++ [Publish subj p] ++ [Ack x]).
             rewrite app_assoc. eapply in_order_ack; eauto. }
           destruct (Raw_Ack (made ++ [Publish subj p]) x) as [e |].
           ++ specialize (IH (seen ++ [x])
                             (made ++ [Publish subj p; Ack x]) Hacked).
              destruct (passes body (made ++ [Publish subj p; Ack x]) rest).
              exact IH.
           ++ specialize (IH (seen ++ [x])
                             (made ++ [Publish subj p; Ack x]) Hacked).
              destruct (passes body (made ++ [Publish subj p; Ack x]) rest).
              exact IH.
        -- specialize (IH (seen ++ [x]) (made ++ [Publish subj p]) Hpub).
           destruct (passes body (made ++ [Publish subj p]) rest). exact IH.
Qed.

(** Every event due is a temporary ErrorEvent with a cause. *)
Lemma NatsStream_passes_events (xs : list DataRawReadable) :
  forall (made : list broker_call) (e : Event),
    In e (snd (passes body made xs)) ->
    exists m cause,
      e = NewErrorEvent m (Some cause) true /\
      (m = "failed to read data"%string \/
       m = "failed to publish message to nats"%string \/
       m = "failed to ack message"%string).
Proof.
  induction xs as [| x rest IH]; intros made e; simpl; [intros [] |].
  unfold NatsStream_pass at 1.
  destruct (Data_Read x) as [p [e1 |]].
  - specialize (IH (made ++ []) e).
    destruct (passes body (made ++ []) rest). simpl in *.
    intros [<- | H]; [eauto 10 | auto].
  - destruct (js_Publish j made subj p) as [e1 |].
    + specialize (IH (made ++ [Publish subj p]) e).
      destruct (passes body (made ++ [Publish subj p]) rest). simpl in *.
      intros [<- | H]; [eauto 10 | auto].
    + destruct (Raw_ackable x).
      * destruct (Raw_Ack (made ++ [Publish subj p]) x) as [e1 |].
        -- specialize (IH (made ++ [Publish subj p; Ack x]) e).
           destruct (passes body (made ++ [Publish subj p; Ack x]) rest).
           simpl in *. intros [<- | H]; [eauto 10 | auto].
        -- specialize (IH (made ++ [Publish subj p; Ack x]) e).
           destruct (passes body (made ++ [Publish subj p; Ack x]) rest).
           simpl in *. auto.
      * specialize (IH (made ++ [Publish subj p]) e).
        destruct (passes body (made ++ [Publish subj p]) rest).
        simpl in *. auto.
Qed.

End NatsFacts.

(** X13: the NatsStream sink acknowledges a message only after the broker
    has accepted it.  For a sink that [NewNatsStream] returned without an
    error, whatever the broker answers and in any state the sink can reach:
    every [Ack] in the log of calls directly follows the [Publish] of the
    data of the same message, a message that was received, whose data was
    read without error and whose [Publish] returned no error; every
    [Publish] is on the sink's subject and carries the data of a received
    message; and every event sent is a temporary ErrorEvent that has a
    cause, so that it can be rendered, with one of the sink's three
    messages. *)
Theorem NatsStream_acks_only_after_publish
        (JetStream : Type)
        (js_Publish :
           JetStream -> list broker_call -> string -> string -> option error)
        (Raw_Ack : list broker_call -> DataRawReadable -> option error)
        (j : JetStream) (subj : string)
        (input : chan DataRawReadable) (ev : option (chan Event)) :
  subj <> EmptyString ->
  exists (b : NatsStream JetStream)
         (c0 : sink_config DataRawReadable broker_call),
    NewNatsStream (Some j) subj = (b, None) /\
    NatsStream_Load js_Publish Raw_Ack b input ev = Some c0 /\
    forall c : sink_config DataRawReadable broker_call,
      sink_reachable c0 c ->
      in_order js_Publish j subj (consumed c) (calls c) /\
      (forall e, In e (reported c) ->
         exists m cause,
           e = NewErrorEvent m (Some cause) true /\
           Event_String e = Returns (m ++ ": " ++ error_Error cause)%string /\
           (m = "failed to read data"%string \/
            m = "failed to publish message to nats"%string \/
            m = "failed to ack message"%string)) /\
      (at_pc c = SinkReturned -> exhausted (sink_in c)) /\
      (at_pc c = SinkPanicked ->
       exists ch, sink_eventC c = Some ch /\ closed ch = true).
Proof.
  intros Hs.
  exists (mkNatsStream (Some j) subj),
         (start (NatsStream_pass js_Publish Raw_Ack j subj) input ev).
  split.
  { unfold NewNatsStream.
    destruct (String.eqb subj EmptyString) eqn:E; [| reflexivity].
    apply String.eqb_eq in E. contradiction. }
  split; [reflexivity |].
  intros c Hr.
  destruct (sink_history Hr) as (_ & Hc & (later & Hl) & _ & Hi & Hp).
  split; [| split; [| split; [exact Hi | exact Hp]]].
  - rewrite Hc.
    apply (@NatsStream_passes_in_order JetStream js_Publish Raw_Ack j subj
             (consumed c) [] []).
    split; intros [| i]; discriminate.
  - intros e He.
    destruct (@NatsStream_passes_events JetStream js_Publish Raw_Ack j subj
                (consumed c) [] e) as (m & cause & -> & Hm).
    { rewrite Hl. apply in_or_app. left. exact He. }
    exists m, cause. auto.
Qed.

(** X14: when every message can be read and the broker accepts every call,
    the NatsStream sink publishes every message, in order, acknowledges
    each one that can be acknowledged right after publishing it, sends no
    event, and returns once its input is closed and empty, whatever the
    event stream is. *)
Theorem NatsStream_delivers_when_broker_accepts
        (JetStream : Type)
        (js_Publish :
           JetStream -> list broker_call -> string -> string -> option error)
        (Raw_Ack : list broker_call -> DataRawReadable -> option error)
        (j : JetStream) (subj : string)
        (xs : list DataRawReadable) (ev : option (chan Event)) :
  (forall msg, In msg xs -> snd (Data_Read msg) = None) ->
  (forall made p, js_Publish j made subj p = None) ->
  (forall made msg, Raw_Ack made msg = None) ->
  exists c0 n,
    NatsStream_Load js_Publish Raw_Ack (mkNatsStream (Some j) subj)
                    (loaded xs) ev = Some c0 /\
    forall m, n <= m ->
      let c := sink_run m c0 in
      at_pc c = SinkReturned /\ consumed c = xs /\ reported c = [] /\
      calls c
      = flat_map (fun msg =>
                    Publish subj (fst (Data_Read msg))
                    :: (if Raw_ackable msg then [Ack msg] else [])) xs.
Proof.
  intros Hread Hpub Hack.
  assert (Hp : forall made,
             passes (NatsStream_pass js_Publish Raw_Ack j subj) made xs
             = (made ++ flat_map
                          (fun msg =>
                             Publish subj (fst (Data_Read msg))
                             :: (if Raw_ackable msg then [Ack msg] else []))
                          xs, [])).
  { induction xs as [| x rest IH]; intros made; simpl.
    - rewrite app_nil_r. reflexivity.
    - unfold NatsStream_pass at 1.
      pose proof (Hread x (or_introl eq_refl)) as Hx.
      destruct (Data_Read x) as [p e]. simpl in Hx. subst e.
      rewrite Hpub. simpl.
      assert (Hrest : forall msg, In msg rest -> snd (Data_Read msg) = None)
        by (intros msg Hm; apply Hread; right; exact Hm).
      destruct (Raw_ackable x); [rewrite Hack |];
        rewrite (IH Hrest), <- app_assoc; reflexivity. }
  eexists. 
  destruct (@sink_completes DataRawReadable broker_call
              (NatsStream_pass js_Publish Raw_Ack j subj) xs ev)
    as (n & Hn).
  { left. rewrite Hp. reflexivity. }
  exists n. split; [reflexivity |].
  intros m Hm. destruct (Hn m Hm) as (G1 & G2 & G3 & G4).
  rewrite Hp in G3, G4. cbv zeta. auto.
Qed.

(** * Properties of the sources *)

(** ** The source of the tests *)

Lemma src_leave_open (c : source_config) (p : source_pc) :
  closed (src_out c) = false ->
  src_leave c p
  = mkSource p (mkChan (cap (src_out c)) (buf (src_out c)) [] 0 true
                       (taken (src_out c)))
             (src_eventC c) (ctx_done c) (src_sent c) (src_reports c).
Proof. intros H. unfold src_leave, close_chan. rewrite H. reflexivity. Qed.

Lemma SendEvent_panics (ev : option (chan Event)) (e : Event) :
  SendEvent ev e = Panics -> exists ch, ev = Some ch /\ closed ch = true.
Proof.
  destruct ev as [ch |]; simpl; [| discriminate].
  unfold chan_send. destruct (closed ch) eqn:E; [eauto |].
  destruct (0 <? recvq ch); [discriminate |].
  destruct (length (buf ch) <? cap ch); discriminate.
Qed.

Local Ltac prefix_of r :=
  exists r;
  split; [solve [auto | rewrite <- app_assoc; auto] |];
  split; solve [auto | discriminate | intros; discriminate].

(** What holds of the source in every state it can reach. *)
Lemma source_invariant (s : SourceImpl) (done : bool)
      (ev : option (chan Event)) (c : source_config) :
  source_reachable (SourceImpl_Extract s done ev) c ->
  (exists rest,
      src_data s = src_sent c ++ rest /\
      (src_gone (src_pc c) = false -> rest = src_to_do (src_pc c)) /\
      (src_pc c = SrcReturned -> rest = [] \/ ctx_done c = true)) /\
  (forall d source rest,
      src_pc c = SrcAtSelect d source rest -> source = data d) /\
  (src_pc c <> SrcPanicked ->
   map fst (src_reports c) ++ src_event_in_hand (src_pc c)
   = map extracted (src_sent c)) /\
  (sendq (src_out c) = [] /\ buf (src_out c) = [] /\
   cap (src_out c) = 0 /\ taken (src_out c) = src_sent c /\
   closed (src_out c) = src_gone (src_pc c)) /\
  (src_pc c = SrcPanicked ->
   exists ch, src_eventC c = Some ch /\ closed ch = true).
Proof.
  intros Hr. induction Hr as [| c c' _ IH Hs].
  - simpl. split; [prefix_of (src_data s) |].
    split; [intros ? ? ? H0; discriminate H0 |]. split; [reflexivity |].
    split; [auto 10 | discriminate].
  - destruct IH as ((rest0 & Hd & Hto & Hret) & Hsrc & Hrep & Hout & Hpan).
    destruct Hout as (Hq & Hb & Hcap & Htk & Hcl).
    destruct Hs as [c c' Hgo | c | c | c ch Hev | c ch e Hev | c ch Hev];
      simpl.
    + unfold source_steps in Hgo.
      destruct (src_pc c) as [[| d rest] | d source rest | e rest | |] eqn:Hpc;
        simpl in Hcl, Hto, Hrep, Hgo.
      * (* the loop is over *)
        destruct Hgo as [<- | []]. rewrite src_leave_open by exact Hcl.
        simpl. rewrite (Hto eq_refl) in Hd.
        split; [prefix_of (@nil ReadableImpl) |]. split; [intros ? ? ? H0; discriminate H0 |].
        split; [intros _; rewrite app_nil_r; rewrite <- Hrep by discriminate;
                symmetry; apply app_nil_r |].
        split; [auto 10 | discriminate].
      * (* the next item is read *)
        destruct Hgo as [<- | []]. simpl.
        split; [prefix_of rest0 |].
        split; [intros d0 source0 rest1 H; injection H as <- <- _;
                reflexivity |].
        split; [intros _; apply Hrep; discriminate |].
        split; [auto 10 | discriminate].
      * (* the select *)
        apply in_app_or in Hgo. destruct Hgo as [Hgo | Hgo].
        -- destruct (ctx_done c) eqn:Hdone; [| destruct Hgo].
           destruct Hgo as [<- | []]. rewrite src_leave_open by exact Hcl.
           simpl. split; [prefix_of rest0 |]. split; [intros ? ? ? H0; discriminate H0 |].
           split; [intros _; apply Hrep; discriminate |].
           split; [auto 10 | discriminate].
        -- unfold chan_send in Hgo. rewrite Hcl in Hgo.
           assert (Hsrc' : source = data d) by (eapply Hsrc; reflexivity).
           destruct (0 <? recvq (src_out c)).
           ++ destruct Hgo as [<- | []]. simpl.
              rewrite (Hto eq_refl) in Hd.
              split; [prefix_of rest |].
              split; [intros ? ? ? H0; discriminate H0 |].
              split; [intros _; rewrite map_app, <- Hrep by discriminate;
                      rewrite app_nil_r, Hsrc'; reflexivity |].
              rewrite Htk. split; [auto 10 | discriminate].
           ++ rewrite Hb, Hcap in Hgo. simpl in Hgo. destruct Hgo.
      * (* the report *)
        destruct (SendEvent (src_eventC c) e) as [[ok ev'] | |] eqn:Hsend.
        -- destruct Hgo as [<- | []]. simpl.
           split; [prefix_of rest0 |].
           split; [intros ? ? ? H0; discriminate H0 |].
           split; [intros _; rewrite map_app, app_nil_r; apply Hrep;
                   discriminate |].
           split; [auto 10 | discriminate].
        -- destruct Hgo.
        -- destruct Hgo as [<- | []]. rewrite src_leave_open by exact Hcl.
           simpl. split; [prefix_of rest0 |].
           split; [intros ? ? ? H0; discriminate H0 |].
           split; [intros H; exfalso; apply H; reflexivity |].
           split; [auto 10 |]. intros _. apply SendEvent_panics in Hsend.
           exact Hsend.
      * destruct Hgo.
      * destruct Hgo.
    + (* the consumer *)
      split; [prefix_of rest0 |]. split; [exact Hsrc |].
      split; [exact Hrep |]. split; [| exact Hpan].
      unfold env_recv, chanrecv. rewrite Hb, Hq.
      destruct (closed (src_out c)) eqn:E; simpl; rewrite ?E; auto 10.
    + (* the context is cancelled *)
      split; [prefix_of rest0 |]. auto 10.
    + split; [prefix_of rest0 |]. split; [exact Hsrc |].
      split; [exact Hrep |]. split; [auto 10 |].
      intros Hp. destruct (Hpan Hp) as (ch0 & H1 & H2).
      rewrite Hev in H1. injection H1 as <-.
      eexists. split; [reflexivity |]. rewrite closed_env_recv. exact H2.
    + split; [prefix_of rest0 |]. split; [exact Hsrc |].
      split; [exact Hrep |]. split; [auto 10 |].
      intros Hp. destruct (Hpan Hp) as (ch0 & H1 & H2).
      rewrite Hev in H1. injection H1 as <-.
      eexists. split; [reflexivity |]. rewrite closed_env_send. exact H2.
    + split; [prefix_of rest0 |]. split; [exact Hsrc |].
      split; [exact Hrep |]. split; [auto 10 |].
      intros Hp. destruct (Hpan Hp) as (ch0 & H1 & H2).
      rewrite Hev in H1. injection H1 as <-.
      eexists. split; [reflexivity |].
      rewrite env_close_closed by exact H2. exact H2.
Qed.

Lemma SendEvent_open (ev : option (chan Event)) (e : Event) :
  (forall ch, ev = Some ch -> closed ch = false) ->
  exists ok ev',
    SendEvent ev e = Returns (ok, ev') /\
    (forall ch, ev' = Some ch -> closed ch = false) /\
    (ev = None -> ok = false /\ ev' = None).
Proof.
  intros Hopen. destruct ev as [ch |]; simpl.
  - specialize (Hopen ch eq_refl). unfold chan_send. rewrite Hopen.
    destruct (0 <? recvq ch).
    + do 2 eexists. split; [reflexivity |].
      split; [intros ch' H; injection H as <-; reflexivity | discriminate].
    + destruct (length (buf ch) <? cap ch).
      * do 2 eexists. split; [reflexivity |].
        split; [intros ch' H; injection H as <-; reflexivity | discriminate].
      * do 2 eexists. split; [reflexivity |].
        split; [intros ch' H; injection H as <-; exact Hopen | discriminate].
  - do 2 eexists. split; [reflexivity |]. split; [discriminate | auto].
Qed.

Lemma source_run_add (n m : nat) (c : source_config) :
  source_run (n + m) c = source_run m (source_run n c).
Proof. revert c. induction n as [| n IH]; intros c; simpl; auto. Qed.

Lemma source_settled (m : nat) (c : source_config) :
  src_pc c = SrcReturned -> source_run m c = c.
Proof.
  intros H. induction m as [| m IH]; simpl; [reflexivity |].
  unfold source_coop_step, source_steps. rewrite H. exact IH.
Qed.

(** With a consumer at [out] and nobody who cancels, the goroutine gets
    through the items it has left, whatever becomes of its reports. *)
Lemma source_run_completes (rest : list ReadableImpl) :
  forall (rq : nat) (tk : list ReadableImpl) (ev : option (chan Event))
         (snt : list ReadableImpl) (rep : list (Event * bool)),
    (forall ch, ev = Some ch -> closed ch = false) ->
    exists n,
      let c := source_run n (mkSource (SrcAtLoop rest)
                                      (mkChan 0 [] [] rq false tk) ev false
                                      snt rep) in
      src_pc c = SrcReturned /\ src_sent c = snt ++ rest /\
      taken (src_out c) = tk ++ rest /\ closed (src_out c) = true /\
      buf (src_out c) = [] /\
      map fst (src_reports c) = map fst rep ++ map extracted rest /\
      (ev = None ->
       map snd (src_reports c) = map snd rep ++ map (fun _ => false) rest).
Proof.
  induction rest as [| d rest IH]; intros rq tk ev snt rep Hopen.
  - exists 1. simpl. rewrite !app_nil_r. auto 10.
  - destruct (SendEvent_open (extracted d) Hopen)
      as (ok & ev' & Hsend & Hopen' & Hnil).
    assert (Hstep : exists k rq',
               source_run k (mkSource (SrcAtLoop (d :: rest))
                                      (mkChan 0 [] [] rq false tk) ev false
                                      snt rep)
               = mkSource (SrcAtLoop rest)
                          (mkChan 0 [] [] rq' false (tk ++ [d])) ev' false
                          (snt ++ [d]) (rep ++ [(extracted d, ok)])).
    { assert (Hlast : forall rq',
                 source_coop_step
                   (mkSource (SrcAtEvent (extracted d) rest)
                             (mkChan 0 [] [] rq' false (tk ++ [d])) ev false
                             (snt ++ [d]) rep)
                 = mkSource (SrcAtLoop rest)
                            (mkChan 0 [] [] rq' false (tk ++ [d])) ev' false
                            (snt ++ [d]) (rep ++ [(extracted d, ok)])).
      { intros rq'. unfold source_coop_step, source_steps.
        cbn [src_pc src_eventC]. rewrite Hsend. reflexivity. }
      destruct rq as [| rq].
      - exists 4, 0.
        change (source_run 4 ?x)
          with (source_coop_step
                  (source_coop_step (source_coop_step (source_coop_step x)))).
        rewrite <- Hlast. reflexivity.
      - exists 3, rq.
        change (source_run 3 ?x)
          with (source_coop_step (source_coop_step (source_coop_step x))).
        rewrite <- Hlast. unfold source_coop_step at 2 3.
        unfold source_steps, chan_send. simpl. rewrite Nat.sub_0_r.
        reflexivity. }
    destruct Hstep as (k & rq' & Hk).
    destruct (IH rq' (tk ++ [d]) ev' (snt ++ [d])
                 (rep ++ [(extracted d, ok)]) Hopen')
      as (n & G1 & G2 & G3 & G4 & G5 & G6 & G7).
    exists (k + n). rewrite source_run_add, Hk. cbv zeta.
    rewrite G1, G2, G3, G4, G5, G6, !map_app, <- !app_assoc. simpl.
    split; [reflexivity |]. split; [reflexivity |]. split; [reflexivity |].
    split; [reflexivity |]. split; [reflexivity |]. split; [reflexivity |].
    intros Hev. destruct (Hnil Hev) as [-> ->].
    rewrite (G7 eq_refl), map_app, <- app_assoc. reflexivity.
Qed.

(** X15: the source of the tests sends an initial part of its data, in
    order, and never waits for the event stream.  In any state it can reach,
    under any interleaving with its consumer, the users of the event stream
    and whoever cancels the context: what it has sent on [out] is an initial
    part of [s.data] and is what the consumer has taken; [out] is closed
    exactly when the goroutine is gone; if it has returned before the end of
    the data, the context was cancelled; it has called [SendEvent] once per
    item sent, with a LogEvent naming the item, and never with an
    ErrorEvent; it is parked only in the [select], with no consumer waiting
    and the context not cancelled; and it panics only on a closed event
    stream. *)
Theorem mock_source_sends_a_prefix
        (s : SourceImpl) (done : bool) (ev : option (chan Event))
        (c : source_config) :
  source_reachable (SourceImpl_Extract s done ev) c ->
  (exists rest,
      src_data s = src_sent c ++ rest /\
      (src_pc c = SrcReturned -> rest = [] \/ ctx_done c = true)) /\
  taken (src_out c) = src_sent c /\ buf (src_out c) = [] /\
  closed (src_out c) = src_gone (src_pc c) /\
  (src_pc c <> SrcPanicked ->
   map fst (src_reports c) ++ src_event_in_hand (src_pc c)
   = map extracted (src_sent c)) /\
  (source_steps c = [] ->
   src_gone (src_pc c) = true \/
   exists d source rest,
     src_pc c = SrcAtSelect d source rest /\ ctx_done c = false /\
     recvq (src_out c) = 0) /\
  (src_pc c = SrcPanicked ->
   exists ch, src_eventC c = Some ch /\ closed ch = true).
Proof.
  intros Hr.
  destruct (source_invariant Hr)
    as ((rest & Hd & _ & Hret) & _ & Hrep & (Hq & Hb & Hcap & Htk & Hcl) & Hp).
  split; [exists rest; auto |]. split; [exact Htk |]. split; [exact Hb |].
  split; [exact Hcl |]. split; [exact Hrep |]. split; [| exact Hp].
  unfold source_steps.
  destruct (src_pc c) as [[| d r] | d source r | e r | |] eqn:Hpc; simpl;
    auto; try discriminate.
  - destruct (ctx_done c); [discriminate |]. simpl.
    unfold chan_send. simpl in Hcl. rewrite Hcl.
    destruct (0 <? recvq (src_out c)) eqn:E; [discriminate |].
    apply Nat.ltb_ge in E. intros _. right. exists d, source, r.
    split; [reflexivity |]. split; [reflexivity | lia].
  - pose proof (SendEvent_never_blocks (src_eventC c) e) as Hnb.
    destruct (SendEvent (src_eventC c) e) as [[ok ev'] | |];
      try discriminate. contradiction.
Qed.

(** X16: with a consumer at [out] and a context that is not cancelled, the
    source of the tests delivers all its data, whatever the event stream is:
    nil, full or without a reader, as long as it is not closed.  The run
    ends with [out] closed and empty; the consumer has taken [s.data] in
    order; [SendEvent] was called once per item, and with a nil event stream
    every call returned false. *)
Theorem mock_source_delivers_everything
        (s : SourceImpl) (ev : option (chan Event)) :
  (forall ch, ev = Some ch -> closed ch = false) ->
  exists n, forall m, n <= m ->
    let c := source_run m (SourceImpl_Extract s false ev) in
    src_pc c = SrcReturned /\ src_sent c = src_data s /\
    taken (src_out c) = src_data s /\ buf (src_out c) = [] /\
    closed (src_out c) = true /\
    map fst (src_reports c) = map extracted (src_data s) /\
    (ev = None -> map snd (src_reports c)
                  = map (fun _ => false) (src_data s)).
Proof.
  intros Hopen.
  destruct (source_run_completes (src_data s) 0 [] [] [] Hopen)
    as (n & G1 & G2 & G3 & G4 & G5 & G6 & G7).
  exists n. intros m Hm. cbv zeta.
  replace m with (n + (m - n)) by lia.
  unfold SourceImpl_Extract, make_chan.
  rewrite source_run_add, source_settled by exact G1.
  simpl in G2, G3, G6, G7. auto 10.
Qed.

(** ** The broker stream *)

Section BrokerFacts.
Variables JetStream ConsumerConfig Message : Type.
Variable js_CreateOrUpdateConsumer :
  JetStream -> string -> ConsumerConfig -> option error.
Variable consumer_Messages : nat -> option error.
Variable msgs_Next : nat -> option Message * option error.

Local Abbreviation config := (broker_config JetStream ConsumerConfig Message).
Local Abbreviation step :=
  (broker_step js_CreateOrUpdateConsumer consumer_Messages msgs_Next).
Local Abbreviation move :=
  (broker_move js_CreateOrUpdateConsumer consumer_Messages msgs_Next).
Local Abbreviation reachable :=
  (broker_reachable js_CreateOrUpdateConsumer consumer_Messages msgs_Next).

Lemma NewJSMsg_never_fails (msg : option Message) :
  NewJSMsg msg = (mkJSMsg msg, None).
Proof. destruct msg; reflexivity. Qed.

Lemma b_leave_open (c : config) (p : broker_pc Message) :
  closed (b_out c) = false ->
  b_leave c p
  = mkBroker (self c) p
             (mkChan (cap (b_out c)) (buf (b_out c)) [] 0 true
                     (taken (b_out c)))
             (b_eventC c) (b_ctx_done c) (n_Messages c) (n_Next c)
             (b_sent c) (b_emitted c).
Proof. intros H. unfold b_leave, close_chan. rewrite H. reflexivity. Qed.

Lemma b_leave_pc (c : config) (p : broker_pc Message) :
  b_pc (b_leave c p) = p \/ b_pc (b_leave c p) = BPanicked.
Proof.
  unfold b_leave. destruct (close_chan (b_out c)); simpl; auto.
Qed.

(** The loop over [msgs.Next()] has no way out but a panic. *)
Lemma message_loop_step (c c' : config) :
  move c c' ->
  in_message_loop (b_pc c) = true \/ b_pc c = BPanicked ->
  in_message_loop (b_pc c') = true \/ b_pc c' = BPanicked.
Proof.
  intros Hm Hin.
  destruct Hm as [c c' Hgo | | | | |]; simpl; auto.
  unfold broker_step in Hgo.
  destruct Hin as [Hin | Hp]; [| rewrite Hp in Hgo; discriminate].
  destruct (b_pc c) as [| | | v | e k | |]; try discriminate.
  - destruct (msgs_Next (n_Next c)) as [msg [e |]].
    + injection Hgo as <-. left. reflexivity.
    + rewrite NewJSMsg_never_fails in Hgo. injection Hgo as <-.
      left. reflexivity.
  - destruct (chan_send (b_out c) v true) as [[ok out'] | |];
      try discriminate; injection Hgo as <-.
    + left. reflexivity.
    + right. destruct (b_leave_pc c BPanicked); assumption.
  - destruct k; try discriminate.
    destruct (chansend (b_eventC c) e true) as [[ok ev'] | |];
      try discriminate; injection Hgo as <-.
    + left. reflexivity.
    + right. destruct (b_leave_pc c BPanicked); assumption.
Qed.

Lemma message_loop_reachable (c c' : config) :
  reachable c c' ->
  in_message_loop (b_pc c) = true \/ b_pc c = BPanicked ->
  in_message_loop (b_pc c') = true \/ b_pc c' = BPanicked.
Proof.
  intros Hr Hin. induction Hr as [| c1 c2 _ IH Hm]; [exact Hin |].
  eapply message_loop_step; eauto.
Qed.

End BrokerFacts.

Section BrokerInvariant.
Variables JetStream ConsumerConfig Message : Type.
Variable js_CreateOrUpdateConsumer :
  JetStream -> string -> ConsumerConfig -> option error.
Variable consumer_Messages : nat -> option error.
Variable msgs_Next : nat -> option Message * option error.
Variable b : BrokerStream JetStream ConsumerConfig.

Local Abbreviation config := (broker_config JetStream ConsumerConfig Message).
Local Abbreviation reachable :=
  (broker_reachable js_CreateOrUpdateConsumer consumer_Messages msgs_Next).

(** What holds of the output channel, which has no buffer and no sender
    but the goroutine. *)
Lemma broker_out_recv (c : config) :
  sendq (b_out c) = [] /\ buf (b_out c) = [] /\ cap (b_out c) = 0 /\
  taken (b_out c) = b_sent c /\ closed (b_out c) = b_gone (b_pc c) ->
  sendq (env_recv (b_out c)) = [] /\ buf (env_recv (b_out c)) = [] /\
  cap (env_recv (b_out c)) = 0 /\ taken (env_recv (b_out c)) = b_sent c /\
  closed (env_recv (b_out c)) = b_gone (b_pc c).
Proof.
  intros (Hq & Hb & Hcap & Htk & Hcl).
  unfold env_recv, chanrecv. rewrite Hb, Hq.
  destruct (closed (b_out c)) eqn:E; simpl; rewrite ?E; auto 10.
Qed.

Lemma broker_invariant (done : bool) (ev : option (chan Event))
      (c : config) :
  reachable (BrokerStream_Extract Message b done ev) c ->
  self c = b /\
  (sendq (b_out c) = [] /\ buf (b_out c) = [] /\ cap (b_out c) = 0 /\
   taken (b_out c) = b_sent c /\ closed (b_out c) = b_gone (b_pc c)) /\
  (b_pc c <> BPanicked ->
   b_sent c ++ b_in_hand (b_pc c) = fetched msgs_Next (n_Next c)) /\
  (forall e, In e (b_emitted c ++ b_event_in_hand (b_pc c)) ->
             broker_report e) /\
  (in_message_loop (b_pc c) = false -> b_pc c <> BPanicked ->
   n_Next c = 0 /\ b_sent c = []) /\
  (forall e, b_pc c = BAtSendEvent e ThenReturn ->
             exists cause,
               e = NewErrorEvent "failed to create or update consumer"
                                 (Some cause) false) /\
  (b_pc c = BReturned ->
   b_ctx_done c = true \/
   exists cause,
     In (NewErrorEvent "failed to create or update consumer" (Some cause)
                       false) (b_emitted c)) /\
  (b_pc c = BPanicked ->
   js b = None \/ exists ch, b_eventC c = Some ch /\ closed ch = true).
Proof.
  intros Hr. induction Hr as [| c c' _ IH Hm].
  - simpl. split; [reflexivity |]. split; [auto 10 |].
    split; [reflexivity |]. split; [intros e [] |].
    split; [auto |]. split; [discriminate |]. split; discriminate.
  - destruct IH as (Hself & Hout & Hfetch & Hknown & Hpre & Hcreate & Hret
                    & Hpan).
    destruct Hm as [c c' Hgo | c | c | c ch Hev | c ch e Hev | c ch Hev];
      simpl.
    + destruct Hout as (Hq & Hb & Hcap & Htk & Hcl).
      unfold broker_step in Hgo.
      destruct (b_pc c) as [| | | v | e k | |] eqn:Hpc; try discriminate;
        simpl in Hcl, Hfetch, Hknown, Hpre.
      * (* the consumer is created *)
        rewrite Hself in Hgo. destruct (js b) as [j |] eqn:Hjs.
        -- destruct (js_CreateOrUpdateConsumer j (stream b) (conf b))
             as [e |]; injection Hgo as <-; simpl.
           ++ split; [exact Hself |]. split; [auto 10 |].
              split; [intros _; apply Hfetch; discriminate |].
              split.
              { intros e0 H0. apply in_app_or in H0.
                destruct H0 as [H0 | [<- | []]].
                - apply Hknown. rewrite app_nil_r. exact H0.
                - exists e. auto. }
              split; [intros _ _; apply Hpre; [reflexivity | discriminate] |].
              split; [intros e0 H0; injection H0 as <-; eauto |].
              split; discriminate.
           ++ split; [exact Hself |]. split; [auto 10 |].
              split; [intros _; apply Hfetch; discriminate |].
              split; [exact Hknown |].
              split; [intros _ _; apply Hpre; [reflexivity | discriminate] |].
              split; [discriminate |]. split; discriminate.
        -- injection Hgo as <-. rewrite b_leave_open by exact Hcl. simpl.
           split; [exact Hself |]. split; [auto 10 |].
           split; [intros H; exfalso; apply H; reflexivity |].
           split; [exact Hknown |].
           split; [intros _ H; exfalso; apply H; reflexivity |].
           split; [discriminate |]. split; [discriminate | auto].
      * (* the select *)
        destruct (b_ctx_done c) eqn:Hdone.
        -- injection Hgo as <-. rewrite b_leave_open by exact Hcl. simpl.
           split; [exact Hself |]. split; [auto 10 |].
           split; [intros _; apply Hfetch; discriminate |].
           split; [exact Hknown |].
           split; [intros _ _; apply Hpre; [reflexivity | discriminate] |].
           split; [discriminate |]. split; [auto | discriminate].
        -- destruct (Hpre eq_refl) as [Hn0 Hs0]; [discriminate |].
           destruct (consumer_Messages (n_Messages c)) as [e |];
             injection Hgo as <-; simpl.
           ++ split; [exact Hself |]. split; [auto 10 |].
              split; [intros _; apply Hfetch; discriminate |].
              split.
              { intros e0 H0. apply in_app_or in H0.
                destruct H0 as [H0 | [<- | []]].
                - apply Hknown. rewrite app_nil_r. exact H0.
                - exists e. auto. }
              split; [auto |]. split; [discriminate |]. split; discriminate.
           ++ split; [exact Hself |]. split; [auto 10 |].
              split; [intros _; apply Hfetch; discriminate |].
              split; [exact Hknown |].
              split; [discriminate |]. split; [discriminate |].
              split; discriminate.
      * (* the next message *)
        destruct (msgs_Next (n_Next c)) as [msg [e |]] eqn:Hnext.
        -- injection Hgo as <-. simpl. rewrite Hnext.
           split; [exact Hself |]. split; [auto 10 |].
           split; [intros _; rewrite !app_nil_r; rewrite <- Hfetch by discriminate;
                   symmetry; apply app_nil_r |].
           split.
           { intros e0 H0. apply in_app_or in H0.
             destruct H0 as [H0 | [<- | []]].
             - apply Hknown. rewrite app_nil_r. exact H0.
             - exists e. auto. }
           split; [discriminate |]. split; [discriminate |].
           split; discriminate.
        -- rewrite NewJSMsg_never_fails in Hgo. injection Hgo as <-. simpl.
           rewrite Hnext, NewJSMsg_never_fails. simpl.
           split; [exact Hself |]. split; [auto 10 |].
           split; [intros _; rewrite <- Hfetch by discriminate;
                   rewrite app_nil_r; reflexivity |].
           split; [exact Hknown |].
           split; [discriminate |]. split; [discriminate |].
           split; discriminate.
      * (* the message is sent *)
        unfold chan_send in Hgo. rewrite Hcl in Hgo.
        destruct (0 <? recvq (b_out c)).
        -- injection Hgo as <-. simpl.
           split; [exact Hself |]. split; [rewrite Htk; auto 10 |].
           split; [intros _; rewrite app_nil_r; apply Hfetch; discriminate |].
           split; [exact Hknown |].
           split; [discriminate |]. split; [discriminate |].
           split; discriminate.
        -- rewrite Hb, Hcap in Hgo. simpl in Hgo. discriminate.
      * (* the report is sent *)
        destruct (chansend (b_eventC c) e true) as [[ok ev'] | |] eqn:Hsend;
          try discriminate; injection Hgo as <-.
        -- assert (Hknown' : forall e0, In e0 ((b_emitted c ++ [e]) ++ []) ->
                                        broker_report e0).
           { intros e0 H0. rewrite app_nil_r in H0. apply Hknown. exact H0. }
           destruct k; simpl.
           ++ destruct (Hpre eq_refl) as [Hn0 Hs0]; [discriminate |].
              destruct (Hcreate e eq_refl) as (cause & ->).
              rewrite b_leave_open by exact Hcl. simpl.
              split; [exact Hself |]. split; [auto 10 |].
              split; [intros _; apply Hfetch; discriminate |].
              split; [exact Hknown' |].
              split; [auto |]. split; [discriminate |].
              split; [| discriminate].
              intros _. right. exists cause. apply in_or_app. right.
              left. reflexivity.
           ++ destruct (Hpre eq_refl) as [Hn0 Hs0]; [discriminate |].
              split; [exact Hself |]. split; [auto 10 |].
              split; [intros _; apply Hfetch; discriminate |].
              split; [exact Hknown' |].
              split; [auto |]. split; [discriminate |].
              split; discriminate.
           ++ split; [exact Hself |]. split; [auto 10 |].
              split; [intros _; apply Hfetch; discriminate |].
              split; [exact Hknown' |].
              split; [discriminate |]. split; [discriminate |].
              split; discriminate.
        -- rewrite b_leave_open by exact Hcl. simpl.
           split; [exact Hself |]. split; [auto 10 |].
           split; [intros H; exfalso; apply H; reflexivity |].
           split.
           { intros e0 H0. apply Hknown. rewrite app_nil_r in H0.
             apply in_or_app. left. exact H0. }
           split; [intros _ H; exfalso; apply H; reflexivity |].
           split; [discriminate |]. split; [discriminate |].
           intros _. right. apply chansend_panics in Hsend. exact Hsend.
    + split; [exact Hself |]. split; [apply broker_out_recv; exact Hout |].
      auto 10.
    + split; [exact Hself |]. split; [exact Hout |]. auto 10.
    + split; [exact Hself |]. split; [exact Hout |].
      split; [exact Hfetch |]. split; [exact Hknown |].
      split; [exact Hpre |]. split; [exact Hcreate |].
      split; [exact Hret |].
      intros Hp. destruct (Hpan Hp) as [Hj | (ch0 & H1 & H2)]; [auto |].
      rewrite Hev in H1. injection H1 as <-. right.
      eexists. split; [reflexivity |]. rewrite closed_env_recv. exact H2.
    + split; [exact Hself |]. split; [exact Hout |].
      split; [exact Hfetch |]. split; [exact Hknown |].
      split; [exact Hpre |]. split; [exact Hcreate |].
      split; [exact Hret |].
      intros Hp. destruct (Hpan Hp) as [Hj | (ch0 & H1 & H2)]; [auto |].
      rewrite Hev in H1. injection H1 as <-. right.
      eexists. split; [reflexivity |]. rewrite closed_env_send. exact H2.
    + split; [exact Hself |]. split; [exact Hout |].
      split; [exact Hfetch |]. split; [exact Hknown |].
      split; [exact Hpre |]. split; [exact Hcreate |].
      split; [exact Hret |].
      intros Hp. destruct (Hpan Hp) as [Hj | (ch0 & H1 & H2)]; [auto |].
      rewrite Hev in H1. injection H1 as <-. right.
      eexists. split; [reflexivity |].
      rewrite env_close_closed by exact H2. exact H2.
Qed.

End BrokerInvariant.

(** X17: once the broker source iterates over messages, cancelling the
    context does not stop it.  From any state in which the goroutine of
    [BrokerStream.Extract] is in the loop over [msgs.Next()], which it
    enters at the first call of [consumer.Messages] that succeeds, every
    state it can reach, whatever the broker answers and whether or not the
    context is cancelled, is again in that loop, unless the goroutine has
    panicked: it never returns, and [out] is closed only by a panic, of
    which the only cause is an event stream that was closed. *)
Theorem BrokerStream_never_leaves_the_message_loop
        (JetStream ConsumerConfig Message : Type)
        (js_CreateOrUpdateConsumer :
           JetStream -> string -> ConsumerConfig -> option error)
        (consumer_Messages : nat -> option error)
        (msgs_Next : nat -> option Message * option error)
        (b : BrokerStream JetStream ConsumerConfig)
        (done : bool) (ev : option (chan Event))
        (c c' : broker_config JetStream ConsumerConfig Message) :
  broker_reachable js_CreateOrUpdateConsumer consumer_Messages msgs_Next
                   (BrokerStream_Extract Message b done ev) c ->
  broker_reachable js_CreateOrUpdateConsumer consumer_Messages msgs_Next
                   c c' ->
  in_message_loop (b_pc c) = true ->
  b_pc c' <> BReturned /\
  (in_message_loop (b_pc c') = true \/ b_pc c' = BPanicked) /\
  (closed (b_out c') = true ->
   b_pc c' = BPanicked /\
   exists ch, b_eventC c' = Some ch /\ closed ch = true).
Proof.
  intros Hr Hr' Hin.
  assert (Hall : broker_reachable js_CreateOrUpdateConsumer consumer_Messages
                                  msgs_Next
                                  (BrokerStream_Extract Message b done ev) c').
  { clear Hin. induction Hr' as [| c1 c2 _ IH Hm]; [exact Hr |].
    eapply broker_reach_step; eauto. }
  destruct (message_loop_reachable Hr' (or_introl Hin)) as [Hl | Hp].
  - destruct (broker_invariant Hall) as (_ & (_ & _ & _ & _ & Hcl) & _).
    split; [intros H; rewrite H in Hl; discriminate |].
    split; [left; exact Hl |].
    intros H. rewrite Hcl in H.
    destruct (b_pc c') as [| | | v | e k | |]; discriminate.
  - destruct (broker_invariant Hall) as (_ & _ & _ & _ & _ & _ & _ & Hpan).
    split; [rewrite Hp; discriminate |]. split; [right; exact Hp |].
    intros _. split; [exact Hp |].
    destruct (Hpan Hp) as [Hjs | Hev]; [| exact Hev].
    (* a source without a handle panics before it reaches the loop *)
    exfalso.
    assert (Hno : forall c1,
               broker_reachable js_CreateOrUpdateConsumer consumer_Messages
                                msgs_Next
                                (BrokerStream_Extract Message b done ev) c1 ->
               b_pc c1 = BAtCreate \/ b_pc c1 = BPanicked).
    { intros c1 H1. induction H1 as [| c1 c2 H1 IH Hm]; [left; reflexivity |].
      destruct (broker_invariant H1) as (Hself & _).
      destruct Hm as [c1 c2 Hgo | | | | |]; simpl; auto.
      unfold broker_step in Hgo. rewrite Hself, Hjs in Hgo.
      destruct IH as [H | H]; rewrite H in Hgo; [| discriminate].
      injection Hgo as <-. right.
      destruct (b_leave_pc c1 BPanicked); assumption. }
    destruct (Hno c Hr) as [H | H]; rewrite H in Hin; discriminate.
Qed.


(** ** The handler of the HTTP source *)

Lemma string_length_append (s t : string) :
  String.length (s ++ t) = String.length s + String.length t.
Proof. induction s as [| a s IH]; simpl; [reflexivity | rewrite IH; reflexivity]. Qed.

Lemma get_last_append (s : string) (a : Ascii.ascii) :
  String.get (String.length (s ++ String a EmptyString) - 1)
             (s ++ String a EmptyString)
  = Some a.
Proof.
  rewrite string_length_append. simpl.
  replace (String.length s + 1 - 1) with (0 + String.length s) by lia.
  rewrite <- append_correct2. reflexivity.
Qed.

Lemma length_zero_empty (s : string) :
  (String.length s =? 0) = true <-> s = EmptyString.
Proof.
  destruct s; simpl; split; intros H; try reflexivity; discriminate.
Qed.

(** The log the handler builds by hand is the one [NewHTTPLog] would build
    only for a remote address that is not empty and a generated id that is
    the nil UUID. *)
Lemma NewHTTPLog_builds (bytes remoteAddr : string) (u : UUID) :
  NewHTTPLog (Some bytes) remoteAddr (u, None)
  = (mkHTTPLog remoteAddr (Some bytes) uuid_Nil, None)
  <-> remoteAddr <> EmptyString /\ u = uuid_Nil.
Proof.
  unfold NewHTTPLog. destruct (String.eqb remoteAddr EmptyString) eqn:E.
  - apply String.eqb_eq in E. subst remoteAddr. split.
    + intros H. discriminate.
    + intros [H _]. contradiction.
  - apply String.eqb_neq in E. split.
    + intros H. injection H as ->. auto.
    + intros [_ ->]. reflexivity.
Qed.

(** X19: the handler of the HTTP source sends downstream exactly one log
    for a request whose body was read without error and is not empty, and
    none for any other request.  The bytes of the log are not empty and end
    with a newline: they are the body, with a newline appended unless the
    body ends with one, so that posting the bytes of a log again gives the
    same actions.  The log is built without [NewHTTPLog]: its id is the nil
    UUID and its address is the remote address as it is, the empty one
    included.  The response 200 OK is written only after the log has been
    sent; a read error is answered by 500 and an empty body by 400, with
    nothing sent. *)
Theorem ServeHTTP_sends_one_terminated_log
        (body : string) (readErr : option error) (remoteAddr : string)
        (written : option error) :
  let acts := ServeHTTP (body, readErr) remoteAddr written in
  (readErr = None /\ body <> EmptyString ->
   exists bytes rest,
     acts = SendLog (mkHTTPLog remoteAddr (Some bytes) uuid_Nil)
            :: Response_WriteHeader 200 :: Response_Write "OK" :: rest /\
     logs_sent acts = [mkHTTPLog remoteAddr (Some bytes) uuid_Nil] /\
     bytes <> EmptyString /\
     String.get (String.length bytes - 1) bytes = Some newlineByte /\
     (bytes = body \/
      bytes = (body ++ String newlineByte EmptyString)%string) /\
     (String.get (String.length body - 1) body = Some newlineByte ->
      bytes = body) /\
     ServeHTTP (bytes, None) remoteAddr written = acts /\
     (forall u : UUID,
         NewHTTPLog (Some bytes) remoteAddr (u, None)
         = (mkHTTPLog remoteAddr (Some bytes) uuid_Nil, None)
         <-> remoteAddr <> EmptyString /\ u = uuid_Nil) /\
     (rest = [] \/
      exists e, written = Some e /\
                rest = [ReportEvent (NewErrorEvent "failed to write response"
                                                   (Some e) true)])) /\
  (readErr <> None ->
   acts = [http_Error "Internal Server Error" 500] /\ logs_sent acts = []) /\
  (readErr = None -> body = EmptyString ->
   acts = [http_Error "Bad Request" 400] /\ logs_sent acts = []).
Proof.
  intros acts. unfold acts, ServeHTTP. split; [| split].
  - intros [-> Hbody].
    assert (Hlen : (String.length body =? 0) = false).
    { destruct (String.length body =? 0) eqn:E; [| reflexivity].
      apply length_zero_empty in E. contradiction. }
    rewrite Hlen.
    set (rest := match written with
                 | Some e =>
                     [ReportEvent (NewErrorEvent "failed to write response"
                                                 (Some e) true)]
                 | None => []
                 end).
    assert (Hrest : rest = [] \/
                    exists e, written = Some e /\
                      rest = [ReportEvent
                                (NewErrorEvent "failed to write response"
                                               (Some e) true)]).
    { unfold rest. destruct written as [e |]; eauto. }
    assert (Hlogs : forall l, logs_sent ([SendLog l; Response_WriteHeader 200;
                                          Response_Write "OK"] ++ rest) = [l]).
    { intros l. unfold rest. destruct written; reflexivity. }
    destruct (String.get (String.length body - 1) body) as [last |] eqn:Hget.
    + destruct (Ascii.eqb last newlineByte) eqn:Hnl.
      * apply Ascii.eqb_eq in Hnl. subst last.
        exists body, rest. rewrite Hlen, Hget, Ascii.eqb_refl.
        split; [reflexivity |]. split; [apply Hlogs |].
        split; [exact Hbody |]. split; [reflexivity |]. split; [auto |].
        split; [auto |]. split; [reflexivity |].
        split; [intros u; apply NewHTTPLog_builds | exact Hrest].
      * exists (body ++ String newlineByte EmptyString)%string, rest.
        assert (Hlen' : (String.length
                           (body ++ String newlineByte EmptyString) =? 0)
                        = false).
        { rewrite string_length_append. simpl. apply Nat.eqb_neq. lia. }
        rewrite Hlen', get_last_append, Ascii.eqb_refl.
        split; [reflexivity |]. split; [apply Hlogs |].
        split; [destruct body; discriminate |].
        split; [reflexivity |]. split; [auto |].
        split.
        { intros H. injection H as ->. rewrite Ascii.eqb_refl in Hnl.
          discriminate. }
        split; [reflexivity |].
        split; [intros u; apply NewHTTPLog_builds | exact Hrest].
    + exfalso. destruct body as [| a s]; [contradiction |].
      simpl in Hget. rewrite Nat.sub_0_r in Hget.
      assert (Hsome : forall (t : string) (c : Ascii.ascii),
                 String.get (String.length t) (String c t) <> None).
      { induction t as [| d t IHt]; intros c; simpl; [discriminate |].
        apply IHt. }
      exact (Hsome s a Hget).
  - intros H. destruct readErr; [auto | contradiction].
  - intros -> ->. simpl. auto.
Qed.

(** * The two ways of sending an event *)

(** X20: [LogEvent.Send] is the blocking counterpart of [SendEvent].  On
    every event stream, [Send] returns exactly when [SendEvent] of the same
    event returns true, and leaves the stream in the same state; it parks
    the caller exactly when [SendEvent] returns false, that is on a nil
    stream and on a stream without room; and both panic on a closed
    stream, and only there. *)
Theorem LogEvent_Send_blocks_where_SendEvent_gives_up
        (l : LogEvent) (eventC : option (chan Event)) :
  (forall ev', LogEvent_Send l eventC = Returns ev' <->
               SendEvent eventC (Event_Log l) = Returns (true, ev')) /\
  (LogEvent_Send l eventC = Blocks <->
   SendEvent eventC (Event_Log l) = Returns (false, eventC)) /\
  (LogEvent_Send l eventC = Blocks <->
   eventC = None \/
   exists ch, eventC = Some ch /\ closed ch = false /\ no_room ch = true) /\
  (LogEvent_Send l eventC = Panics <->
   SendEvent eventC (Event_Log l) = Panics) /\
  (LogEvent_Send l eventC = Panics <->
   exists ch, eventC = Some ch /\ closed ch = true).
Proof.
  unfold LogEvent_Send, SendEvent, no_room.
  destruct eventC as [ch |]; simpl.
  - unfold chan_send. destruct (closed ch) eqn:Hc.
    + split; [intros ev'; split; discriminate |].
      split; [split; discriminate |].
      split; [split; [discriminate |
                      intros [H | (ch0 & H & H1 & _)];
                      [discriminate | injection H as <-; congruence]] |].
      split; [tauto |]. split; [eauto | reflexivity].
    + destruct (0 <? recvq ch) eqn:Hr.
      * split; [intros ev'; split; intros H; injection H as <-; reflexivity |].
        split; [split; discriminate |].
        split; [split; [discriminate |
                        intros [H | (ch0 & H & _ & H2)]; [discriminate |]] |].
        { injection H as <-. apply Nat.ltb_lt in Hr.
          apply andb_prop in H2. destruct H2 as [H2 _].
          apply Nat.eqb_eq in H2. lia. }
        split; [split; discriminate |].
        split; [discriminate | intros (ch0 & H & H1); injection H as <-;
                               congruence].
      * destruct (length (buf ch) <? cap ch) eqn:Hb.
        -- split; [intros ev'; split; intros H; injection H as <-;
                   reflexivity |].
           split; [split; discriminate |].
           split; [split; [discriminate |
                           intros [H | (ch0 & H & _ & H2)];
                           [discriminate |]] |].
           { injection H as <-. apply Nat.ltb_lt in Hb.
             apply andb_prop in H2. destruct H2 as [_ H2].
             apply Nat.leb_le in H2. lia. }
           split; [split; discriminate |].
           split; [discriminate | intros (ch0 & H & H1); injection H as <-;
                                  congruence].
        -- split; [intros ev'; split; discriminate |].
           split; [split; reflexivity |].
           split.
           { split; [intros _; right; exists ch |reflexivity].
             split; [reflexivity |]. split; [exact Hc |].
             apply Nat.ltb_ge in Hr, Hb.
             apply andb_true_intro. split;
               [apply Nat.eqb_eq; lia | apply Nat.leb_le; lia]. }
           split; [split; discriminate |].
           split; [discriminate | intros (ch0 & H & H1); injection H as <-;
                                  congruence].
  - split; [intros ev'; split; discriminate |].
    split; [split; reflexivity |].
    split; [split; [auto | reflexivity] |].
    split; [split; discriminate |].
    split; [discriminate | intros (ch0 & H & _); discriminate].
Qed.

(** * The further properties at concrete inputs *)

Lemma source_run_reachable (n : nat) (c : source_config) :
  source_reachable c (source_run n c).
Proof.
  revert c. induction n as [| n IH]; intros c; simpl;
    [apply source_reach_start |].
  assert (Hs : source_reachable c (source_coop_step c)).
  { unfold source_coop_step. destruct (source_steps c) as [| c' l] eqn:E.
    - destruct (src_pc c); try apply source_reach_start.
      eapply source_reach_step;
        [apply source_reach_start | apply source_consumer_recv].
    - eapply source_reach_step; [apply source_reach_start |].
      apply source_go. rewrite E. left. reflexivity. }
  clear - Hs IH. specialize (IH (source_coop_step c)).
  induction IH as [| c1 c2 _ IH' Hm]; [exact Hs |].
  eapply source_reach_step; eauto.
Qed.

Lemma stages_in_a_row_compose_witness :
  let q := prun 30 (pipe_of (Map_Transform (mkMap (Some (fail_on 2))))
                            (Filter_Transform (mkFilter (Some Nat.even)))
                            (loaded [1; 2; 4]) (Some (make_chan 1))) in
  sent (downstream q) = [4] /\
  emitted (upstream q)
  = [NewErrorEvent "map transform error" (Some (errors_New "bad item")) true].
Proof.
  intros q.
  destruct (@stages_in_a_row_compose
              nat nat nat 0 0 (Map_body (mkMap (Some (fail_on 2))))
              (Filter_body (mkFilter (Some Nat.even)))
              (loaded [1; 2; 4]) (Some (make_chan 1)) q) as (_ & _ & H).
  - apply prun_preachable.
  - destruct H as (_ & _ & _ & _ & H5 & H6 & _).
    + reflexivity.
    + assert (Hg : g (upstream q) = Exited) by reflexivity.
      rewrite Hg. discriminate.
    + rewrite H5, H6. split; reflexivity.
Defined.

Lemma stages_in_a_row_complete_witness :
  exists n, forall m, n <= m ->
    taken (cout (downstream
                   (prun m (pipe_of (Map_Transform (mkMap (Some (fail_on 3))))
                                    (spawn 2 (@Buffer_body nat))
                                    (loaded [1; 2; 3; 4])
                                    (Some (make_chan 1))))))
    = [1; 2; 4].
Proof.
  destruct (@stages_in_a_row_complete
              nat nat nat 2 (Map_body (mkMap (Some (fail_on 3))))
              (@Buffer_body nat) [1; 2; 3; 4] (Some (make_chan 1)))
    as (n & Hn).
  - apply Map_body_no_crash.
  - intros y. reflexivity.
  - right. apply ev_ready_make_chan.
  - exists n. intros m Hm.
    destruct (Hn m Hm) as (_ & _ & _ & H & _). exact H.
Defined.

Lemma stage_events_name_their_cause_witness :
  let c := run 6 (Map_Transform (mkMap (Some (fail_on 1))) (loaded [1])
                                (Some (make_chan 1))) in
  exists (x : nat) (cause : error),
    In x (received c) /\ snd (fail_on 1 x) = Some cause /\
    Event_String (NewErrorEvent "map transform error"
                                (Some (errors_New "bad item")) true)
    = Returns ("map transform error: " ++ error_Error cause)%string.
Proof.
  intros c.
  destruct (@stage_events_name_their_cause
              nat nat (fun _ => true) (fail_on 1) (loaded [1])
              (Some (make_chan 1)) c
              (NewErrorEvent "map transform error"
                             (Some (errors_New "bad item")) true))
    as [H _].
  - left. reflexivity.
  - destruct H as (x & cause & H1 & H2 & _ & _ & H5).
    + apply run_reachable.
    + exists x, cause. auto.
Defined.

Lemma NewEventCollector_has_worker_and_room_witness :
  (1 <= workers (NewEventCollector [WithWorkers 0; @WithBufferSize unit (-5)]))%Z /\
  (1 <= bufferSize (NewEventCollector [WithWorkers 0; @WithBufferSize unit (-5)]))%Z.
Proof.
  destruct (@NewEventCollector_has_worker_and_room
              unit [WithWorkers 0; @WithBufferSize unit (-5)] 0%Z
              (NewLogEvent "s" LevelInfo "m"))
    as (H1 & H2 & _).
  - repeat constructor.
  - split; [exact H1 | exact H2].
Defined.

Lemma Close_drains_the_live_stream_witness :
  let w := fst (Collect (mkWorld [] (NewEventCollector [@WithWorkers unit 2]))) in
  exists w', Close w = Returns w' /\ live w' = [] /\
             isOpen (this w') = false.
Proof.
  intros w.
  destruct (@Close_drains_the_live_stream unit [@WithWorkers unit 2] w)
    as (w' & H1 & H2 & H3 & _).
  - repeat constructor.
  - eapply wreach_step; [apply wreach_start | apply wstep_Collect].
  - exists w'. auto.
Defined.

Lemma Logger_without_event_stream_hangs_witness :
  let c := sink_run 5 (Logger_Load (fun s : string => (s, None))
                                   (fun s : string => s)
                                   (loaded ["a"; ""; "b"]%string) None) in
  sink_step c = None /\ at_pc c <> SinkReturned /\ calls c = ["a"%string].
Proof.
  intros c.
  destruct (@Logger_without_event_stream_hangs
              string (fun s : string => (s, None)) (fun s : string => s)
              (loaded ["a"; ""; "b"]%string) c ["a"%string] []
              EmptyString)
    as (_ & H2 & H3 & _ & _ & H6).
  - apply sink_run_reachable.
  - reflexivity.
  - reflexivity.
  - auto.
Defined.

Lemma NatsStream_acks_only_after_publish_witness :
  exists (b : NatsStream unit)
         (c0 : sink_config DataRawReadable broker_call),
    NewNatsStream (Some tt) "logs" = (b, None) /\
    NatsStream_Load (fun _ _ _ _ => None) (fun _ _ => None) b
                    (make_chan 0) None = Some c0.
Proof.
  destruct (@NatsStream_acks_only_after_publish
              unit (fun _ _ _ _ => None) (fun _ _ => None) tt "logs"
              (make_chan 0) None)
    as (b & c0 & H1 & H2 & _).
  - discriminate.
  - exists b, c0. auto.
Defined.

Lemma NatsStream_delivers_when_broker_accepts_witness :
  exists c0 n,
    NatsStream_Load (fun _ _ _ _ => None) (fun _ _ => None)
                    (mkNatsStream (Some tt) "logs")
                    (loaded [mkDataRawReadable ("m1"%string, None) true;
                             mkDataRawReadable ("m2"%string, None) false])
                    None = Some c0 /\
    forall m, n <= m ->
      calls (sink_run m c0)
      = [Publish "logs" "m1";
         Ack (mkDataRawReadable ("m1"%string, None) true);
         Publish "logs" "m2"].
Proof.
  destruct (@NatsStream_delivers_when_broker_accepts
              unit (fun _ _ _ _ => None) (fun _ _ => None) tt "logs"
              [mkDataRawReadable ("m1"%string, None) true;
               mkDataRawReadable ("m2"%string, None) false] None)
    as (c0 & n & H1 & H2).
  - intros msg [<- | [<- | []]]; reflexivity.
  - reflexivity.
  - reflexivity.
  - exists c0, n. split; [exact H1 |]. intros m Hm.
    destruct (H2 m Hm) as (_ & _ & _ & H). exact H.
Defined.

Lemma mock_source_sends_a_prefix_witness :
  let s := NewSourceImpl [NewReadableImpl "a"; NewReadableImpl "b"] in
  let c := source_run 5 (SourceImpl_Extract s false None) in
  exists rest, src_data s = src_sent c ++ rest /\
               taken (src_out c) = src_sent c.
Proof.
  intros s c.
  destruct (@mock_source_sends_a_prefix s false None c)
    as ((rest & H1 & _) & H2 & _).
  - apply source_run_reachable.
  - exists rest. auto.
Defined.

Lemma mock_source_delivers_everything_witness :
  exists n, forall m, n <= m ->
    taken (src_out (source_run m (SourceImpl_Extract
                                    (NewSourceImpl [NewReadableImpl "a";
                                                    NewReadableImpl "b"])
                                    false (Some (make_chan 1)))))
    = [NewReadableImpl "a"; NewReadableImpl "b"].
Proof.
  destruct (@mock_source_delivers_everything
              (NewSourceImpl [NewReadableImpl "a"; NewReadableImpl "b"])
              (Some (make_chan 1)))
    as (n & Hn).
  - intros ch H. injection H as <-. reflexivity.
  - exists n. intros m Hm.
    destruct (Hn m Hm) as (_ & _ & H & _). exact H.
Defined.

Lemma BrokerStream_never_leaves_the_message_loop_witness :
  let create := fun (_ : unit) (_ : string) (_ : unit) => @None error in
  let messages := fun _ : nat => @None error in
  let next := fun _ : nat => (Some tt, @None error) in
  let c0 := BrokerStream_Extract unit (mkBrokerStream (Some tt) tt "logs")
                                 false None in
  let c := mkBroker (self c0) BAtNext (b_out c0) None false 1 0 [] [] in
  let c' := mkBroker (self c0) BAtNext (b_out c0) None true 1 0 [] [] in
  b_ctx_done c' = true /\ b_pc c' <> BReturned /\
  (closed (b_out c') = true -> b_pc c' = BPanicked).
Proof.
  intros create messages next c0 c c'.
  destruct (@BrokerStream_never_leaves_the_message_loop
              unit unit unit create messages next
              (mkBrokerStream (Some tt) tt "logs") false None c c')
    as (H1 & _ & H3).
  - eapply broker_reach_step;
      [eapply broker_reach_step; [apply broker_reach_start |] |];
      apply broker_go; reflexivity.
  - eapply broker_reach_step; [apply broker_reach_start |].
    apply (broker_cancel create messages next c).
  - reflexivity.
  - split; [reflexivity |]. split; [exact H1 |].
    intros H. apply H3. exact H.
Defined.


